(** * kube-state-metrics: collector assembly, verified against its Go source

    A shallow embedding of
    - [pkg/collectors/builder.go]   (Builder, Build, filterMetricFamilies,
      composeMetricGenFuncs, extractHelpText, reflectorPerNamespace),
    - [internal/store/poddisruptionbudget.go] (the PodDisruptionBudget
      families and wrapPodDisruptionBudgetFunc),
    - [main.go] (collectorSet, registerCollectors, getSupportedResources),
    with the allow/deny policy, whose implementation the repository keeps
    elsewhere, modelled from the specification, and followed by the
    properties proved about them. *)

From Stdlib Require Import String Ascii List ZArith Lia Sorted Permutation.
From stdpp Require Import base option list strings gmap.

Open Scope string_scope.
Open Scope list_scope.

(** ** Go run-time outcomes *)

Module Go.

(** The ways a Go call can stop without returning. *)
Inductive panic : Type :=
  | PanicMsg (msg : string)          (* panic("...") *)
  | InterfaceConversion              (* failed type assertion x.(T) *)
  | NilDereference                   (* field access through a nil pointer *)
  | IndexOutOfRange                  (* s[i] with i >= len(s) *)
  | Fatal (msg : string).            (* glog.Fatalf: logs and exits the process *)

Inductive result (A : Type) : Type :=
  | Ok (a : A)
  | Panic (p : panic).
Arguments Ok {A} a.
Arguments Panic {A} p.

(** A monad in which Go code can panic; [mret] and [mbind] are stdpp's. *)
Class MPanic (M : Type -> Type) := mpanic : forall {A}, panic -> M A.
Global Arguments mpanic {_ _ _} _ : assert.

Global Instance result_ret : MRet result := fun _ a => Ok a.
Global Instance result_bind : MBind result := fun _ _ f m =>
  match m with
  | Ok a => f a
  | Panic p => Panic p
  end.
Global Instance result_panic : MPanic result := fun _ p => Panic p.

(** Code that also reads and writes ambient state of type [W]; the state
    reached when a panic is raised is kept. *)
Definition Exec (W A : Type) : Type := W -> result A * W.

Global Instance Exec_ret {W} : MRet (Exec W) := fun _ a w => (Ok a, w).
Global Instance Exec_bind {W} : MBind (Exec W) := fun _ _ f m w =>
  match m w with
  | (Ok a, w') => f a w'
  | (Panic p, w') => (Panic p, w')
  end.
Global Instance Exec_panic {W} : MPanic (Exec W) := fun _ p w => (Panic p, w).

Section Helpers.
Context {M : Type -> Type} `{!MRet M, !MBind M, !MPanic M}.

(** [*p]: a nil pointer is [None]. *)
Definition deref {A} (p : option A) : M A :=
  match p with
  | Some a => mret a
  | None => mpanic NilDereference
  end.

(** [s[i] = v] on a slice held by value. *)
Definition assign {A} (s : list A) (i : nat) (v : A) : M (list A) :=
  if decide (i < length s) then mret (<[i := v]> s)
  else mpanic IndexOutOfRange.

(** [for i, x := range xs { st = body(i, x, st) }], started at index [i];
    a panic in the body leaves the loop. *)
Fixpoint for_range {A St} (body : nat -> A -> St -> M St)
    (i : nat) (xs : list A) (st : St) : M St :=
  match xs with
  | [] => mret st
  | x :: xs' => st' ← body i x st; for_range body (S i) xs' st'
  end.
End Helpers.

(** [strings.Join(elems, sep)] *)
Fixpoint strings_Join (elems : list string) (sep : string) : string :=
  match elems with
  | [] => ""
  | [s] => s
  | s :: rest => s +:+ sep +:+ strings_Join rest sep
  end.

(** [strings.Split(s, sep)] for a one-byte separator: the pieces between
    the occurrences of [sep]; always at least one piece. *)
Fixpoint strings_Split (s : string) (sep : ascii) : list string :=
  match s with
  | EmptyString => [""]
  | String c s' =>
      if Ascii.eqb c sep then "" :: strings_Split s' sep
      else match strings_Split s' sep with
           | [] => [String c ""]
           | p :: ps => String c p :: ps
           end
  end.

(** *** Slices of strings over a store of backing arrays *)

(** A slice header: backing array, offset of element 0, length, capacity. *)
Record slice : Type := Slice { arr : nat; off : nat; len : nat; cap : nat }.

(** The backing arrays allocated so far; an address is an index. *)
Abbreviation heap := (list (list string)).

(** The elements a slice header denotes.  Go headers always point into an
    allocated array; a dangling header denotes no elements. *)
Definition elems (h : heap) (s : slice) : list string :=
  take (len s) (drop (off s) (default [] (h !! arr s))).

Definition slice_wf (h : heap) (s : slice) : Prop :=
  exists a, h !! arr s = Some a /\ off s + cap s <= length a /\ len s <= cap s.

(** [[]string{}]: a new header of length and capacity 0. *)
Definition empty_slice (h : heap) : heap * slice :=
  (h ++ [[]], Slice (length h) 0 0 0).

(** [append(s, x)].  With spare capacity the element is written into the
    backing array of [s]; otherwise the elements move to a new array.  The
    capacity of the new array is the run time's choice ([growslice]), at
    least the length needed. *)
Definition append (growslice : nat -> nat -> nat)
    (h : heap) (s : slice) (x : string) : heap * slice :=
  if decide (len s < cap s) then
    (<[arr s := <[off s + len s := x]> (default [] (h !! arr s))]> h,
     Slice (arr s) (off s) (S (len s)) (cap s))
  else
    let n := S (len s) in
    let newcap := Nat.max n (growslice (cap s) n) in
    (h ++ [elems h s ++ [x] ++ replicate (newcap - n) ""],
     Slice (length h) 0 n newcap).

(** [s[i] = v] *)
Definition slice_set (h : heap) (s : slice) (i : nat) (v : string) : result heap :=
  if decide (i < len s) then
    Ok (<[arr s := <[off s + i := v]> (default [] (h !! arr s))]> h)
  else Panic IndexOutOfRange.

(** [sort.Strings] orders by Go's [<] on strings, the byte-wise
    lexicographic order, which is [String.leb]. *)
Fixpoint insert_sorted (x : string) (l : list string) : list string :=
  match l with
  | [] => [x]
  | y :: l' => if String.leb x y then x :: l else y :: insert_sorted x l'
  end.

(** The increasing rearrangement of a list of strings.  Equal strings are
    indistinguishable, so every sorting algorithm yields this list. *)
Fixpoint sorted_strings (l : list string) : list string :=
  match l with
  | [] => []
  | x :: l' => insert_sorted x (sorted_strings l')
  end.

(** [sort.Strings(s)]: sorts the elements of [s] inside its backing array. *)
Definition sort_Strings (h : heap) (s : slice) : heap :=
  let a := default [] (h !! arr s) in
  <[arr s := take (off s) a ++ sorted_strings (elems h s)
               ++ drop (off s + len s) a]> h.

End Go.
Export Go.

(** ** Metric data ([pkg/metric], [pkg/metric_generator]) *)

Module Metrics.

Inductive MetricType : Type := Gauge | Counter | Info | StateSet.

(** [metric.Metric].  The values produced here are integers converted to
    float64, kept as the integer. *)
Record Metric : Type := {
  LabelKeys : list string;
  LabelValues : list string;
  Value : Z
}.

(** [metric.Family], as reached through its pointer.  [Metrics] is a
    [[]*Metric]: each entry is the address of a metric object, or nil
    ([None]); [objects] holds the metric objects the entries point to, an
    address being an index.  Two entries may hold the same address. *)
Record Family : Type := {
  Metrics : list (option nat);
  objects : list Metric
}.

(** [FamilyGenerator]: a family's description and its render function from
    an object of type [Obj] (Go's [interface{}]) to a block of type [Fam],
    run in [M]. *)
Record FamilyGenerator {M : Type -> Type} {Obj Fam : Type} : Type :=
  NewFamilyGenerator {
    Name : string;
    Help : string;
    Type_ : MetricType;
    DeprecatedVersion : string;
    GenerateFunc : Obj -> M Fam
  }.
Global Arguments FamilyGenerator : clear implicits.
Global Arguments NewFamilyGenerator {M Obj Fam} _ _ _ _ _.

End Metrics.
Export Metrics.

(** ** [pkg/collectors/builder.go] *)

Module Collectors.

(** [whiteBlackLister]: the two queries of the interface; no
    implementation is part of this package. *)
Record whiteBlackLister : Type := {
  IsIncluded : string -> bool;
  IsExcluded : string -> bool
}.

Inductive ExpectedType : Type := DaemonSet | Service | Pod.

Section Builder.
Context {M : Type -> Type} `{!MRet M, !MBind M, !MPanic M}.
Context {Obj Fam clientset context Options ListWatch : Type}.

Local Abbreviation FamilyGenerator := (Metrics.FamilyGenerator M Obj Fam).

(** [metricsstore.FamilyStringer], an interface value: [None] is nil. *)
Definition FamilyStringer : Type := option Fam.

(** What [metricsstore.NewMetricsStore] is constructed with. *)
Record MetricsStore : Type := NewMetricsStore {
  headers : list string;
  generateMetricsFunc : Obj -> M (list FamilyStringer)
}.

Record Collector : Type := NewCollector { Store : MetricsStore }.

(** A reflector started with [go reflector.Run(ctx.Done())]. *)
Record Reflector : Type := NewReflector {
  lw : ListWatch;
  expectedType : ExpectedType;
  store : MetricsStore;
  resyncPeriod : nat;
  stopCh : context
}.

(** [Builder].  [kubeClient] is an interface and may be nil; it is only
    handed on to the list/watch constructors.  [ctx] is a
    [context.Context], which by the convention of that package is never
    nil.  [enabledCollectors] is a slice header; [namespaces] is held by
    value. *)
Record Builder : Type := {
  kubeClient : option clientset;
  namespaces : list string;
  opts : Options;
  ctx : context;
  enabledCollectors : slice;
  whiteBlackList : option whiteBlackLister
}.

(** The parts of package [collectors] that [builder.go] uses and that live
    in other files: the generator tables, the list/watch constructors
    (each only builds two closures over its arguments), and the run
    time's capacity rule for [append]. *)
Record Externals : Type := {
  daemonSetMetricFamilies : list FamilyGenerator;
  podMetricFamilies : list FamilyGenerator;
  serviceMetricFamilies : list FamilyGenerator;
  createDaemonSetListWatch : option clientset -> string -> ListWatch;
  createPodListWatch : option clientset -> string -> ListWatch;
  createServiceListWatch : option clientset -> string -> ListWatch;
  growslice : nat -> nat -> nat
}.

Variable ext : Externals.

(** [NewBuilder] leaves the other fields at their zero value; the nil
    slice has length and capacity 0, so nothing is read or written through
    it. *)
Definition NewBuilder (ctx : context) (opts : Options) : Builder :=
  {| kubeClient := None; namespaces := []; opts := opts; ctx := ctx;
     enabledCollectors := Slice 0 0 0 0; whiteBlackList := None |}.

(** The [range c] loop of [WithEnabledCollectors]: element [i] is read
    from the caller's slice when iteration [i] starts. *)
Fixpoint copy_loop (c : slice) (idx : list nat) (h : heap) (copy : slice)
    : heap * slice :=
  match idx with
  | [] => (h, copy)
  | i :: idx' =>
      let s := default "" (elems h c !! i) in
      let '(h', copy') := append (growslice ext) h copy s in
      copy_loop c idx' h' copy'
  end.

Definition WithEnabledCollectors (c : slice) (st : heap * Builder)
    : heap * Builder :=
  let '(h, b) := st in
  let '(h0, copy0) := empty_slice h in
  let '(h1, copy) := copy_loop c (seq 0 (len c)) h0 copy0 in
  let h2 := sort_Strings h1 copy in
  (h2, {| kubeClient := kubeClient b; namespaces := namespaces b;
          opts := opts b; ctx := ctx b;
          enabledCollectors := copy; whiteBlackList := whiteBlackList b |}).

Definition WithNamespaces (n : list string) (b : Builder) : Builder :=
  {| kubeClient := kubeClient b; namespaces := n; opts := opts b;
     ctx := ctx b; enabledCollectors := enabledCollectors b;
     whiteBlackList := whiteBlackList b |}.

Definition WithKubeClient (c : option clientset) (b : Builder) : Builder :=
  {| kubeClient := c; namespaces := namespaces b; opts := opts b;
     ctx := ctx b; enabledCollectors := enabledCollectors b;
     whiteBlackList := whiteBlackList b |}.

Definition WithWhiteBlackList (l : option whiteBlackLister) (b : Builder)
    : Builder :=
  {| kubeClient := kubeClient b; namespaces := namespaces b; opts := opts b;
     ctx := ctx b; enabledCollectors := enabledCollectors b;
     whiteBlackList := l |}.

(** [filterMetricFamilies]; [l.IsIncluded] on a nil interface panics. *)
Definition filterMetricFamilies (l : option whiteBlackLister)
    (families : list FamilyGenerator) : result (list FamilyGenerator) :=
  for_range (fun _ f filtered =>
      l' ← deref l;
      if IsIncluded l' (Name f) then mret (filtered ++ [f])
      else mret filtered)
    0 families [].

Definition extractHelpText (families : list FamilyGenerator)
    : result (list string) :=
  for_range (fun i f help => assign help i (Name f +:+ " " +:+ Help f))
    0 families (replicate (length families) "").

Definition composeMetricGenFuncs (families : list FamilyGenerator)
    : Obj -> M (list FamilyStringer) :=
  let funcs :=
    fold_left (fun funcs f => funcs ++ [GenerateFunc f]) families [] in
  fun obj =>
    for_range (fun i f families =>
        block ← f obj;
        assign families i (Some block))
      0 funcs (replicate (length funcs) None).

(** [reflectorPerNamespace]: the reflectors it starts, in the order of the
    namespaces. *)
Definition reflectorPerNamespace (ctx : context) (kubeClient : option clientset)
    (expectedType : ExpectedType) (store : MetricsStore)
    (namespaces : list string)
    (listWatchFunc : option clientset -> string -> ListWatch)
    : list Reflector :=
  fold_left (fun started ns =>
      let lw := listWatchFunc kubeClient ns in
      let reflector := NewReflector lw expectedType store 0 ctx in
      started ++ [reflector])
    namespaces [].

Definition buildDaemonSetCollector (b : Builder)
    : result (Collector * list Reflector) :=
  filteredMetricFamilies ←
    filterMetricFamilies (whiteBlackList b) (daemonSetMetricFamilies ext);
  let composedMetricGenFuncs := composeMetricGenFuncs filteredMetricFamilies in
  helpTexts ← extractHelpText filteredMetricFamilies;
  let store := NewMetricsStore helpTexts composedMetricGenFuncs in
  let started := reflectorPerNamespace (ctx b) (kubeClient b) DaemonSet
                   store (namespaces b) (createDaemonSetListWatch ext) in
  mret (NewCollector store, started).

Definition buildServiceCollector (b : Builder)
    : result (Collector * list Reflector) :=
  filteredMetricFamilies ←
    filterMetricFamilies (whiteBlackList b) (serviceMetricFamilies ext);
  let composedMetricGenFuncs := composeMetricGenFuncs filteredMetricFamilies in
  helpTexts ← extractHelpText filteredMetricFamilies;
  let store := NewMetricsStore helpTexts composedMetricGenFuncs in
  let started := reflectorPerNamespace (ctx b) (kubeClient b) Service
                   store (namespaces b) (createServiceListWatch ext) in
  mret (NewCollector store, started).

Definition buildPodCollector (b : Builder)
    : result (Collector * list Reflector) :=
  filteredMetricFamilies ←
    filterMetricFamilies (whiteBlackList b) (podMetricFamilies ext);
  let composedMetricGenFuncs := composeMetricGenFuncs filteredMetricFamilies in
  helpTexts ← extractHelpText filteredMetricFamilies;
  let store := NewMetricsStore helpTexts composedMetricGenFuncs in
  let started := reflectorPerNamespace (ctx b) (kubeClient b) Pod
                   store (namespaces b) (createPodListWatch ext) in
  mret (NewCollector store, started).

Definition availableCollectors
    : gmap string (Builder -> result (Collector * list Reflector)) :=
  list_to_map [
    ("daemonsets", buildDaemonSetCollector);
    ("pods", buildPodCollector);
    ("services", buildServiceCollector) ].

(** What a call of [Build] leaves behind: the collectors returned, the
    reflectors started, and the line logged. *)
Record Built : Type := {
  collectors : list Collector;
  activeCollectorNames : list string;
  started : list Reflector;
  logged : string
}.

(** [Build].  [glog.Infof] is kept as the line it logs. *)
Definition Build (h : heap) (b : Builder) : result Built :=
  if whiteBlackList b is None
  then mpanic (PanicMsg "whiteBlackList should not be nil")
  else
    '(collectors, names, started) ←
      for_range (fun _ c '(collectors, names, started) =>
          match availableCollectors !! c with
          | Some constructor =>
              '(collector, rs) ← constructor b;
              mret (collectors ++ [collector], names ++ [c], started ++ rs)
          | None => mret (collectors, names, started)
          end)
        0 (elems h (enabledCollectors b)) ([], [], []);
    mret {| collectors := collectors;
            activeCollectorNames := names;
            started := started;
            logged := "Active collectors: " +:+ strings_Join names "," |}.

End Builder.

End Collectors.
Export Collectors.

(** ** The allow/deny policy *)

Module Policy.

(** Modelled from the spec: the allow/deny policy, the implementation of
    [whiteBlackLister], which is not under [src/].  A policy is an allow
    list and a deny list of family names (sections 4.2, 6 and 8).  A name on
    the deny list is excluded, and it is not included even when the allow
    list holds it too: exclusion wins over inclusion.  A name on the allow
    list alone is included.  What holds of a name on neither list is left
    to configuration (section 9): [admitOthers]. *)
Record AllowDeny : Type := {
  allow : list string;
  deny : list string;
  admitOthers : bool
}.

Definition lister (p : AllowDeny) : whiteBlackLister :=
  {| IsExcluded := fun name => bool_decide (name ∈ deny p);
     IsIncluded := fun name =>
       if bool_decide (name ∈ deny p) then false
       else if bool_decide (name ∈ allow p) then true
       else admitOthers p |}.

End Policy.

(** ** [composeMetricGenFuncs] with its slices in memory *)

Module Mem.

(** Slices over arrays of any element type: the operations of [Go] on
    strings, for the two slices that [composeMetricGenFuncs] and the
    function it returns allocate. *)
Section Arrays.
Context {A : Type}.

Definition elems (h : list (list A)) (s : slice) : list A :=
  take (len s) (drop (off s) (default [] (h !! arr s))).

Definition slice_wf (h : list (list A)) (s : slice) : Prop :=
  exists a, h !! arr s = Some a /\ off s + cap s <= length a /\ len s <= cap s.

(** [[]T{}] *)
Definition empty_slice (h : list (list A)) : list (list A) * slice :=
  (h ++ [[]], Slice (length h) 0 0 0).

(** [make([]T, n)]: a new array of [n] zero values. *)
Definition make (zero : A) (n : nat) (h : list (list A))
    : list (list A) * slice :=
  (h ++ [replicate n zero], Slice (length h) 0 n n).

(** [append(s, x)], as [Go.append] with the zero value of the type. *)
Definition append (zero : A) (growslice : nat -> nat -> nat)
    (h : list (list A)) (s : slice) (x : A) : list (list A) * slice :=
  if decide (len s < cap s) then
    (<[arr s := <[off s + len s := x]> (default [] (h !! arr s))]> h,
     Slice (arr s) (off s) (S (len s)) (cap s))
  else
    let n := S (len s) in
    let newcap := Nat.max n (growslice (cap s) n) in
    (h ++ [elems h s ++ [x] ++ replicate (newcap - n) zero],
     Slice (length h) 0 n newcap).

(** [s[i]] *)
Definition index (h : list (list A)) (s : slice) (i : nat) : result A :=
  if decide (i < len s) then
    match default [] (h !! arr s) !! (off s + i) with
    | Some x => Ok x
    | None => Panic IndexOutOfRange
    end
  else Panic IndexOutOfRange.

(** [s[i] = v] *)
Definition set (h : list (list A)) (s : slice) (i : nat) (v : A)
    : result (list (list A)) :=
  if decide (i < len s) then
    Ok (<[arr s := <[off s + i := v]> (default [] (h !! arr s))]> h)
  else Panic IndexOutOfRange.
End Arrays.

Section Composed.
Context {W Obj Fam : Type}.

(** The memory the code at hand works in: the state [ambient] that a
    generator may read and write, the arrays of generator functions (a nil
    function is [None]) and the arrays of blocks (a nil interface is
    [None]). *)
Record World : Type := {
  ambient : W;
  funcArrays : list (list (option (Obj -> Exec W Fam)));
  blockArrays : list (list (option Fam))
}.

Variable growslice : nat -> nat -> nat.

(** [funcs[i]], read from memory. *)
Definition read_func (funcs : slice) (i : nat)
    : Exec World (option (Obj -> Exec W Fam)) :=
  fun w => (index (funcArrays w) funcs i, w).

(** [f(obj)]: the call of a nil function panics. *)
Definition call (f : option (Obj -> Exec W Fam)) (obj : Obj) : Exec World Fam :=
  fun w =>
    match f with
    | Some f' =>
        let '(r, a) := f' obj (ambient w) in
        (r, {| ambient := a; funcArrays := funcArrays w;
               blockArrays := blockArrays w |})
    | None => (Panic NilDereference, w)
    end.

(** [families[i] = v], written to memory. *)
Definition write_block (families : slice) (i : nat) (v : option Fam)
    : Exec World unit :=
  fun w =>
    match set (blockArrays w) families i v with
    | Ok h => (Ok tt, {| ambient := ambient w; funcArrays := funcArrays w;
                         blockArrays := h |})
    | Panic p => (Panic p, w)
    end.

(** [make([]metricsstore.FamilyStringer, n)] *)
Definition make_blocks (n : nat) : Exec World slice :=
  fun w =>
    let '(h, s) := make None n (blockArrays w) in
    (Ok s, {| ambient := ambient w; funcArrays := funcArrays w;
              blockArrays := h |}).

(** [composeMetricGenFuncs] up to its [return]: it builds the slice [funcs]
    that the returned function captures. *)
Definition composeMetricGenFuncs
    (families : list (FamilyGenerator (Exec W) Obj Fam)) : Exec World slice :=
  fun w =>
    let '(h, funcs) :=
      fold_left (fun '(h, funcs) f =>
                   append None growslice h funcs (Some (GenerateFunc f)))
        families (empty_slice (funcArrays w)) in
    (Ok funcs, {| ambient := ambient w; funcArrays := h;
                  blockArrays := blockArrays w |}).

(** The function that [composeMetricGenFuncs] returns, over the slice
    [funcs] it has captured.  The [range] takes the length of [funcs] once
    and reads element [i] when iteration [i] starts. *)
Definition composed (funcs : slice) (obj : Obj) : Exec World slice :=
  families ← make_blocks (len funcs);
  _ ← for_range (fun _ i _ =>
         f ← read_func funcs i;
         block ← call f obj;
         write_block families i (Some block))
       0 (seq 0 (len funcs)) tt;
  mret families.

End Composed.

End Mem.

(** ** [internal/store/poddisruptionbudget.go] *)

Module Store.

(** The fields of [metav1.ObjectMeta] and [v1beta1.PodDisruptionBudget] that
    the generators read.  A zero [CreationTimestamp] is [None], otherwise
    its Unix seconds. *)
Record ObjectMeta : Type := {
  Name : string;
  Namespace : string;
  CreationTimestamp : option Z;
  Annotations : gmap string string;
  Labels : gmap string string
}.

Record PodDisruptionBudgetStatus : Type := {
  ObservedGeneration : Z;
  DisruptionsAllowed : Z;
  CurrentHealthy : Z;
  DesiredHealthy : Z;
  ExpectedPods : Z
}.

Record PodDisruptionBudget : Type := {
  Meta : ObjectMeta;
  Status : PodDisruptionBudgetStatus
}.

(** A value of type [interface{}]: a [*v1beta1.PodDisruptionBudget]
    (possibly a nil pointer), a value of another dynamic type, or nil. *)
Inductive object : Type :=
  | ObjPodDisruptionBudget (p : option PodDisruptionBudget)
  | ObjOther (typeName : string)
  | ObjNil.

Definition descPodDisruptionBudgetAnnotationsName := "kube_poddisruptionbudget_annotations".
Definition descPodDisruptionBudgetAnnotationsHelp := "Kubernetes annotations converted to Prometheus labels.".
Definition descPodDisruptionBudgetLabelsName := "kube_poddisruptionbudget_labels".
Definition descPodDisruptionBudgetLabelsHelp := "Kubernetes labels converted to Prometheus labels.".
Definition descPodDisruptionBudgetLabelsDefaultLabels : list string :=
  ["namespace"; "poddisruptionbudget"].

Section Families.
Context {M : Type -> Type} `{!MRet M, !MBind M, !MPanic M}.

(** The type assertion of [obj] to a pointer to [v1beta1.PodDisruptionBudget]. *)
Definition assertPodDisruptionBudget (obj : object)
    : M (option PodDisruptionBudget) :=
  match obj with
  | ObjPodDisruptionBudget p => mret p
  | _ => mpanic InterfaceConversion
  end.

(** [m.LabelKeys], [m.LabelValues]: the metric object behind a pointer.
    A Go pointer is nil or points to an object; an address outside
    [objects] is treated like nil. *)
Definition load (objects : list Metric) (a : nat) : M Metric :=
  match objects !! a with
  | Some m => mret m
  | None => mpanic NilDereference
  end.

(** [wrapPodDisruptionBudgetFunc]: the loop assigns to the two label fields
    of the metric object behind each entry, in place, and the family of
    [f] is returned. *)
Definition wrapPodDisruptionBudgetFunc
    (f : option PodDisruptionBudget -> M (option Family))
    : object -> M (option Family) :=
  fun obj =>
    podDisruptionBudget ← assertPodDisruptionBudget obj;
    metricFamily ← f podDisruptionBudget;
    family ← deref metricFamily;
    objects ← for_range (fun _ m objects =>
        a ← deref m;
        m0 ← load objects a;
        let objects :=
          <[a := {| LabelKeys := descPodDisruptionBudgetLabelsDefaultLabels
                                   ++ LabelKeys m0;
                    LabelValues := LabelValues m0;
                    Value := Value m0 |}]> objects in
        p ← deref podDisruptionBudget;
        m1 ← load objects a;
        mret (<[a := {| LabelKeys := LabelKeys m1;
                        LabelValues := [Namespace (Meta p); Name (Meta p)]
                                         ++ LabelValues m1;
                        Value := Value m1 |}]> objects))
      0 (Metrics family) (objects family);
    mret (Some {| Metrics := Metrics family; objects := objects |}).

(** A family literal [&metric.Family{Metrics: []*metric.Metric{...}}]: one
    new metric object per entry. *)
Definition literal (ms : list Metric) : Family :=
  {| Metrics := Some <$> seq 0 (length ms); objects := ms |}.

(** Declared in other files of the package. *)
Variable createPrometheusLabelKeysValues :
  string -> gmap string string -> list string -> list string * list string.
Variable descPersistentVolumeAnnotationsHelp : string.

Definition podDisruptionBudgetMetricFamilies
    (allowAnnotationsList allowLabelsList : list string)
    : list (FamilyGenerator M object (option Family)) :=
  [ NewFamilyGenerator
      "kube_poddisruptionbudget_created"
      "Unix creation timestamp"
      Gauge
      ""
      (wrapPodDisruptionBudgetFunc (fun p =>
         p' ← deref p;
         let ms :=
           match CreationTimestamp (Meta p') with
           | Some unix => [] ++ [{| LabelKeys := []; LabelValues := [];
                                    Value := unix |}]
           | None => []
           end in
         mret (Some (literal ms))));
    NewFamilyGenerator
      "kube_poddisruptionbudget_status_current_healthy"
      "Current number of healthy pods"
      Gauge
      ""
      (wrapPodDisruptionBudgetFunc (fun p =>
         p' ← deref p;
         mret (Some (literal [
           {| LabelKeys := []; LabelValues := [];
              Value := CurrentHealthy (Status p') |} ]))));
    NewFamilyGenerator
      "kube_poddisruptionbudget_status_desired_healthy"
      "Minimum desired number of healthy pods"
      Gauge
      ""
      (wrapPodDisruptionBudgetFunc (fun p =>
         p' ← deref p;
         mret (Some (literal [
           {| LabelKeys := []; LabelValues := [];
              Value := DesiredHealthy (Status p') |} ]))));
    NewFamilyGenerator
      "kube_poddisruptionbudget_status_pod_disruptions_allowed"
      "Number of pod disruptions that are currently allowed"
      Gauge
      ""
      (wrapPodDisruptionBudgetFunc (fun p =>
         p' ← deref p;
         mret (Some (literal [
           {| LabelKeys := []; LabelValues := [];
              Value := DisruptionsAllowed (Status p') |} ]))));
    NewFamilyGenerator
      "kube_poddisruptionbudget_status_expected_pods"
      "Total number of pods counted by this disruption budget"
      Gauge
      ""
      (wrapPodDisruptionBudgetFunc (fun p =>
         p' ← deref p;
         mret (Some (literal [
           {| LabelKeys := []; LabelValues := [];
              Value := ExpectedPods (Status p') |} ]))));
    NewFamilyGenerator
      "kube_poddisruptionbudget_status_observed_generation"
      "Most recent generation observed when updating this PDB status"
      Gauge
      ""
      (wrapPodDisruptionBudgetFunc (fun p =>
         p' ← deref p;
         mret (Some (literal [
           {| LabelKeys := []; LabelValues := [];
              Value := ObservedGeneration (Status p') |} ]))));
    NewFamilyGenerator
      descPodDisruptionBudgetAnnotationsName
      descPersistentVolumeAnnotationsHelp
      Gauge
      ""
      (wrapPodDisruptionBudgetFunc (fun n =>
         n' ← deref n;
         let '(annotationKeys, annotationValues) :=
           createPrometheusLabelKeysValues "annotation"
             (Annotations (Meta n')) allowAnnotationsList in
         mret (Some (literal [
           {| LabelKeys := annotationKeys;
              LabelValues := annotationValues;
              Value := 1 |} ]))));
    NewFamilyGenerator
      descPodDisruptionBudgetLabelsName
      descPodDisruptionBudgetLabelsHelp
      Gauge
      ""
      (wrapPodDisruptionBudgetFunc (fun n =>
         n' ← deref n;
         let '(labelKeys, labelValues) :=
           createPrometheusLabelKeysValues "label"
             (Labels (Meta n')) allowLabelsList in
         mret (Some (literal [
           {| LabelKeys := labelKeys;
              LabelValues := labelValues;
              Value := 1 |} ]))))
  ].
End Families.

End Store.

(** ** [main.go] *)

Module Main.

(** [schema.GroupVersionResource] *)
Record GroupVersionResource : Type := {
  Group : string; Version : string; Resource : string
}.

Definition collectorSet : Type := gmap string GroupVersionResource.

(** The keys of [availableCollectors]; the values, registration functions
    of package [collectors], play no part in [Set]. *)
Definition availableCollectors : gset string :=
  list_to_set [
    "cronjobs"; "daemonsets"; "deployments"; "jobs"; "limitranges"; "nodes";
    "pods"; "replicasets"; "replicationcontrollers"; "resourcequotas";
    "services"; "statefulsets"; "persistentvolumeclaims"; "namespaces" ].

Definition quote : string := String (ascii_of_nat 34) EmptyString.

(** [collectorSet.Set]: [glog.Fatalf] ends the process.  [Set] is a
    reserved word, hence the underscore. *)
Definition Set_ (value : string) (c : collectorSet) : result collectorSet :=
  let cols := strings_Split value (ascii_of_nat 44) in
  for_range (fun _ col s =>
      if decide (col ∈ availableCollectors)
      then mret (<[col := {| Group := ""; Version := ""; Resource := "" |}]> s)
      else mpanic (Fatal ("Collector " +:+ quote +:+ col +:+ quote
                            +:+ " does not exist")))
    0 cols c.

Global Instance GroupVersionResource_eq_dec : EqDecision GroupVersionResource.
Proof. solve_decision. Defined.

Global Instance GroupVersionResource_countable : Countable GroupVersionResource.
Proof.
  refine (inj_countable' (fun r => (Group r, Version r, Resource r))
            (fun t => {| Group := t.1.1; Version := t.1.2; Resource := t.2 |}) _).
  by intros [].
Defined.

(** The values of [availableCollectors]: the registration functions of
    package [collectors]. *)
Inductive RegisterFunc : Type :=
  | RegisterCronJobCollector
  | RegisterDaemonSetCollector
  | RegisterDeploymentCollector
  | RegisterJobCollector
  | RegisterLimitRangeCollector
  | RegisterNodeCollector
  | RegisterPodCollector
  | RegisterReplicaSetCollector
  | RegisterReplicationControllerCollector
  | RegisterResourceQuotaCollector
  | RegisterServiceCollector
  | RegisterStatefulSetCollector
  | RegisterPersistentVolumeClaimCollector
  | RegisterNamespaceCollector.

(** [availableCollectors] with its values. *)
Definition availableCollectorFuncs : gmap string RegisterFunc :=
  list_to_map [
    ("cronjobs", RegisterCronJobCollector);
    ("daemonsets", RegisterDaemonSetCollector);
    ("deployments", RegisterDeploymentCollector);
    ("jobs", RegisterJobCollector);
    ("limitranges", RegisterLimitRangeCollector);
    ("nodes", RegisterNodeCollector);
    ("pods", RegisterPodCollector);
    ("replicasets", RegisterReplicaSetCollector);
    ("replicationcontrollers", RegisterReplicationControllerCollector);
    ("resourcequotas", RegisterResourceQuotaCollector);
    ("services", RegisterServiceCollector);
    ("statefulsets", RegisterStatefulSetCollector);
    ("persistentvolumeclaims", RegisterPersistentVolumeClaimCollector);
    ("namespaces", RegisterNamespaceCollector) ].

(** The resource constants of package [collectors] that [defaultCollectors]
    refers to; they are declared in other files. *)
Record Resources : Type := {
  DaemonSetGroupVersionResource : GroupVersionResource;
  DeploymentGroupVersionResource : GroupVersionResource;
  LimitRangeGroupVersionResource : GroupVersionResource;
  NodeGroupVersionResource : GroupVersionResource;
  PodGroupVersionResource : GroupVersionResource;
  ReplicaSetGroupVersionResource : GroupVersionResource;
  ReplicationControllerGroupVersionResource : GroupVersionResource;
  ResourceQuotaGroupVersionResource : GroupVersionResource;
  ServiceGroupVersionResource : GroupVersionResource;
  JobGroupVersionResource : GroupVersionResource;
  CronJobGroupVersionResource : GroupVersionResource;
  StatefulSetGroupVersionResource : GroupVersionResource;
  PersistentVolumeClaimGroupVersionResource : GroupVersionResource;
  NamespaceGroupVersionResource : GroupVersionResource
}.

Definition defaultCollectors (collectors : Resources) : collectorSet :=
  list_to_map [
    ("daemonsets", DaemonSetGroupVersionResource collectors);
    ("deployments", DeploymentGroupVersionResource collectors);
    ("limitranges", LimitRangeGroupVersionResource collectors);
    ("nodes", NodeGroupVersionResource collectors);
    ("pods", PodGroupVersionResource collectors);
    ("replicasets", ReplicaSetGroupVersionResource collectors);
    ("replicationcontrollers", ReplicationControllerGroupVersionResource collectors);
    ("resourcequotas", ResourceQuotaGroupVersionResource collectors);
    ("services", ServiceGroupVersionResource collectors);
    ("jobs", JobGroupVersionResource collectors);
    ("cronjobs", CronJobGroupVersionResource collectors);
    ("statefulsets", StatefulSetGroupVersionResource collectors);
    ("persistentvolumeclaims", PersistentVolumeClaimGroupVersionResource collectors);
    ("namespaces", NamespaceGroupVersionResource collectors) ].

(** An [error] value, held as its message; a nil error is [None]. *)
Definition error : Type := string.

(** [metav1.APIResource] and [metav1.APIResourceList], with the fields that
    are read. *)
Record APIResource : Type := { Name : string }.

Record APIResourceList : Type := {
  GroupVersion : string;
  APIResources : list APIResource
}.

(** A [clientset.Interface], as far as [main.go] looks into one: the answer
    of its discovery client to [ServerResources], a slice of pointers that
    may come together with an error. *)
Record Client : Type := {
  ServerResources : list (option APIResourceList) * option error
}.

Section Program.
Context {Registerer schema_GroupVersion : Type}.

(** What the program does besides returning: the lines it logs and the
    registration functions it calls, in order. *)
Inductive Event : Type :=
  | Info (msg : string)            (* glog.Info, glog.Infof *)
  | Error (msg : string)           (* glog.Error *)
  | HandleError (msg : string)     (* utilruntime.HandleError *)
  | Call (f : RegisterFunc) (registry : Registerer)
         (kubeClient : option Client) (namespace : string).

Definition emit (e : Event) : Exec (list Event) unit :=
  fun events => (Ok tt, events ++ [e]).

(** [schema.ParseGroupVersion] and [GroupVersion.WithResource], of the
    apimachinery library. *)
Variable ParseGroupVersion : string -> schema_GroupVersion + error.
Variable WithResource : schema_GroupVersion -> string -> GroupVersionResource.

(** The order in which a [range] over a [collectorSet] visits its keys; the
    language leaves it open. *)
Variable range_keys : collectorSet -> list string.

Variable collectors : Resources.

Definition asSlice (c : collectorSet) : list string :=
  fold_left (fun cols col => cols ++ [col]) (range_keys c) [].

(** [collectorSet.String]; [String] is the constructor of strings, hence
    the underscore. *)
Definition String_ (c : collectorSet) : string :=
  strings_Join (asSlice c) ",".

Definition isEmpty (c : collectorSet) : bool :=
  bool_decide (length (asSlice c) = 0).

(** [m[k]] in its two-valued form, on a map that may be nil. *)
Definition index2 (m : option (gmap GroupVersionResource bool))
    (k : GroupVersionResource) : bool * bool :=
  match m with
  | Some m' => match m' !! k with
               | Some v => (v, true)
               | None => (false, false)
               end
  | None => (false, false)
  end.

(** The loop of [getSupportedResources] over the resource lists; a group
    version that does not parse ends the function with its error. *)
Fixpoint collectResources (resourceMap : list (option APIResourceList))
    (allResources : gmap GroupVersionResource bool)
    : Exec (list Event) (option (gmap GroupVersionResource bool) * option error) :=
  match resourceMap with
  | [] => mret (Some allResources, None)
  | apiResourceList :: rest =>
      l ← deref apiResourceList;
      match ParseGroupVersion (GroupVersion l) with
      | inr err => mret (None, Some err)
      | inl version =>
          collectResources rest
            (fold_left (fun allResources apiResource =>
                 <[WithResource version (Name apiResource) := true]> allResources)
               (APIResources l) allResources)
      end
  end.

(** [getSupportedResources]: the pair returned is a map, possibly nil, and
    an error, possibly nil. *)
Definition getSupportedResources (kubeClient : option Client)
    : Exec (list Event) (option (gmap GroupVersionResource bool) * option error) :=
  client ← deref kubeClient;
  let '(resourceMap, err) := ServerResources client in
  _ ← (if err is Some e
       then emit (HandleError
              ("unable to get all supported resources from server: " +:+ e))
       else mret tt);
  if decide (length resourceMap = 0)
  then mret (None, Some "unable to get any supported resources from server")
  else collectResources resourceMap ∅.

Definition registerCollectors (registry : Registerer)
    (kubeClient : option Client) (enabledCollectors : collectorSet)
    (namespace : string) : Exec (list Event) unit :=
  '(resourceMap, err) ← getSupportedResources kubeClient;
  _ ← (if err is Some e then emit (Error e) else mret tt);
  activeCollectors ← for_range (fun _ c activeCollectors =>
      _ ← emit (Info ("enabledCollectors is " +:+ c));
      let f := availableCollectorFuncs !! c in
      if defaultCollectors collectors !! c is Some gvr then
        let '(result, sure) := index2 resourceMap gvr in
        if negb result || negb sure then mret activeCollectors
        else
          match f with
          | Some f' =>
              if result then
                _ ← emit (Call f' registry kubeClient namespace);
                mret (activeCollectors ++ [c])
              else mret activeCollectors
          | None => mret activeCollectors
          end
      else mret activeCollectors)
    0 (range_keys enabledCollectors) [];
  emit (Info ("Active collectors: " +:+ strings_Join activeCollectors ",")).

End Program.

End Main.

(** ** Example inputs *)

(** A string without a space. *)
Fixpoint no_space (s : string) : bool :=
  match s with
  | EmptyString => true
  | String ch s' => negb (Ascii.eqb ch (ascii_of_nat 32)) && no_space s'
  end.

Module Examples.

(** The policy that allows the given names, denies none and admits no
    other name. *)
Definition allowOnly (names : list string) : whiteBlackLister :=
  Policy.lister {| Policy.allow := names; Policy.deny := [];
                   Policy.admitOthers := false |}.

Definition pdb : Store.PodDisruptionBudget :=
  {| Store.Meta :=
       {| Store.Name := "web"; Store.Namespace := "prod";
          Store.CreationTimestamp := Some 1500000000%Z;
          Store.Annotations := ∅; Store.Labels := ∅ |};
     Store.Status :=
       {| Store.ObservedGeneration := 1; Store.DisruptionsAllowed := 1;
          Store.CurrentHealthy := 3; Store.DesiredHealthy := 2;
          Store.ExpectedPods := 3 |} |}.

(** The eight PodDisruptionBudget families, with label conversion switched
    off (no annotation or label is allowed through). *)
Definition pdbFamilies
    : list (FamilyGenerator result Store.object (option Family)) :=
  Store.podDisruptionBudgetMetricFamilies (fun _ _ _ => ([], []))
    Store.descPodDisruptionBudgetAnnotationsHelp [] [].

(** A generator whose inner function hands back a nil family. *)
Definition broken : FamilyGenerator result Store.object (option Family) :=
  NewFamilyGenerator "kube_poddisruptionbudget_broken" "Always nil" Gauge ""
    (Store.wrapPodDisruptionBudgetFunc (fun _ => mret None)).

(** The current-healthy and desired-healthy families with [broken] between. *)
Definition mixedFamilies
    : list (FamilyGenerator result Store.object (option Family)) :=
  match pdbFamilies with
  | _ :: current :: desired :: _ => [current; broken; desired]
  | _ => []
  end.

(** The same eight families, run with a call counter as ambient state
    (which they never touch). *)
Definition pdbFamiliesCounted
    : list (FamilyGenerator (Exec nat) Store.object (option Family)) :=
  Store.podDisruptionBudgetMetricFamilies (fun _ _ _ => ([], []))
    Store.descPodDisruptionBudgetAnnotationsHelp [] [].

(** The same family under another metric type. *)
Definition retyped (t : MetricType)
    (f : FamilyGenerator result Store.object (option Family))
    : FamilyGenerator result Store.object (option Family) :=
  NewFamilyGenerator (Name f) (Help f) t (DeprecatedVersion f) (GenerateFunc f).

(** Generator tables and list/watch constructors to run the Builder on:
    a client is its server address, a list/watch its namespace. *)
Definition externals
    : @Externals result Store.object (option Family) string string :=
  {| daemonSetMetricFamilies := mixedFamilies;
     podMetricFamilies := pdbFamilies;
     serviceMetricFamilies := [];
     createDaemonSetListWatch := fun _ ns => ns;
     createPodListWatch := fun _ ns => ns;
     createServiceListWatch := fun _ ns => ns;
     growslice := fun oldcap _ => 2 * oldcap |}.

(** A caller's slice of three names, in a backing array of four. *)
Definition callerHeap : heap := [["pods"; "nosuchkind"; "daemonsets"; ""]].
Definition callerSlice : slice := Slice 0 0 3 4.

Definition newBuilder : @Builder string unit unit :=
  WithNamespaces ["prod"] (NewBuilder tt tt).

Definition createdOnly : whiteBlackLister :=
  allowOnly ["kube_poddisruptionbudget_created"].

(** A policy with the creation family on both lists and the status families
    on the deny list alone, which admits what is on neither list. *)
Definition createdOnBothLists : Policy.AllowDeny :=
  {| Policy.allow := ["kube_poddisruptionbudget_created"];
     Policy.deny := ["kube_poddisruptionbudget_created";
                     "kube_poddisruptionbudget_status_current_healthy"];
     Policy.admitOthers := true |}.

(** The store and the Builder after the policy and the caller's names are
    set. *)
Definition configured : heap * @Builder string unit unit :=
  WithEnabledCollectors externals callerSlice
    (callerHeap, WithWhiteBlackList (Some createdOnly) newBuilder).

(** A group version is a group and a version; the group is empty when the
    string has no slash, and a string with a space does not parse. *)
Definition parseGroupVersion (gv : string) : (string * string) + Main.error :=
  match strings_Split gv (ascii_of_nat 47) with
  | [version] =>
      if no_space version then inl ("", version)
      else inr ("unexpected GroupVersion string: " +:+ gv)
  | [group; version] => inl (group, version)
  | _ => inr ("unexpected GroupVersion string: " +:+ gv)
  end.

Definition withResource (gv : string * string) (resource : string)
    : Main.GroupVersionResource :=
  {| Main.Group := gv.1; Main.Version := gv.2; Main.Resource := resource |}.

Definition resources : Main.Resources :=
  {| Main.DaemonSetGroupVersionResource := withResource ("extensions", "v1beta1") "daemonsets";
     Main.DeploymentGroupVersionResource := withResource ("extensions", "v1beta1") "deployments";
     Main.LimitRangeGroupVersionResource := withResource ("", "v1") "limitranges";
     Main.NodeGroupVersionResource := withResource ("", "v1") "nodes";
     Main.PodGroupVersionResource := withResource ("", "v1") "pods";
     Main.ReplicaSetGroupVersionResource := withResource ("extensions", "v1beta1") "replicasets";
     Main.ReplicationControllerGroupVersionResource :=
       withResource ("", "v1") "replicationcontrollers";
     Main.ResourceQuotaGroupVersionResource := withResource ("", "v1") "resourcequotas";
     Main.ServiceGroupVersionResource := withResource ("", "v1") "services";
     Main.JobGroupVersionResource := withResource ("batch", "v1") "jobs";
     Main.CronJobGroupVersionResource := withResource ("batch", "v1beta1") "cronjobs";
     Main.StatefulSetGroupVersionResource := withResource ("apps", "v1beta1") "statefulsets";
     Main.PersistentVolumeClaimGroupVersionResource :=
       withResource ("", "v1") "persistentvolumeclaims";
     Main.NamespaceGroupVersionResource := withResource ("", "v1") "namespaces" |}.

(** A server that serves pods and services of the core group and jobs of
    the batch group, and reports an error besides. *)
Definition client : Main.Client :=
  {| Main.ServerResources :=
       ([ Some {| Main.GroupVersion := "v1";
                  Main.APIResources := [ {| Main.Name := "pods" |};
                                         {| Main.Name := "services" |} ] |};
          Some {| Main.GroupVersion := "batch/v1";
                  Main.APIResources := [ {| Main.Name := "jobs" |} ] |} ],
        Some "metrics.k8s.io/v1beta1: the server is currently unable to handle the request") |}.

(** A server whose second list has a group version that does not parse. *)
Definition badClient : Main.Client :=
  {| Main.ServerResources :=
       ([ Some {| Main.GroupVersion := "v1";
                  Main.APIResources := [ {| Main.Name := "pods" |} ] |};
          Some {| Main.GroupVersion := "v 1";
                  Main.APIResources := [ {| Main.Name := "services" |} ] |} ],
        None) |}.

(** The collectors enabled by the flag value pods,daemonsets,jobs. *)
Definition enabled : Main.collectorSet :=
  list_to_map [ ("pods", Main.Build_GroupVersionResource "" "" "");
                ("daemonsets", Main.Build_GroupVersionResource "" "" "");
                ("jobs", Main.Build_GroupVersionResource "" "" "") ].

(** One order in which the keys of a set may be visited. *)
Definition sortedKeys (c : Main.collectorSet) : list string :=
  sorted_strings (elements (dom c)).

End Examples.

(** ** Vocabulary of the statements *)

(** A collector name with a constructor in [availableCollectors]. *)
Definition known `{!MRet M, !MBind M, !MPanic M}
    {Obj Fam clientset context Options ListWatch : Type}
    (ext : @Externals M Obj Fam clientset ListWatch) (c : string) : bool :=
  bool_decide (is_Some
    (availableCollectors (context := context) (Options := Options) ext !! c)).

(** The header entry of a family, and the families a policy includes. *)
Definition header_of {M : Type -> Type} {Obj Fam : Type}
    (f : FamilyGenerator M Obj Fam) : string :=
  Name f +:+ " " +:+ Help f.

Definition included {M : Type -> Type} {Obj Fam : Type}
    (l : whiteBlackLister) (families : list (FamilyGenerator M Obj Fam))
    : list (FamilyGenerator M Obj Fam) :=
  List.filter (fun f => IsIncluded l (Name f)) families.

(** A metric with as many label keys as label values. *)
Definition same_length (m : Metric) : Prop :=
  length (LabelKeys m) = length (LabelValues m).

(** A metric after the labels of the object [p] are put in front. *)
Definition labelled (p : Store.PodDisruptionBudget) (m : Metric) : Metric :=
  {| LabelKeys := ["namespace"; "poddisruptionbudget"] ++ LabelKeys m;
     LabelValues := [Store.Namespace (Store.Meta p); Store.Name (Store.Meta p)]
                      ++ LabelValues m;
     Value := Value m |}.

(** Go's order on strings. *)
Definition string_le (s t : string) : Prop := String.leb s t = true.

(** Successive calls of a function in one world, by a caller that goes on
    after a panic: the outcomes in order and the world that is left. *)
Fixpoint calls {World A B : Type} (render : A -> Exec World B)
    (objs : list A) (w : World) : list (result B) * World :=
  match objs with
  | [] => ([], w)
  | obj :: objs' =>
      let '(r, w1) := render obj w in
      let '(rs, w2) := calls render objs' w1 in
      (r :: rs, w2)
  end.

(** The block list that the holder of a call's outcome reads in the world
    [w]. *)
Definition blocks_in {W Obj Fam : Type} (w : @Mem.World W Obj Fam)
    (o : result slice) : result (list (option Fam)) :=
  match o with
  | Ok r => Ok (Mem.elems (Mem.blockArrays w) r)
  | Panic p => Panic p
  end.

(** A generator that is pure and deterministic: its outcome on an object is
    the value [pure f obj], whatever the ambient state, which it leaves as
    it is. *)
Definition pure_as {W Obj Fam : Type}
    (pure : FamilyGenerator (Exec W) Obj Fam -> Obj -> result Fam)
    (f : FamilyGenerator (Exec W) Obj Fam) : Prop :=
  forall obj a, GenerateFunc f obj a = (pure f obj, a).

(** The generator with that function as its render function. *)
Definition purified {W Obj Fam : Type}
    (pure : FamilyGenerator (Exec W) Obj Fam -> Obj -> result Fam)
    (f : FamilyGenerator (Exec W) Obj Fam) : FamilyGenerator result Obj Fam :=
  NewFamilyGenerator (Name f) (Help f) (Type_ f) (DeprecatedVersion f) (pure f).

(** The generator table that the constructor registered under a name
    filters, and the reflectors it starts for its collector: one per
    namespace of the Builder, of the expected type of the kind. *)
Definition table_of `{!MRet M, !MBind M, !MPanic M}
    {Obj Fam clientset ListWatch : Type}
    (ext : @Externals M Obj Fam clientset ListWatch) (c : string)
    : list (FamilyGenerator M Obj Fam) :=
  if decide (c = "daemonsets") then daemonSetMetricFamilies ext
  else if decide (c = "pods") then podMetricFamilies ext
  else serviceMetricFamilies ext.

Definition reflectors_of `{!MRet M, !MBind M, !MPanic M}
    {Obj Fam clientset context Options ListWatch : Type}
    (ext : @Externals M Obj Fam clientset ListWatch)
    (b : @Builder clientset context Options) (c : string)
    (collector : @Collector M Obj Fam)
    : list (@Reflector M Obj Fam context ListWatch) :=
  let '(expected, listWatchFunc) :=
    if decide (c = "daemonsets") then (DaemonSet, createDaemonSetListWatch ext)
    else if decide (c = "pods") then (Pod, createPodListWatch ext)
    else (Service, createServiceListWatch ext) in
  map (fun ns => NewReflector (listWatchFunc (kubeClient b) ns) expected
                   (Store collector) 0 (ctx b))
      (namespaces b).

(** The collector that a constructor returns under the policy [l]. *)
Definition collector_of `{!MRet M, !MBind M, !MPanic M}
    {Obj Fam clientset ListWatch : Type}
    (ext : @Externals M Obj Fam clientset ListWatch)
    (l : whiteBlackLister) (c : string) : @Collector M Obj Fam :=
  NewCollector
    (NewMetricsStore (map header_of (included l (table_of ext c)))
       (composeMetricGenFuncs (included l (table_of ext c)))).

(** A family of one metric with the labels of the object [p] in front, and
    the family without a metric. *)
Definition gauge (p : Store.PodDisruptionBudget) (keys values : list string)
    (v : Z) : Family :=
  {| Metrics := [Some 0];
     objects := [labelled p {| LabelKeys := keys; LabelValues := values;
                               Value := v |}] |}.

Definition no_metric : Family := {| Metrics := []; objects := [] |}.

(** A name without a comma. *)
Fixpoint no_comma (s : string) : bool :=
  match s with
  | EmptyString => true
  | String ch s' => negb (Ascii.eqb ch (ascii_of_nat 44)) && no_comma s'
  end.

(** A resource that the server of [client] serves: it is listed, by name,
    in one of the server's resource lists, under the parsed group version
    of that list. *)
Definition served {schema_GroupVersion : Type}
    (ParseGroupVersion : string -> schema_GroupVersion + Main.error)
    (WithResource : schema_GroupVersion -> string -> Main.GroupVersionResource)
    (client : Main.Client) (k : Main.GroupVersionResource) : Prop :=
  exists l version r,
    In (Some l) (Main.ServerResources client).1
    /\ ParseGroupVersion (Main.GroupVersion l) = inl version
    /\ In r (Main.APIResources l)
    /\ k = WithResource version (Main.Name r).

(** A resource list that is there and whose group version parses. *)
Definition parses {schema_GroupVersion : Type}
    (ParseGroupVersion : string -> schema_GroupVersion + Main.error)
    (l : option Main.APIResourceList) : Prop :=
  exists l' version,
    l = Some l' /\ ParseGroupVersion (Main.GroupVersion l') = inl version.

(** What [utilruntime.HandleError] is called with for a discovery error. *)
Definition handled {Registerer : Type} (client : Main.Client)
    : list (@Main.Event Registerer) :=
  match (Main.ServerResources client).2 with
  | Some e => [Main.HandleError
                 ("unable to get all supported resources from server: " +:+ e)]
  | None => []
  end.

(** * Properties *)

(** ** Loops in the panic monad *)

Section ConstructionLoops.
Context {M : Type -> Type} {Obj Fam : Type}.
Local Abbreviation FamilyGenerator := (Metrics.FamilyGenerator M Obj Fam).

Lemma filter_loop (l : whiteBlackLister) (families acc : list FamilyGenerator) i :
  for_range (fun _ f filtered =>
      l' ← deref (Some l);
      if IsIncluded l' (Name f) then mret (filtered ++ [f])
      else mret filtered) i families acc
  = Ok (acc ++ List.filter (fun f => IsIncluded l (Name f)) families).
Proof.
  revert acc i. induction families as [|f fs IH]; intros acc i; simpl.
  - by rewrite app_nil_r.
  - destruct (IsIncluded l (Name f)); simpl; rewrite IH; [|done].
    by rewrite <- app_assoc.
Qed.

Lemma filterMetricFamilies_eq (l : whiteBlackLister) (families : list FamilyGenerator) :
  filterMetricFamilies (Some l) families
  = Ok (List.filter (fun f => IsIncluded l (Name f)) families).
Proof. unfold filterMetricFamilies. by rewrite filter_loop. Qed.

Lemma filterMetricFamilies_nil_lister (families : list FamilyGenerator) :
  filterMetricFamilies None families
  = match families with [] => Ok [] | _ => Panic NilDereference end.
Proof. by destruct families. Qed.

Lemma assign_next {A} (prev : list A) (x y : A) (rest : list A) :
  assign (M := result) (prev ++ x :: rest) (length prev) y
  = Ok ((prev ++ [y]) ++ rest).
Proof.
  unfold assign. rewrite decide_True.
  - f_equal. rewrite <- app_assoc. simpl.
    replace (length prev) with (length prev + 0) by lia.
    by rewrite insert_app_r.
  - rewrite length_app. simpl. lia.
Qed.

Lemma help_loop (families : list FamilyGenerator) (prev : list string) :
  for_range (fun i f help => assign help i (Name f +:+ " " +:+ Help f))
    (length prev) families (prev ++ replicate (length families) "")
  = Ok (prev ++ map (fun f => Name f +:+ " " +:+ Help f) families).
Proof.
  revert prev. induction families as [|f fs IH]; intros prev; simpl.
  - done.
  - rewrite assign_next. simpl.
    specialize (IH (prev ++ [Name f +:+ " " +:+ Help f])).
    rewrite length_app in IH. simpl in IH.
    replace (length prev + 1) with (S (length prev)) in IH by lia.
    rewrite IH. by rewrite <- app_assoc.
Qed.

Lemma extractHelpText_eq (families : list FamilyGenerator) :
  extractHelpText families
  = Ok (map (fun f => Name f +:+ " " +:+ Help f) families).
Proof. apply (help_loop families []). Qed.

Lemma funcs_eq (families : list FamilyGenerator) acc :
  fold_left (fun funcs f => funcs ++ [GenerateFunc f]) families acc
  = acc ++ map GenerateFunc families.
Proof.
  revert acc. induction families as [|f fs IH]; intros acc; simpl.
  - by rewrite app_nil_r.
  - rewrite IH. by rewrite <- app_assoc.
Qed.

End ConstructionLoops.

Section ResultLoops.
Context {Obj Fam : Type}.

(** One turn of the loop of the composed function. *)
Lemma compose_step (obj : Obj) (f : Obj -> result Fam) funcs
    (prev : list (option Fam)) :
  for_range (fun i f families => block ← f obj; assign families i (Some block))
    (length prev) (f :: funcs) (prev ++ replicate (length (f :: funcs)) None)
  = match f obj with
    | Ok block =>
        for_range (fun i f families => block ← f obj; assign families i (Some block))
          (length (prev ++ [Some block])) funcs
          ((prev ++ [Some block]) ++ replicate (length funcs) None)
    | Panic p => Panic p
    end.
Proof.
  simpl. destruct (f obj) as [block|p]; simpl; [|done].
  rewrite assign_next. simpl. rewrite length_app. simpl.
  by replace (length prev + 1) with (S (length prev)) by lia.
Qed.

Lemma compose_loop_ok (obj : Obj) funcs (blocks prev : list (option Fam)) :
  Forall2 (fun f b => exists block, f obj = Ok block /\ b = Some block) funcs blocks ->
  for_range (fun i f families => block ← f obj; assign families i (Some block))
    (length prev) funcs (prev ++ replicate (length funcs) None)
  = Ok (prev ++ blocks).
Proof.
  intros H. revert prev. induction H as [|f b funcs blocks (block & Hf & ->) _ IH];
    intros prev.
  - simpl. reflexivity.
  - rewrite compose_step, Hf, IH. by rewrite <- app_assoc.
Qed.

Lemma compose_loop_panic (obj : Obj) pre f post p (prev : list (option Fam)) :
  Forall (fun g => exists block, g obj = Ok block) pre ->
  f obj = Panic p ->
  for_range (fun i f families => block ← f obj; assign families i (Some block))
    (length prev) (pre ++ f :: post)
    (prev ++ replicate (length (pre ++ f :: post)) None)
  = Panic p.
Proof.
  intros Hpre Hf. revert prev.
  induction Hpre as [|g pre (block & Hg) _ IH]; intros prev.
  - simpl app. by rewrite compose_step, Hf.
  - change ((g :: pre) ++ f :: post) with (g :: (pre ++ f :: post)).
    rewrite compose_step, Hg. apply IH.
Qed.
End ResultLoops.

Section Alignment.
Context {Obj Fam : Type}.

Lemma compose_loop_inv (obj : Obj) (funcs : list (Obj -> result Fam)) :
  forall (prev blocks : list (option Fam)),
    for_range (fun i f families => block ← f obj; assign families i (Some block))
      (length prev) funcs (prev ++ replicate (length funcs) None)
    = Ok blocks ->
    exists rest,
      blocks = prev ++ rest
      /\ Forall2 (fun f b => exists block, f obj = Ok block /\ b = Some block)
           funcs rest.
Proof.
  induction funcs as [|f funcs IH]; intros prev blocks.
  - simpl. intros [= <-]. exists []. split; [done|constructor].
  - rewrite compose_step. destruct (f obj) as [block|p] eqn:Hf; [|done].
    intros Hrun. destruct (IH _ _ Hrun) as (rest & -> & HF).
    exists (Some block :: rest). split; [by rewrite <- app_assoc|].
    constructor; eauto.
Qed.

Lemma composeMetricGenFuncs_inv (families : list (FamilyGenerator result Obj Fam))
    (obj : Obj) (blocks : list (option Fam)) :
  composeMetricGenFuncs families obj = Ok blocks ->
  Forall2 (fun f b => exists block, GenerateFunc f obj = Ok block /\ b = Some block)
    families blocks.
Proof.
  unfold composeMetricGenFuncs. rewrite (funcs_eq families []). simpl.
  intros Hrun.
  destruct (compose_loop_inv obj (map GenerateFunc families) [] blocks Hrun)
    as (rest & -> & HF).
  simpl. by apply Forall2_fmap_l in HF.
Qed.
End Alignment.

Lemma Forall2_In_l {A B} (P : A -> B -> Prop) (l : list A) (k : list B) :
  Forall2 P l k -> Forall2 (fun a b => In a l /\ P a b) l k.
Proof.
  induction 1 as [|a b l k HP _ IH]; constructor.
  - split; [by left|done].
  - eapply Forall2_impl; [exact IH|]. intros ? ? [? ?]. split; [by right|done].
Qed.

(** ** Filtering by the allow/deny policy *)

(** What [filterMetricFamilies] computes for a lister of any kind: it keeps
    exactly the families whose name [IsIncluded] accepts, in their order; a
    family is absent from the filtered list precisely when [IsIncluded]
    rejects its name; and [IsExcluded] is never asked, so that two listers
    with the same [IsIncluded] filter alike. *)
Lemma filterMetricFamilies_keeps_included
    {M : Type -> Type} {Obj Fam : Type}
    (l : whiteBlackLister) (families : list (FamilyGenerator M Obj Fam)) :
  filterMetricFamilies (Some l) families
    = Ok (List.filter (fun f => IsIncluded l (Name f)) families)
  /\ (forall f, In f (List.filter (fun f => IsIncluded l (Name f)) families)
                <-> In f families /\ IsIncluded l (Name f) = true)
  /\ (forall l' : whiteBlackLister,
        (forall name, IsIncluded l' name = IsIncluded l name) ->
        filterMetricFamilies (Some l') families
          = filterMetricFamilies (Some l) families).
Proof.
  split; [apply filterMetricFamilies_eq|]. split.
  - intros f. apply filter_In.
  - intros l' Hsame. rewrite !filterMetricFamilies_eq. f_equal.
    apply List.filter_ext. intros f. apply Hsame.
Qed.

(** The answers of a policy: a name on the deny list is excluded and is
    not included; a name off the deny list and on the allow list is
    included. *)
Lemma lister_answers (p : Policy.AllowDeny) (name : string) :
  (IsExcluded (Policy.lister p) name = true <-> In name (Policy.deny p))
  /\ (In name (Policy.deny p) -> IsIncluded (Policy.lister p) name = false)
  /\ (~ In name (Policy.deny p) -> In name (Policy.allow p) ->
      IsIncluded (Policy.lister p) name = true).
Proof.
  simpl. split; [|split].
  - rewrite bool_decide_eq_true. apply list_elem_of_In.
  - intros Hd. rewrite bool_decide_true; [done|by apply list_elem_of_In].
  - intros Hd Ha. rewrite bool_decide_false by (by rewrite list_elem_of_In).
    rewrite bool_decide_true; [done|by apply list_elem_of_In].
Qed.

(** Whatever the lister, when exclusion wins in its answers no family with
    an excluded name passes the filter. *)
Lemma filterMetricFamilies_respects_exclusion {M : Type -> Type} {Obj Fam : Type}
    (l : whiteBlackLister) (families : list (FamilyGenerator M Obj Fam)) :
  (forall name, IsExcluded l name = true -> IsIncluded l name = false) ->
  filterMetricFamilies (Some l) families = Ok (included l families)
  /\ forall f, In f (included l families) -> IsExcluded l (Name f) = false.
Proof.
  intros Hwins. split; [apply filterMetricFamilies_eq|].
  intros f Hf. apply filter_In in Hf as [_ Hinc].
  destruct (IsExcluded l (Name f)) eqn:Hex; [|done].
  apply Hwins in Hex. congruence.
Qed.

(** C1: for every allow/deny policy and every list of generators, a family
    whose name is on the deny list is absent from the filtered list that is
    passed to composition, whether or not the allow list holds the name
    too; the families off the deny list and on the allow list are all
    there; and every header and every block of the composed output comes
    from a family of the filtered list, hence from one off the deny
    list. *)
Theorem filterMetricFamilies_exclusion_wins {Obj Fam : Type}
    (p : Policy.AllowDeny) (families : list (FamilyGenerator result Obj Fam)) :
  exists filtered,
    filterMetricFamilies (Some (Policy.lister p)) families = Ok filtered
    /\ (forall f, In f families -> In (Name f) (Policy.deny p) ->
          ~ In f filtered)
    /\ (forall f, In f filtered ->
          In f families /\ ~ In (Name f) (Policy.deny p))
    /\ (forall f, In f families -> ~ In (Name f) (Policy.deny p) ->
          In (Name f) (Policy.allow p) -> In f filtered)
    /\ (exists headers,
          extractHelpText filtered = Ok headers
          /\ Forall2 (fun f header =>
                        ~ In (Name f) (Policy.deny p)
                        /\ header = Name f +:+ " " +:+ Help f)
               filtered headers)
    /\ (forall obj blocks,
          composeMetricGenFuncs filtered obj = Ok blocks ->
          Forall2 (fun f b =>
                     ~ In (Name f) (Policy.deny p)
                     /\ exists block, GenerateFunc f obj = Ok block
                                      /\ b = Some block)
            filtered blocks).
Proof.
  destruct (filterMetricFamilies_respects_exclusion (Policy.lister p) families)
    as [Hrun Hout].
  { intros name Hex. destruct (lister_answers p name) as (Hiff & Hden & _).
    apply Hden. by apply Hiff. }
  assert (forall f, In f (included (Policy.lister p) families) ->
                    ~ In (Name f) (Policy.deny p)) as Hoff.
  { intros f Hf Hd. destruct (lister_answers p (Name f)) as (Hiff & _).
    apply Hiff in Hd. rewrite (Hout f Hf) in Hd. done. }
  exists (included (Policy.lister p) families).
  split; [exact Hrun|]. split; [|split; [|split; [|split]]].
  - intros f _ Hd Hf. by apply (Hoff f).
  - intros f Hf. split; [|by apply Hoff]. by apply filter_In in Hf as [Hf _].
  - intros f Hf Hd Ha. apply filter_In. split; [done|].
    destruct (lister_answers p (Name f)) as (_ & _ & Hal). by apply Hal.
  - eexists. split; [apply extractHelpText_eq|].
    apply Forall2_fmap_r, Forall_Forall2_diag, List.Forall_forall.
    intros f Hf. split; [by apply Hoff|done].
  - intros obj blocks Hblocks.
    apply composeMetricGenFuncs_inv, Forall2_In_l in Hblocks.
    eapply Forall2_impl; [exact Hblocks|].
    intros f b [Hf Hb]. split; [by apply Hoff|done].
Qed.

(** The policy of the examples with the creation family on both lists: the
    filtered list holds the six families that are on neither list, and the
    composed function renders six blocks. *)
Lemma family_on_both_lists_is_dropped :
  In "kube_poddisruptionbudget_created" (Policy.allow Examples.createdOnBothLists)
  /\ In "kube_poddisruptionbudget_created" (Policy.deny Examples.createdOnBothLists)
  /\ exists filtered blocks,
       filterMetricFamilies (Some (Policy.lister Examples.createdOnBothLists))
         Examples.pdbFamilies = Ok filtered
       /\ map Name filtered
          = [ "kube_poddisruptionbudget_status_desired_healthy";
              "kube_poddisruptionbudget_status_pod_disruptions_allowed";
              "kube_poddisruptionbudget_status_expected_pods";
              "kube_poddisruptionbudget_status_observed_generation";
              "kube_poddisruptionbudget_annotations";
              "kube_poddisruptionbudget_labels" ]
       /\ composeMetricGenFuncs filtered
            (Store.ObjPodDisruptionBudget (Some Examples.pdb)) = Ok blocks
       /\ length blocks = 6.
Proof.
  split; [by left|]. split; [by left|].
  eexists. eexists. split; [reflexivity|]. split; [reflexivity|].
  split; reflexivity.
Qed.

(** ** The composed render function *)

(** C5, as the code has it: for an object on which each of the [n]
    generators returns a block, the composed function returns [n] blocks,
    the [i]-th being the block of the [i]-th generator of the list. *)
Theorem composeMetricGenFuncs_blocks {Obj Fam : Type}
    (families : list (FamilyGenerator result Obj Fam)) (obj : Obj) :
  (forall f, In f families -> exists block, GenerateFunc f obj = Ok block) ->
  exists blocks,
    composeMetricGenFuncs families obj = Ok blocks
    /\ length blocks = length families
    /\ forall i f, families !! i = Some f ->
         exists block, GenerateFunc f obj = Ok block
                       /\ blocks !! i = Some (Some block).
Proof.
  intros Hall.
  assert (Forall2 (fun f b => exists block, GenerateFunc f obj = Ok block /\ b = Some block)
            families
            (map (fun f => match GenerateFunc f obj with
                           | Ok block => Some block
                           | Panic _ => None
                           end) families)) as HF.
  { induction families as [|f fs IH]; simpl; constructor.
    - destruct (Hall f) as [block Hb]; [by left|]. exists block. by rewrite Hb.
    - apply IH. intros g Hg. apply Hall. by right. }
  eexists. split; [|split].
  - unfold composeMetricGenFuncs. rewrite (funcs_eq families []). simpl.
    eapply (compose_loop_ok obj (map GenerateFunc families) _ []).
    apply Forall2_fmap_l. apply HF.
  - simpl. by rewrite length_map.
  - intros i f Hi. simpl.
    destruct (Forall2_lookup_l _ _ _ _ _ HF Hi) as (b & Hb & block & Hblock & ->).
    eauto.
Qed.

Lemma composeMetricGenFuncs_blocks_witness :
  exists blocks,
    composeMetricGenFuncs Examples.pdbFamilies
      (Store.ObjPodDisruptionBudget (Some Examples.pdb)) = Ok blocks
    /\ length blocks = 8
    /\ forall i f, Examples.pdbFamilies !! i = Some f ->
         exists block,
           GenerateFunc f (Store.ObjPodDisruptionBudget (Some Examples.pdb)) = Ok block
           /\ blocks !! i = Some (Some block).
Proof.
  apply (composeMetricGenFuncs_blocks Examples.pdbFamilies).
  intros f Hf. simpl in Hf.
  repeat (destruct Hf as [<-|Hf]; [eexists; reflexivity|]).
  destruct Hf.
Defined.

(** C5, as the spec states it, fails: it depends on the object whether
    blocks are returned.  The first three PodDisruptionBudget generators
    return three blocks on a PodDisruptionBudget, and none on an object of
    another type (the type assertion panics) or on a nil pointer. *)
Lemma blocks_depend_on_the_object :
  length (take 3 Examples.pdbFamilies) = 3
  /\ (exists blocks,
        composeMetricGenFuncs (take 3 Examples.pdbFamilies)
          (Store.ObjPodDisruptionBudget (Some Examples.pdb)) = Ok blocks
        /\ length blocks = 3)
  /\ composeMetricGenFuncs (take 3 Examples.pdbFamilies)
        (Store.ObjOther "*v1.Pod") = Panic InterfaceConversion
  /\ composeMetricGenFuncs (take 3 Examples.pdbFamilies)
        (Store.ObjPodDisruptionBudget None) = Panic NilDereference
  /\ ~ (exists blocks,
          composeMetricGenFuncs (take 3 Examples.pdbFamilies)
            (Store.ObjOther "*v1.Pod") = Ok blocks).
Proof.
  split; [reflexivity|]. split; [eexists; split; reflexivity|].
  split; [reflexivity|]. split; [reflexivity|].
  intros [blocks H]. discriminate H.
Qed.

(** C2, as the code has it: a panic of a generator is not caught.  When the
    generators before [f] return and [f] panics on the object, the composed
    function panics with the panic of [f]; no block list reaches the
    caller. *)
Theorem composeMetricGenFuncs_panic_propagates {Obj Fam : Type}
    (pre post : list (FamilyGenerator result Obj Fam))
    (f : FamilyGenerator result Obj Fam) (obj : Obj) (p : panic) :
  (forall g, In g pre -> exists block, GenerateFunc g obj = Ok block) ->
  GenerateFunc f obj = Panic p ->
  composeMetricGenFuncs (pre ++ f :: post) obj = Panic p.
Proof.
  intros Hpre Hf. unfold composeMetricGenFuncs.
  rewrite (funcs_eq _ []). simpl. rewrite map_app. simpl.
  apply (compose_loop_panic obj _ _ _ p []); [|done].
  apply List.Forall_forall. intros g Hg.
  apply in_map_iff in Hg as (g' & <- & Hg'). by apply Hpre.
Qed.

Lemma composeMetricGenFuncs_panic_propagates_witness :
  composeMetricGenFuncs Examples.mixedFamilies
    (Store.ObjPodDisruptionBudget (Some Examples.pdb)) = Panic NilDereference.
Proof.
  apply (composeMetricGenFuncs_panic_propagates
           (take 1 Examples.mixedFamilies) (drop 2 Examples.mixedFamilies)
           Examples.broken).
  - intros g Hg. simpl in Hg. destruct Hg as [<-|[]]. eexists. reflexivity.
  - reflexivity.
Defined.

(** C2, as the spec states it, fails: of three families the middle one
    panics on the object (its inner function returns a nil family) while
    the other two render their block; the composed function returns no
    block list at all, it panics. *)
Lemma one_failing_generator_fails_all :
  exists current desired,
    Examples.mixedFamilies = [current; Examples.broken; desired]
    /\ (exists block, GenerateFunc current
          (Store.ObjPodDisruptionBudget (Some Examples.pdb)) = Ok block)
    /\ (exists block, GenerateFunc desired
          (Store.ObjPodDisruptionBudget (Some Examples.pdb)) = Ok block)
    /\ GenerateFunc Examples.broken
          (Store.ObjPodDisruptionBudget (Some Examples.pdb)) = Panic NilDereference
    /\ composeMetricGenFuncs Examples.mixedFamilies
          (Store.ObjPodDisruptionBudget (Some Examples.pdb)) = Panic NilDereference
    /\ ~ exists blocks, composeMetricGenFuncs Examples.mixedFamilies
          (Store.ObjPodDisruptionBudget (Some Examples.pdb)) = Ok blocks.
Proof.
  eexists. eexists. split; [reflexivity|].
  split; [eexists; reflexivity|]. split; [eexists; reflexivity|].
  split; [reflexivity|]. split; [reflexivity|].
  intros [blocks H]. discriminate H.
Qed.

(** ** Construction: [extractHelpText], the constructors and [Build] *)

Section Construction.
Context {M : Type -> Type} `{!MRet M, !MBind M, !MPanic M}.
Context {Obj Fam clientset context Options ListWatch : Type}.
Variable ext : @Externals M Obj Fam clientset ListWatch.
Local Abbreviation Builder := (@Builder clientset context Options).
Local Abbreviation FamilyGenerator := (Metrics.FamilyGenerator M Obj Fam).

Local Abbreviation available :=
  (availableCollectors (context := context) (Options := Options) ext).
Local Abbreviation is_known :=
  (known (context := context) (Options := Options) ext).

Lemma buildDaemonSetCollector_ok (b : Builder) l :
  whiteBlackList b = Some l ->
  buildDaemonSetCollector ext b
  = Ok (let filtered := included l (daemonSetMetricFamilies ext) in
        let store := NewMetricsStore (map header_of filtered)
                       (composeMetricGenFuncs filtered) in
        (NewCollector store,
         reflectorPerNamespace (ctx b) (kubeClient b) DaemonSet store
           (namespaces b) (createDaemonSetListWatch ext))).
Proof.
  intros Hl. unfold buildDaemonSetCollector.
  rewrite Hl, filterMetricFamilies_eq. simpl.
  by rewrite extractHelpText_eq.
Qed.

Lemma buildServiceCollector_ok (b : Builder) l :
  whiteBlackList b = Some l ->
  buildServiceCollector ext b
  = Ok (let filtered := included l (serviceMetricFamilies ext) in
        let store := NewMetricsStore (map header_of filtered)
                       (composeMetricGenFuncs filtered) in
        (NewCollector store,
         reflectorPerNamespace (ctx b) (kubeClient b) Service store
           (namespaces b) (createServiceListWatch ext))).
Proof.
  intros Hl. unfold buildServiceCollector.
  rewrite Hl, filterMetricFamilies_eq. simpl.
  by rewrite extractHelpText_eq.
Qed.

Lemma buildPodCollector_ok (b : Builder) l :
  whiteBlackList b = Some l ->
  buildPodCollector ext b
  = Ok (let filtered := included l (podMetricFamilies ext) in
        let store := NewMetricsStore (map header_of filtered)
                       (composeMetricGenFuncs filtered) in
        (NewCollector store,
         reflectorPerNamespace (ctx b) (kubeClient b) Pod store
           (namespaces b) (createPodListWatch ext))).
Proof.
  intros Hl. unfold buildPodCollector.
  rewrite Hl, filterMetricFamilies_eq. simpl.
  by rewrite extractHelpText_eq.
Qed.

Lemma availableCollectors_lookup c ctor :
  available !! c = Some ctor ->
  (c = "daemonsets" /\ ctor = buildDaemonSetCollector ext)
  \/ (c = "pods" /\ ctor = buildPodCollector ext)
  \/ (c = "services" /\ ctor = buildServiceCollector ext).
Proof.
  unfold availableCollectors. simpl. intros H.
  apply lookup_insert_Some in H as [[<- <-]|[_ H]]; [by left|].
  apply lookup_insert_Some in H as [[<- <-]|[_ H]]; [by right; left|].
  apply lookup_insert_Some in H as [[<- <-]|[_ H]]; [by right; right|].
  by rewrite lookup_empty in H.
Qed.

(** With a policy in place every registered constructor returns. *)
Lemma constructors_return (b : Builder) l c ctor :
  whiteBlackList b = Some l ->
  available !! c = Some ctor ->
  exists collector rs, ctor b = Ok (collector, rs).
Proof.
  intros Hl H.
  destruct (availableCollectors_lookup _ _ H) as [[_ ->]|[[_ ->]|[_ ->]]].
  - rewrite (buildDaemonSetCollector_ok _ _ Hl). eauto.
  - rewrite (buildPodCollector_ok _ _ Hl). eauto.
  - rewrite (buildServiceCollector_ok _ _ Hl). eauto.
Qed.

(** The names constructed by a turn of the loop of [Build] on [c]. *)
Lemma build_loop (b : Builder) l names :
  whiteBlackList b = Some l ->
  forall i cs ns st,
  exists cs' st',
    for_range (fun _ c '(collectors, names, started) =>
        match available !! c with
        | Some constructor =>
            '(collector, rs) ← constructor b;
            mret (collectors ++ [collector], names ++ [c], started ++ rs)
        | None => mret (collectors, names, started)
        end) i names (cs, ns, st)
    = Ok (cs ++ cs', ns ++ List.filter is_known names, st ++ st')
    /\ Forall2 (fun c collector => exists ctor rs,
                  available !! c = Some ctor
                  /\ ctor b = Ok (collector, rs))
         (List.filter is_known names) cs'.
Proof.
  intros Hl. induction names as [|c names IH]; intros i cs ns st.
  - exists [], []. simpl. by rewrite !app_nil_r.
  - destruct (available !! c) as [ctor|] eqn:Hc.
    + assert (is_known c = true) as Hk.
      { unfold known. rewrite Hc. by apply bool_decide_eq_true. }
      destruct (constructors_return b l c ctor Hl Hc) as (collector & rs & Hctor).
      destruct (IH (S i) (cs ++ [collector]) (ns ++ [c]) (st ++ rs))
        as (cs' & st' & Hrun & HF).
      exists (collector :: cs'), (rs ++ st').
      simpl. rewrite Hk, Hc, Hctor. simpl. split.
      * rewrite Hrun. by rewrite <- !app_assoc.
      * constructor; eauto.
    + assert (is_known c = false) as Hk.
      { unfold known. rewrite Hc. apply bool_decide_eq_false. by intros [? ?]. }
      simpl. rewrite Hk, Hc. simpl. apply IH.
Qed.
End Construction.

Lemma known_names `{!MRet M, !MBind M, !MPanic M}
    {Obj Fam clientset context Options ListWatch : Type}
    (ext : @Externals M Obj Fam clientset ListWatch) (c : string) :
  known (context := context) (Options := Options) ext c = true
  <-> c = "daemonsets" \/ c = "pods" \/ c = "services".
Proof.
  unfold known. rewrite bool_decide_eq_true. split.
  - intros [ctor H]. apply availableCollectors_lookup in H. tauto.
  - intros [-> | [-> | ->]]; eexists; reflexivity.
Qed.

(** [Build] on a Builder that has a policy. *)
Lemma Build_with_policy `{!MRet M, !MBind M, !MPanic M}
    {Obj Fam clientset context Options ListWatch : Type}
    (ext : @Externals M Obj Fam clientset ListWatch) (h : heap)
    (b : @Builder clientset context Options) (l : whiteBlackLister) :
  whiteBlackList b = Some l ->
  exists out,
    Build ext h b = Ok out
    /\ activeCollectorNames out
       = List.filter (known (context := context) (Options := Options) ext)
           (elems h (enabledCollectors b))
    /\ Forall2 (fun c collector => exists ctor rs,
                  availableCollectors ext !! c = Some ctor
                  /\ ctor b = Ok (collector, rs))
         (activeCollectorNames out) (collectors out).
Proof.
  intros Hl. unfold Build. rewrite Hl.
  destruct (build_loop ext b l (elems h (enabledCollectors b)) Hl 0 [] [] [])
    as (cs & st & Hrun & HF).
  rewrite Hrun. simpl. eexists. split; [reflexivity|]. simpl. by split.
Qed.

(** C3: with a policy in place, [Build] returns for every list of enabled
    names; the collectors it returns are, in order, the ones constructed for
    the enabled names that have a constructor, and a name without one is
    passed over. *)
Theorem Build_skips_unknown_names `{!MRet M, !MBind M, !MPanic M}
    {Obj Fam clientset context Options ListWatch : Type}
    (ext : @Externals M Obj Fam clientset ListWatch) (h : heap)
    (b : @Builder clientset context Options) (l : whiteBlackLister) :
  whiteBlackList b = Some l ->
  exists out,
    Build ext h b = Ok out
    /\ activeCollectorNames out
       = List.filter (known (context := context) (Options := Options) ext)
           (elems h (enabledCollectors b))
    /\ length (collectors out) = length (activeCollectorNames out)
    /\ Forall2 (fun c collector => exists ctor rs,
                  availableCollectors ext !! c = Some ctor
                  /\ ctor b = Ok (collector, rs))
         (activeCollectorNames out) (collectors out).
Proof.
  intros Hl.
  destruct (Build_with_policy ext h b l Hl) as (out & Hout & Hnames & HF).
  exists out. repeat split; try done. symmetry. by eapply Forall2_length.
Qed.

Lemma Build_skips_unknown_names_witness :
  exists out,
    Build Examples.externals Examples.configured.1 Examples.configured.2 = Ok out
    /\ activeCollectorNames out = ["daemonsets"; "pods"]
    /\ length (collectors out) = 2.
Proof.
  destruct (Build_skips_unknown_names Examples.externals
              Examples.configured.1 Examples.configured.2
              Examples.createdOnly eq_refl)
    as (out & Hout & Hnames & Hlen & HF).
  exists out. split; [exact Hout|]. split.
  - rewrite Hnames. vm_compute. reflexivity.
  - rewrite Hlen, Hnames. vm_compute. reflexivity.
Defined.

(** C4: [Build] panics exactly when the Builder has no policy, and returns
    its collectors exactly when it has one, whatever the enabled names, the
    namespaces and the client are. *)
Theorem Build_panics_iff_no_policy `{!MRet M, !MBind M, !MPanic M}
    {Obj Fam clientset context Options ListWatch : Type}
    (ext : @Externals M Obj Fam clientset ListWatch) (h : heap)
    (b : @Builder clientset context Options) :
  ((exists p, Build ext h b = Panic p) <-> whiteBlackList b = None)
  /\ ((exists out, Build ext h b = Ok out) <-> whiteBlackList b <> None)
  /\ (whiteBlackList b = None <->
      Build ext h b = Panic (PanicMsg "whiteBlackList should not be nil")).
Proof.
  destruct (whiteBlackList b) as [l|] eqn:Hl.
  - destruct (Build_with_policy ext h b l Hl) as (out & Hout & _).
    rewrite Hout. repeat split; try done; try (by intros [? ?]); eauto.
  - unfold Build. rewrite Hl. simpl.
    repeat split; try done; try (by intros [? ?]); eauto.
Qed.

(** C6, as the code has it: the header list has one entry per family of the
    list, in the order of the list, and the entry of a family is its name, a
    space and its help text; it is computed from the generator list alone.
    The store of a collector is constructed with the header list of the
    filtered families. *)
Theorem extractHelpText_name_and_help `{!MRet M, !MBind M, !MPanic M}
    {Obj Fam clientset context Options ListWatch : Type}
    (families : list (FamilyGenerator M Obj Fam))
    (ext : @Externals M Obj Fam clientset ListWatch)
    (b : @Builder clientset context Options) (l : whiteBlackLister) :
  (exists help,
     extractHelpText families = Ok help
     /\ length help = length families
     /\ forall i f, families !! i = Some f ->
          help !! i = Some (Name f +:+ " " +:+ Help f))
  /\ exists collector started,
       buildDaemonSetCollector ext (WithWhiteBlackList (Some l) b)
         = Ok (collector, started)
       /\ headers (Store collector)
          = map header_of (included l (daemonSetMetricFamilies ext)).
Proof.
  split.
  - exists (map header_of families). split; [apply extractHelpText_eq|].
    split; [apply length_map|].
    intros i f Hi. change (map header_of families) with (header_of <$> families).
    by rewrite list_lookup_fmap, Hi.
  - rewrite (buildDaemonSetCollector_ok ext (WithWhiteBlackList (Some l) b) l eq_refl).
    eauto.
Qed.

(** C6, as the spec states it, fails: the created family as a gauge and as
    a counter have the same header list, so an entry does not tell the type
    of its family. *)
Lemma header_omits_type :
  exists f,
    Examples.pdbFamilies !! 0 = Some f
    /\ Type_ f = Gauge
    /\ Type_ (Examples.retyped Counter f) = Counter
    /\ extractHelpText [f]
       = Ok ["kube_poddisruptionbudget_created Unix creation timestamp"]
    /\ extractHelpText [Examples.retyped Counter f]
       = Ok ["kube_poddisruptionbudget_created Unix creation timestamp"].
Proof. eexists. split; [reflexivity|]. repeat split. Qed.

(** ** Labels added by [wrapPodDisruptionBudgetFunc] *)

Section Wrap.
Import Store.

Lemma labelled_same_length (p : PodDisruptionBudget) (m : Metric) :
  same_length m -> same_length (labelled p m).
Proof. unfold same_length. simpl. lia. Qed.

Lemma load_Some (objs : list Metric) (a : nat) (m : Metric) :
  objs !! a = Some m -> load (M := result) objs a = Ok m.
Proof. unfold load. by intros ->. Qed.

(** The loop of [wrapPodDisruptionBudgetFunc] over non-nil pointers into
    the metric objects: objects that are not pointed to stay as they are,
    an object pointed to once is labelled once, and lists of equal length
    stay of equal length. *)
Lemma wrap_loop (p : PodDisruptionBudget) (addrs : list nat) :
  forall (i : nat) (objs : list Metric),
    (forall a, a ∈ addrs -> a < length objs) ->
    exists objs',
      for_range (M := result) (fun _ m objects =>
          a ← deref m;
          m0 ← load objects a;
          let objects :=
            <[a := {| LabelKeys := descPodDisruptionBudgetLabelsDefaultLabels
                                     ++ LabelKeys m0;
                      LabelValues := LabelValues m0;
                      Value := Value m0 |}]> objects in
          p ← deref (Some p);
          m1 ← load objects a;
          mret (<[a := {| LabelKeys := LabelKeys m1;
                          LabelValues := [Namespace (Meta p); Name (Meta p)]
                                           ++ LabelValues m1;
                          Value := Value m1 |}]> objects))
        i (map Some addrs) objs
      = Ok objs'
      /\ length objs' = length objs
      /\ (forall a, a ∉ addrs -> objs' !! a = objs !! a)
      /\ (NoDup addrs -> forall a m, a ∈ addrs -> objs !! a = Some m ->
            objs' !! a = Some (labelled p m))
      /\ (Forall same_length objs -> Forall same_length objs').
Proof.
  induction addrs as [|a addrs IH]; intros i objs Hvalid.
  - exists objs. repeat split; try done. intros _ a m Ha. by apply elem_of_nil in Ha.
  - assert (a < length objs) as Ha by (apply Hvalid; by left).
    destruct (lookup_lt_is_Some_2 objs a Ha) as [m0 Hm0].
    destruct (IH (S i) (<[a := labelled p m0]> objs)) as (objs' & Hrun & Hlen & Hout & Hin & Hsame).
    { intros b Hb. rewrite length_insert. apply Hvalid. by right. }
    exists objs'. split; [|split; [|split; [|split]]].
    + simpl. rewrite (load_Some objs a m0 Hm0). simpl.
      erewrite load_Some by (by apply list_lookup_insert_eq). simpl.
      rewrite list_insert_insert_eq. exact Hrun.
    + by rewrite Hlen, length_insert.
    + intros b Hb. apply not_elem_of_cons in Hb as [Hne Hb].
      rewrite Hout by done. by rewrite list_lookup_insert_ne.
    + intros Hnodup b m Hb Hm.
      apply NoDup_cons in Hnodup as [Hfresh Hnodup].
      apply elem_of_cons in Hb as [-> | Hb].
      * rewrite Hout by done. rewrite list_lookup_insert_eq by done.
        congruence.
      * assert (a <> b) as Hne by (intros ->; done).
        apply (Hin Hnodup); [done|]. by rewrite list_lookup_insert_ne.
    + intros Hall. apply Hsame. apply Forall_insert; [done|].
      apply labelled_same_length. by eapply Forall_lookup_1.
Qed.
End Wrap.

(** C9, as the code has it.  For a PodDisruptionBudget object and an inner
    function [f] whose family points to metric objects with as many label
    keys as label values, the wrapped function returns the family of [f]
    with every metric object still of equal length; and when the family
    lists each metric object once, the label keys of each are namespace,
    poddisruptionbudget and then the keys of [f], its label values the
    namespace and name of the object and then the values of [f]. *)
Theorem wrapPodDisruptionBudgetFunc_labels
    (f : option Store.PodDisruptionBudget -> result (option Family))
    (p : Store.PodDisruptionBudget) (family : Family) (addrs : list nat) :
  f (Some p) = Ok (Some family) ->
  Metrics family = map Some addrs ->
  (forall a, a ∈ addrs -> a < length (objects family)) ->
  Forall same_length (objects family) ->
  exists objects',
    Store.wrapPodDisruptionBudgetFunc f (Store.ObjPodDisruptionBudget (Some p))
      = Ok (Some {| Metrics := Metrics family; objects := objects' |})
    /\ Forall same_length objects'
    /\ (NoDup addrs -> forall a m, a ∈ addrs -> objects family !! a = Some m ->
          exists m',
            objects' !! a = Some m'
            /\ LabelKeys m' = ["namespace"; "poddisruptionbudget"] ++ LabelKeys m
            /\ LabelValues m'
               = [Store.Namespace (Store.Meta p); Store.Name (Store.Meta p)]
                 ++ LabelValues m
            /\ Value m' = Value m
            /\ length (LabelKeys m') = length (LabelValues m')).
Proof.
  intros Hf Hms Hvalid Hsame.
  destruct (wrap_loop p addrs 0 (objects family) Hvalid)
    as (objs' & Hrun & _ & _ & Hin & Hkeep).
  exists objs'. split; [|split].
  - unfold Store.wrapPodDisruptionBudgetFunc. simpl. rewrite Hf. simpl.
    rewrite Hms. simpl in Hrun. by rewrite Hrun.
  - by apply Hkeep.
  - intros Hnodup a m Ha Hm. exists (labelled p m).
    split; [by apply (Hin Hnodup)|]. repeat split.
    apply labelled_same_length. by eapply Forall_lookup_1.
Qed.

Lemma wrapPodDisruptionBudgetFunc_labels_witness :
  exists objects',
    Store.wrapPodDisruptionBudgetFunc
      (fun _ => Ok (Some (Store.literal [
         {| LabelKeys := ["label_app"]; LabelValues := ["web"]; Value := 1 |} ])))
      (Store.ObjPodDisruptionBudget (Some Examples.pdb))
      = Ok (Some {| Metrics := [Some 0]; objects := objects' |})
    /\ Forall same_length objects'
    /\ exists m',
         objects' !! 0 = Some m'
         /\ LabelKeys m' = ["namespace"; "poddisruptionbudget"; "label_app"]
         /\ LabelValues m' = ["prod"; "web"; "web"].
Proof.
  destruct (wrapPodDisruptionBudgetFunc_labels
              (fun _ => Ok (Some (Store.literal [
                 {| LabelKeys := ["label_app"]; LabelValues := ["web"];
                    Value := 1 |} ])))
              Examples.pdb
              (Store.literal [
                 {| LabelKeys := ["label_app"]; LabelValues := ["web"];
                    Value := 1 |} ])
              [0])
    as (objects' & Hrun & Hsame & Hlabels).
  - reflexivity.
  - reflexivity.
  - intros a Ha. apply list_elem_of_In in Ha. simpl in *. lia.
  - repeat constructor.
  - exists objects'. split; [exact Hrun|]. split; [exact Hsame|].
    destruct (Hlabels ltac:(repeat constructor; by intros H%elem_of_nil) 0
                {| LabelKeys := ["label_app"]; LabelValues := ["web"]; Value := 1 |})
      as (m' & Hm' & Hk & Hv & _).
    + by left.
    + reflexivity.
    + exists m'. by repeat split.
Defined.

(** C9, as the spec states it, fails when the family of [f] holds the same
    pointer twice: the one metric object is labelled twice, so its keys are
    not namespace, poddisruptionbudget followed by the keys of [f]. *)
Lemma metric_listed_twice_is_labelled_twice :
  let m := {| LabelKeys := ["label_app"]; LabelValues := ["web"]; Value := 1 |} in
  let f := fun _ : option Store.PodDisruptionBudget =>
             Ok (Some {| Metrics := [Some 0; Some 0]; objects := [m] |}) in
  same_length m
  /\ Store.wrapPodDisruptionBudgetFunc f
       (Store.ObjPodDisruptionBudget (Some Examples.pdb))
     = Ok (Some {| Metrics := [Some 0; Some 0];
                   objects := [
                     {| LabelKeys := ["namespace"; "poddisruptionbudget";
                                      "namespace"; "poddisruptionbudget";
                                      "label_app"];
                        LabelValues := ["prod"; "web"; "prod"; "web"; "web"];
                        Value := 1 |}] |})
  /\ ["namespace"; "poddisruptionbudget"; "namespace"; "poddisruptionbudget";
      "label_app"]
     <> ["namespace"; "poddisruptionbudget"] ++ LabelKeys m.
Proof. repeat split. discriminate. Qed.

(** ** [WithEnabledCollectors]: a sorted, private copy *)

Section StringOrder.

Lemma ascii_compare_lt_trans a b c :
  Ascii.compare a b = Lt -> Ascii.compare b c = Lt -> Ascii.compare a c = Lt.
Proof.
  unfold Ascii.compare. rewrite !N.compare_lt_iff. lia.
Qed.

Lemma string_compare_lt_trans s1 : forall s2 s3,
  String.compare s1 s2 = Lt -> String.compare s2 s3 = Lt ->
  String.compare s1 s3 = Lt.
Proof.
  induction s1 as [|a s1 IH]; intros [|b s2] [|c s3]; simpl; try done.
  destruct (Ascii.compare a b) eqn:Hab; try done;
    destruct (Ascii.compare b c) eqn:Hbc; try done; intros H1 H2.
  - apply Ascii.compare_eq_iff in Hab, Hbc. subst.
    assert (Ascii.compare c c = Eq) as -> by (unfold Ascii.compare; apply N.compare_refl).
    by eapply IH.
  - apply Ascii.compare_eq_iff in Hab. subst. by rewrite Hbc.
  - apply Ascii.compare_eq_iff in Hbc. subst. by rewrite Hab.
  - by rewrite (ascii_compare_lt_trans a b c).
Qed.

Lemma string_le_trans s1 s2 s3 :
  string_le s1 s2 -> string_le s2 s3 -> string_le s1 s3.
Proof.
  unfold string_le, String.leb.
  destruct (String.compare s1 s2) eqn:H12; try done;
    destruct (String.compare s2 s3) eqn:H23; try done; intros _ _.
  - apply String.compare_eq_iff in H12. subst. by rewrite H23.
  - apply String.compare_eq_iff in H12. subst. by rewrite H23.
  - apply String.compare_eq_iff in H23. subst. by rewrite H12.
  - by rewrite (string_compare_lt_trans s1 s2 s3).
Qed.

Lemma string_le_total s1 s2 : string_le s1 s2 \/ string_le s2 s1.
Proof. apply String.leb_total. Qed.

Lemma insert_sorted_perm x l : Permutation (x :: l) (insert_sorted x l).
Proof.
  induction l as [|y l IH]; simpl; [done|].
  destruct (String.leb x y); [done|].
  rewrite <- IH. apply perm_swap.
Qed.

Lemma insert_sorted_hd x y l :
  string_le y x -> HdRel string_le y l -> HdRel string_le y (insert_sorted x l).
Proof.
  intros Hyx Hl. destruct l as [|z l]; simpl.
  - by constructor.
  - destruct (String.leb x z); constructor; [done|]. by inversion Hl.
Qed.

Lemma insert_sorted_sorted x l :
  Sorted string_le l -> Sorted string_le (insert_sorted x l).
Proof.
  induction 1 as [|y l Hl IH Hy]; simpl.
  - repeat constructor.
  - destruct (String.leb x y) eqn:Hxy.
    + constructor; [by constructor|]. by constructor.
    + constructor; [done|]. apply insert_sorted_hd; [|done].
      destruct (string_le_total x y) as [H|H]; [|done].
      unfold string_le in H. congruence.
Qed.

Lemma sorted_strings_perm l : Permutation l (sorted_strings l).
Proof.
  induction l as [|x l IH]; simpl; [done|].
  rewrite <- insert_sorted_perm. by constructor.
Qed.

Lemma sorted_strings_sorted l : Sorted string_le (sorted_strings l).
Proof.
  induction l as [|x l IH]; simpl; [constructor|].
  by apply insert_sorted_sorted.
Qed.

Lemma sorted_strings_length l : length (sorted_strings l) = length l.
Proof. symmetry. apply Permutation_length, sorted_strings_perm. Qed.

Lemma filter_sorted (keep : string -> bool) l :
  Sorted string_le l -> Sorted string_le (List.filter keep l).
Proof.
  intros H. apply Sorted_StronglySorted in H; [|exact string_le_trans].
  apply StronglySorted_Sorted.
  induction H as [|x l Hl IH Hx]; simpl; [constructor|].
  destruct (keep x); [|done]. constructor; [done|].
  apply List.Forall_forall. intros y Hy. apply filter_In in Hy as [Hy _].
  rewrite List.Forall_forall in Hx. by apply Hx.
Qed.

End StringOrder.

Section Slices.

Lemma elems_length h s : slice_wf h s -> length (elems h s) = len s.
Proof.
  intros (a & Ha & Hcap & Hlen). unfold elems. rewrite Ha. simpl.
  rewrite length_take, length_drop. lia.
Qed.

Lemma elems_agree h h' s : h' !! arr s = h !! arr s -> elems h' s = elems h s.
Proof. unfold elems. by intros ->. Qed.

Lemma slice_wf_agree h h' s :
  h' !! arr s = h !! arr s -> slice_wf h s -> slice_wf h' s.
Proof. intros Heq (a & Ha & H). exists a. by rewrite Heq. Qed.

(** [append]: the new slice holds the old elements and then [x]; it lives
    in the array of the old slice or in a new array; no other array
    changes. *)
Lemma append_spec grow h s x h' s' :
  slice_wf h s ->
  append grow h s x = (h', s') ->
  elems h' s' = elems h s ++ [x]
  /\ slice_wf h' s'
  /\ length h <= length h'
  /\ (arr s' = arr s \/ arr s' = length h)
  /\ (forall j, j <> arr s -> j < length h -> h' !! j = h !! j).
Proof.
  intros Hwf. pose proof (elems_length h s Hwf) as Hlen.
  destruct Hwf as (a & Ha & Hcap & Hle).
  pose proof (lookup_lt_Some _ _ _ Ha) as Harr.
  unfold append. case_decide as Hspare; intros [= <- <-]; simpl.
  - rewrite Ha. simpl. split; [|split; [|split; [|split]]].
    + unfold elems. simpl. rewrite list_lookup_insert_eq by done.
      rewrite Ha. simpl.
      rewrite drop_insert_ge by lia.
      replace (off s + len s - off s) with (len s) by lia.
      erewrite take_S_r.
      * by rewrite take_insert_ge by lia.
      * apply list_lookup_insert_eq. rewrite length_drop. lia.
    + exists (<[off s + len s := x]> a). simpl.
      rewrite list_lookup_insert_eq by done. rewrite length_insert.
      split; [done|]. lia.
    + by rewrite length_insert.
    + by left.
    + intros j Hj _. by rewrite list_lookup_insert_ne.
  - split; [|split; [|split; [|split]]].
    + unfold elems at 1. simpl.
      rewrite lookup_app_r, Nat.sub_diag by lia. simpl.
      rewrite cons_middle, app_assoc, drop_0.
      rewrite take_app_le by (rewrite length_app; simpl; lia).
      apply take_ge. rewrite length_app. simpl. lia.
    + eexists. simpl. rewrite lookup_app_r, Nat.sub_diag by lia. simpl.
      split; [done|]. rewrite length_app. simpl. rewrite length_replicate. lia.
    + rewrite length_app. simpl. lia.
    + by right.
    + intros j _ Hj. by rewrite lookup_app_l.
Qed.

(** [sort.Strings]: the slice holds its elements in increasing order; no
    other array changes. *)
Lemma sort_Strings_spec h s :
  slice_wf h s ->
  elems (sort_Strings h s) s = sorted_strings (elems h s)
  /\ slice_wf (sort_Strings h s) s
  /\ length (sort_Strings h s) = length h
  /\ (forall j, j <> arr s -> sort_Strings h s !! j = h !! j).
Proof.
  intros Hwf. pose proof (elems_length h s Hwf) as Hlen.
  destruct Hwf as (a & Ha & Hcap & Hle).
  pose proof (lookup_lt_Some _ _ _ Ha) as Harr.
  unfold sort_Strings. rewrite Ha. simpl.
  split; [|split; [|split]].
  - unfold elems at 1. rewrite list_lookup_insert_eq by done. simpl.
    rewrite drop_app_length' by (rewrite length_take; lia).
    apply take_app_length'. by rewrite sorted_strings_length.
  - eexists. rewrite list_lookup_insert_eq by done. split; [done|].
    rewrite !length_app, length_take, length_drop, sorted_strings_length.
    lia.
  - by rewrite length_insert.
  - intros j Hj. by rewrite list_lookup_insert_ne.
Qed.

(** A write through one slice leaves the slices of other arrays alone. *)
Lemma slice_set_other h s i v h' t :
  slice_set h s i v = Ok h' -> arr t <> arr s -> elems h' t = elems h t.
Proof.
  unfold slice_set. case_decide; [|done]. intros [= <-] Hne.
  apply elems_agree. by rewrite list_lookup_insert_ne.
Qed.

End Slices.

Section EnabledCollectors.
Context {M : Type -> Type} `{!MRet M, !MBind M, !MPanic M}.
Context {Obj Fam clientset context Options ListWatch : Type}.
Variable ext : @Externals M Obj Fam clientset ListWatch.
Local Abbreviation Builder := (@Builder clientset context Options).

(** The copying loop, from iteration [k] on: it only adds arrays and
    writes to arrays newer than the store [h0] the call started in. *)
Lemma copy_loop_spec (c : slice) (h0 : heap) :
  slice_wf h0 c ->
  forall n k hc copy h' copy',
    k + n = len c ->
    length h0 <= length hc ->
    (forall j, j < length h0 -> hc !! j = h0 !! j) ->
    length h0 <= arr copy ->
    slice_wf hc copy ->
    elems hc copy = take k (elems h0 c) ->
    copy_loop ext c (seq k n) hc copy = (h', copy') ->
    (forall j, j < length h0 -> h' !! j = h0 !! j)
    /\ length h0 <= arr copy'
    /\ slice_wf h' copy'
    /\ elems h' copy' = elems h0 c.
Proof.
  intros Hc. pose proof (elems_length h0 c Hc) as Hlen.
  assert (arr c < length h0) as Harr.
  { destruct Hc as (a & Ha & _). by eapply lookup_lt_Some. }
  induction n as [|n IH]; intros k hc copy h' copy' Hk Hgrow Hold Hnew Hwf Hel.
  - simpl. intros [= <- <-]. repeat split; try done.
    rewrite Hel. apply take_ge. lia.
  - simpl.
    destruct (append (growslice ext) hc copy
                (default "" (elems hc c !! k))) as [h1 copy1] eqn:Happ.
    intros Hloop.
    destruct (append_spec _ _ _ _ _ _ Hwf Happ) as (Hel1 & Hwf1 & Hgrow1 & Hat & Hkeep).
    assert (elems hc c = elems h0 c) as Hsame by (apply elems_agree, Hold, Harr).
    destruct (lookup_lt_is_Some_2 (elems h0 c) k) as [s Hs]; [lia|].
    rewrite Hsame, Hs in Hel1. simpl in Hel1.
    apply (IH (S k) h1 copy1 h' copy'); try done; try lia.
    + intros j Hj. rewrite Hkeep by lia. by apply Hold.
    + rewrite Hel1, Hel. symmetry. by apply take_S_r.
Qed.

Lemma Build_elems (h h' : heap) (b : Builder) :
  elems h' (enabledCollectors b) = elems h (enabledCollectors b) ->
  Build ext h' b = Build ext h b.
Proof. unfold Build. by intros ->. Qed.

(** The store and the Builder after [WithEnabledCollectors]. *)
Lemma WithEnabledCollectors_spec (c : slice) (h : heap) (b : Builder) :
  slice_wf h c ->
  exists h' copy,
    WithEnabledCollectors ext c (h, b)
      = (h', {| kubeClient := kubeClient b; namespaces := namespaces b;
                opts := opts b; ctx := ctx b;
                enabledCollectors := copy;
                whiteBlackList := whiteBlackList b |})
    /\ elems h' copy = sorted_strings (elems h c)
    /\ length h <= arr copy
    /\ arr copy < length h'
    /\ (forall j, j < length h -> h' !! j = h !! j).
Proof.
  intros Hc. unfold WithEnabledCollectors, empty_slice.
  destruct (copy_loop ext c (seq 0 (len c)) (h ++ [[]]) (Slice (length h) 0 0 0))
    as [h1 copy] eqn:Hloop.
  destruct (copy_loop_spec c h Hc (len c) 0 (h ++ [[]])
              (Slice (length h) 0 0 0) h1 copy) as (Hold & Hnew & Hwf & Hel).
  { done. }
  { rewrite length_app. simpl. lia. }
  { intros j Hj. by rewrite lookup_app_l. }
  { simpl. lia. }
  { exists []. simpl. rewrite lookup_app_r, Nat.sub_diag by lia. simpl.
    repeat split; lia. }
  { unfold elems at 1. simpl.
    by rewrite lookup_app_r, Nat.sub_diag by lia. }
  { exact Hloop. }
  destruct (sort_Strings_spec h1 copy Hwf) as (Hsorted & _ & Hsame & Hkeep).
  exists (sort_Strings h1 copy), copy. repeat split; try done.
  - by rewrite Hsorted, Hel.
  - rewrite Hsame. destruct Hwf as (a & Ha & _). by eapply lookup_lt_Some.
  - intros j Hj. rewrite Hkeep by lia. by apply Hold.
Qed.

End EnabledCollectors.

(** C10: [WithEnabledCollectors] stores the caller's names in increasing
    order, as a permutation, in an array allocated by the call; the arrays
    that existed before keep their content; a later write through the
    caller's slice, and more generally any later change to the arrays that
    existed before the call, changes neither the stored names nor what
    [Build] returns; and [Build] constructs the collectors of the known
    names in increasing order of name. *)
Theorem WithEnabledCollectors_sorted_copy `{!MRet M, !MBind M, !MPanic M}
    {Obj Fam clientset context Options ListWatch : Type}
    (ext : @Externals M Obj Fam clientset ListWatch)
    (c : slice) (h : heap) (b : @Builder clientset context Options) :
  slice_wf h c ->
  exists h' b',
    WithEnabledCollectors ext c (h, b) = (h', b')
    /\ Permutation (elems h c) (elems h' (enabledCollectors b'))
    /\ Sorted string_le (elems h' (enabledCollectors b'))
    /\ length h <= arr (enabledCollectors b')
    /\ (forall j, j < length h -> h' !! j = h !! j)
    /\ (forall i v h'', slice_set h' c i v = Ok h'' ->
          elems h'' (enabledCollectors b') = elems h' (enabledCollectors b')
          /\ Build ext h'' b' = Build ext h' b')
    /\ (forall h'' : heap,
          (forall j, length h <= j -> j < length h' -> h'' !! j = h' !! j) ->
          elems h'' (enabledCollectors b') = elems h' (enabledCollectors b'))
    /\ (forall l, whiteBlackList b = Some l ->
          exists out,
            Build ext h' b' = Ok out
            /\ activeCollectorNames out
               = List.filter (known (context := context) (Options := Options) ext)
                   (elems h' (enabledCollectors b'))
            /\ Sorted string_le (activeCollectorNames out)
            /\ Forall2 (fun name collector => exists ctor rs,
                          availableCollectors ext !! name = Some ctor
                          /\ ctor b' = Ok (collector, rs))
                 (activeCollectorNames out) (collectors out)).
Proof.
  intros Hc.
  destruct (WithEnabledCollectors_spec ext c h b Hc)
    as (h' & copy & Heq & Hel & Hnew & Hin & Hold).
  assert (arr c < length h) as Harr.
  { destruct Hc as (a & Ha & _). by eapply lookup_lt_Some. }
  match type of Heq with _ = (_, ?x) => set (b' := x) in * end.
  exists h', b'. split; [exact Heq|]. simpl.
  assert (Sorted string_le (elems h' copy)) as Hsorted.
  { rewrite Hel. apply sorted_strings_sorted. }
  split; [rewrite Hel; apply sorted_strings_perm|].
  split; [exact Hsorted|]. split; [exact Hnew|]. split; [exact Hold|].
  split; [|split].
  - intros i v h'' Hset.
    assert (elems h'' copy = elems h' copy) as Hsame.
    { eapply slice_set_other; [exact Hset|]. lia. }
    split; [exact Hsame|]. by apply Build_elems.
  - intros h'' Hh''. apply elems_agree. by apply Hh''.
  - intros l Hl.
    destruct (Build_with_policy ext h' b' l Hl) as (out & Hout & Hnames & HF).
    exists out. split; [exact Hout|]. simpl in Hnames.
    split; [exact Hnames|]. split; [|exact HF].
    rewrite Hnames. by apply filter_sorted.
Qed.

Lemma WithEnabledCollectors_sorted_copy_witness :
  exists h' b',
    WithEnabledCollectors Examples.externals Examples.callerSlice
      (Examples.callerHeap,
       WithWhiteBlackList (Some Examples.createdOnly) Examples.newBuilder)
      = (h', b')
    /\ elems h' (enabledCollectors b') = ["daemonsets"; "nosuchkind"; "pods"]
    /\ forall h'', slice_set h' Examples.callerSlice 0 "services" = Ok h'' ->
         elems h'' Examples.callerSlice = ["services"; "nosuchkind"; "daemonsets"]
         /\ elems h'' (enabledCollectors b') = ["daemonsets"; "nosuchkind"; "pods"].
Proof.
  destruct (WithEnabledCollectors_sorted_copy Examples.externals
              Examples.callerSlice Examples.callerHeap
              (WithWhiteBlackList (Some Examples.createdOnly) Examples.newBuilder))
    as (h' & b' & Heq & _ & _ & _ & _ & Hset & _ & _).
  - exists ["pods"; "nosuchkind"; "daemonsets"; ""]. repeat split; simpl; lia.
  - exists h', b'. split; [exact Heq|].
    vm_compute in Heq. injection Heq as <- <-.
    split; [reflexivity|]. intros h'' Hh''.
    split; [|destruct (Hset 0 "services" h'' Hh'') as [-> _]; reflexivity].
    vm_compute in Hh''. injection Hh'' as <-. reflexivity.
Defined.

(** ** [collectorSet.Set] of [main.go] *)

(** The flag parser of [main.go], which does not go through [Build], ends
    the process on a name that is not available. *)
Lemma Set_unknown_name_is_fatal :
  Main.Set_ "pods,nosuchkind" ∅
  = Panic (Fatal ("Collector " +:+ Main.quote +:+ "nosuchkind" +:+ Main.quote
                    +:+ " does not exist")).
Proof. vm_compute. reflexivity. Qed.

Lemma Set_known_names :
  Main.Set_ "pods,services" ∅
  = Ok (<["services" := {| Main.Group := ""; Main.Version := ""; Main.Resource := "" |}]>
         (<["pods" := {| Main.Group := ""; Main.Version := ""; Main.Resource := "" |}]> ∅)).
Proof. vm_compute. reflexivity. Qed.


(** * Further properties of the code *)

(** ** [builder.go]: what [Build] constructs and starts *)

Section BuildOutcome.
Context {M : Type -> Type} `{!MRet M, !MBind M, !MPanic M}.
Context {Obj Fam clientset context Options ListWatch : Type}.
Variable ext : @Externals M Obj Fam clientset ListWatch.
Local Abbreviation Builder := (@Builder clientset context Options).
Local Abbreviation Reflector := (@Reflector M Obj Fam context ListWatch).
Local Abbreviation available :=
  (availableCollectors (context := context) (Options := Options) ext).
Local Abbreviation is_known :=
  (known (context := context) (Options := Options) ext).

Lemma reflectorPerNamespace_loop (cx : context) (kc : option clientset)
    (expected : ExpectedType) (st : MetricsStore) (nss : list string)
    (lwf : option clientset -> string -> ListWatch) (acc : list Reflector) :
  fold_left (fun started ns =>
      let lw := lwf kc ns in
      let reflector := NewReflector lw expected st 0 cx in
      started ++ [reflector]) nss acc
  = acc ++ map (fun ns => NewReflector (lwf kc ns) expected st 0 cx) nss.
Proof.
  revert acc. induction nss as [|ns nss IH]; intros acc; simpl.
  - by rewrite app_nil_r.
  - rewrite IH. by rewrite <- app_assoc.
Qed.

(** What the constructor registered under [c] returns. *)
Lemma constructor_outcome (b : Builder) (l : whiteBlackLister) c ctor :
  whiteBlackList b = Some l ->
  available !! c = Some ctor ->
  ctor b = Ok (collector_of ext l c, reflectors_of ext b c (collector_of ext l c)).
Proof.
  intros Hl H.
  destruct (availableCollectors_lookup ext _ _ H) as [[-> ->]|[[-> ->]|[-> ->]]].
  - rewrite (buildDaemonSetCollector_ok ext _ _ Hl). unfold reflectorPerNamespace.
    by rewrite (reflectorPerNamespace_loop _ _ _ _ _ _ []).
  - rewrite (buildPodCollector_ok ext _ _ Hl). unfold reflectorPerNamespace.
    by rewrite (reflectorPerNamespace_loop _ _ _ _ _ _ []).
  - rewrite (buildServiceCollector_ok ext _ _ Hl). unfold reflectorPerNamespace.
    by rewrite (reflectorPerNamespace_loop _ _ _ _ _ _ []).
Qed.

Lemma build_loop_outcome (b : Builder) (l : whiteBlackLister) names :
  whiteBlackList b = Some l ->
  forall i cs ns st,
    for_range (fun _ c '(collectors, names, started) =>
        match available !! c with
        | Some constructor =>
            '(collector, rs) ← constructor b;
            mret (collectors ++ [collector], names ++ [c], started ++ rs)
        | None => mret (collectors, names, started)
        end) i names (cs, ns, st)
    = Ok (cs ++ map (collector_of ext l) (List.filter is_known names),
          ns ++ List.filter is_known names,
          st ++ concat (map (fun c => reflectors_of ext b c (collector_of ext l c))
                          (List.filter is_known names))).
Proof.
  intros Hl. induction names as [|c names IH]; intros i cs ns st.
  - simpl. by rewrite !app_nil_r.
  - destruct (available !! c) as [ctor|] eqn:Hc.
    + assert (is_known c = true) as Hk.
      { unfold known. rewrite Hc. by apply bool_decide_eq_true. }
      simpl. rewrite Hk, Hc, (constructor_outcome b l c ctor Hl Hc). simpl.
      rewrite IH. by rewrite <- !app_assoc.
    + assert (is_known c = false) as Hk.
      { unfold known. rewrite Hc. apply bool_decide_eq_false. by intros [? ?]. }
      simpl. rewrite Hk, Hc. simpl. apply IH.
Qed.

(** [Build] in closed form. *)
Lemma Build_outcome (h : heap) (b : Builder) (l : whiteBlackLister) :
  whiteBlackList b = Some l ->
  Build ext h b
  = Ok (let names := List.filter is_known (elems h (enabledCollectors b)) in
        {| collectors := map (collector_of ext l) names;
           activeCollectorNames := names;
           started := concat (map (fun c => reflectors_of ext b c (collector_of ext l c))
                                names);
           logged := "Active collectors: " +:+ strings_Join names "," |}).
Proof.
  intros Hl. unfold Build. rewrite Hl.
  by rewrite (build_loop_outcome b l _ Hl 0 [] [] []).
Qed.

Lemma Build_ok_policy (h : heap) (b : Builder) out :
  Build ext h b = Ok out -> exists l, whiteBlackList b = Some l.
Proof.
  unfold Build. destruct (whiteBlackList b) as [l|]; [eauto|done].
Qed.

Lemma reflectors_of_length (b : Builder) c collector :
  length (reflectors_of ext b c collector) = length (namespaces b).
Proof.
  unfold reflectors_of. repeat case_decide; by rewrite length_map.
Qed.

Lemma reflectors_of_store (b : Builder) c collector r :
  In r (reflectors_of ext b c collector) ->
  store r = Store collector /\ stopCh r = ctx b /\ resyncPeriod r = 0.
Proof.
  unfold reflectors_of. repeat case_decide; intros Hr;
    apply in_map_iff in Hr as (ns & <- & _); simpl; auto.
Qed.

Lemma zip_reflectors (b : Builder) (l : whiteBlackLister) names :
  zip_with (reflectors_of ext b) names (map (collector_of ext l) names)
  = map (fun c => reflectors_of ext b c (collector_of ext l c)) names.
Proof. induction names as [|c names IH]; simpl; [done|]. by rewrite IH. Qed.

Lemma started_length (b : Builder) (l : whiteBlackLister) names :
  length (concat (map (fun c => reflectors_of ext b c (collector_of ext l c)) names))
  = length names * length (namespaces b).
Proof.
  induction names as [|c names IH]; simpl; [done|].
  by rewrite length_app, IH, reflectors_of_length.
Qed.
End BuildOutcome.

(** X1: when [Build] returns, the reflectors it has started are, collector
    after collector in the order returned, one per namespace of the Builder,
    each feeding the store of its collector; so their number is the number
    of collectors times the number of namespaces, and with no namespace no
    reflector is started although the collectors are returned. *)
Theorem Build_starts_one_reflector_per_namespace
    `{!MRet M, !MBind M, !MPanic M}
    {Obj Fam clientset context Options ListWatch : Type}
    (ext : @Externals M Obj Fam clientset ListWatch) (h : heap)
    (b : @Builder clientset context Options) (out : Built) :
  Build ext h b = Ok out ->
  started out
    = concat (zip_with (reflectors_of ext b) (activeCollectorNames out)
                (collectors out))
  /\ length (started out) = length (collectors out) * length (namespaces b)
  /\ (forall r, In r (started out) ->
        exists collector, In collector (collectors out)
                          /\ store r = Store collector
                          /\ stopCh r = ctx b /\ resyncPeriod r = 0)
  /\ (namespaces b = [] -> started out = []).
Proof.
  intros Hout. destruct (Build_ok_policy ext h b out Hout) as [l Hl].
  rewrite (Build_outcome ext h b l Hl) in Hout. injection Hout as <-. simpl.
  set (names := List.filter _ _).
  assert (length (concat (map (fun c => reflectors_of ext b c (collector_of ext l c))
                            names))
          = length (map (collector_of ext l) names) * length (namespaces b)) as Hlen.
  { by rewrite started_length, length_map. }
  split; [by rewrite zip_reflectors|]. split; [exact Hlen|]. split.
  - intros r Hr. apply in_concat in Hr as (rs & Hrs & Hr).
    apply in_map_iff in Hrs as (c & <- & Hc).
    exists (collector_of ext l c). split; [by apply in_map|].
    by apply (reflectors_of_store ext b c).
  - intros Hns. rewrite Hns in Hlen. simpl in Hlen.
    rewrite Nat.mul_0_r in Hlen. by apply length_zero_iff_nil.
Qed.

Lemma Build_starts_one_reflector_per_namespace_witness :
  exists out,
    Build Examples.externals Examples.configured.1 Examples.configured.2 = Ok out
    /\ length (collectors out) = 2
    /\ map (fun r => (lw r, expectedType r)) (started out)
       = [("prod", DaemonSet); ("prod", Pod)].
Proof.
  destruct (Build Examples.externals Examples.configured.1 Examples.configured.2)
    as [out|p] eqn:Hout; [|by vm_compute in Hout].
  destruct (Build_starts_one_reflector_per_namespace Examples.externals
              Examples.configured.1 Examples.configured.2 out Hout)
    as (Hstarted & _).
  exists out. split; [reflexivity|].
  vm_compute in Hout. injection Hout as <-. split; reflexivity.
Defined.

Lemma filter_Permutation_list {A} (keep : A -> bool) (l1 l2 : list A) :
  Permutation l1 l2 -> Permutation (List.filter keep l1) (List.filter keep l2).
Proof.
  induction 1 as [|x l1 l2 _ IH|x y l|l1 l2 l3 _ IH1 _ IH2]; simpl.
  - done.
  - destruct (keep x); [by constructor|done].
  - destruct (keep x), (keep y); try done. apply perm_swap.
  - by etrans.
Qed.

Lemma count_occ_filter (keep : string -> bool) (l : list string) (x : string) :
  count_occ string_dec (List.filter keep l) x
  = if keep x then count_occ string_dec l x else 0.
Proof.
  induction l as [|y l IH]; simpl; [by destruct (keep x)|].
  destruct (keep y) eqn:Hy; simpl; destruct (string_dec y x) as [->|Hne];
    rewrite IH; try done.
  - by rewrite Hy.
  - by rewrite Hy.
Qed.

(** X2: the names are not deduplicated.  After [WithEnabledCollectors],
    [Build] constructs a collector for a known name as many times as the
    caller's slice holds the name, and none for any other name; the number
    of collectors returned is the number of occurrences of known names. *)
Theorem Build_constructs_each_occurrence `{!MRet M, !MBind M, !MPanic M}
    {Obj Fam clientset context Options ListWatch : Type}
    (ext : @Externals M Obj Fam clientset ListWatch)
    (c : slice) (h : heap) (b : @Builder clientset context Options)
    (l : whiteBlackLister) :
  slice_wf h c ->
  whiteBlackList b = Some l ->
  exists h' b' out,
    WithEnabledCollectors ext c (h, b) = (h', b')
    /\ Build ext h' b' = Ok out
    /\ (forall name,
          count_occ string_dec (activeCollectorNames out) name
          = if known (context := context) (Options := Options) ext name
            then count_occ string_dec (elems h c) name else 0)
    /\ length (collectors out)
       = length (List.filter (known (context := context) (Options := Options) ext)
                   (elems h c)).
Proof.
  intros Hc Hl.
  destruct (WithEnabledCollectors_spec ext c h b Hc)
    as (h' & copy & Heq & Hel & _).
  match type of Heq with _ = (_, ?x) => set (b' := x) in * end.
  assert (Permutation
            (List.filter (known (context := context) (Options := Options) ext)
               (elems h' (enabledCollectors b')))
            (List.filter (known (context := context) (Options := Options) ext)
               (elems h c))) as Hperm.
  { apply filter_Permutation_list. simpl. rewrite Hel.
    symmetry. apply sorted_strings_perm. }
  eexists h', b', _. split; [exact Heq|].
  split; [by apply (Build_outcome ext h' b' l)|]. simpl. split.
  - intros name. rewrite <- count_occ_filter.
    revert name. by apply (Permutation_count_occ string_dec).
  - rewrite length_map. by apply Permutation_length.
Qed.

Lemma Build_constructs_each_occurrence_witness :
  exists h' b' out,
    WithEnabledCollectors Examples.externals (Slice 0 0 3 3)
      ([["pods"; "daemonsets"; "pods"]],
       WithWhiteBlackList (Some Examples.createdOnly) Examples.newBuilder)
      = (h', b')
    /\ Build Examples.externals h' b' = Ok out
    /\ activeCollectorNames out = ["daemonsets"; "pods"; "pods"]
    /\ length (collectors out) = 3.
Proof.
  destruct (Build_constructs_each_occurrence Examples.externals (Slice 0 0 3 3)
              [["pods"; "daemonsets"; "pods"]]
              (WithWhiteBlackList (Some Examples.createdOnly) Examples.newBuilder)
              Examples.createdOnly)
    as (h' & b' & out & Heq & Hout & _ & Hlen).
  - exists ["pods"; "daemonsets"; "pods"]. repeat split; simpl; lia.
  - reflexivity.
  - exists h', b', out. split; [exact Heq|]. split; [exact Hout|].
    split; [|exact Hlen].
    vm_compute in Heq. injection Heq as <- <-.
    vm_compute in Hout. injection Hout as <-. reflexivity.
Defined.

(** ** [builder.go]: headers and blocks of one collector *)


(** X3: headers and blocks of a collector are aligned.  Whenever the render
    function of a collector built by a registered constructor returns, it
    returns as many blocks as the store has headers, and the [i]-th header
    and the [i]-th block come from the same family of the kind's table, one
    that the policy includes. *)
Theorem collector_headers_match_blocks
    {Obj Fam clientset context Options ListWatch : Type}
    (ext : @Externals result Obj Fam clientset ListWatch)
    (b : @Builder clientset context Options) (l : whiteBlackLister)
    (c : string) ctor (collector : Collector) (rs : list Reflector)
    (obj : Obj) (blocks : list FamilyStringer) :
  whiteBlackList b = Some l ->
  availableCollectors (context := context) (Options := Options) ext !! c
  = Some ctor ->
  ctor b = Ok (collector, rs) ->
  generateMetricsFunc (Store collector) obj = Ok blocks ->
  length blocks = length (headers (Store collector))
  /\ Forall2 (fun header blk => exists f block,
                In f (table_of ext c)
                /\ IsIncluded l (Name f) = true
                /\ header = Name f +:+ " " +:+ Help f
                /\ GenerateFunc f obj = Ok block
                /\ blk = Some block)
       (headers (Store collector)) blocks.
Proof.
  intros Hl Hc Hctor Hrun.
  rewrite (constructor_outcome ext b l c ctor Hl Hc) in Hctor.
  injection Hctor as <- _. simpl in *.
  apply composeMetricGenFuncs_inv in Hrun.
  split.
  - rewrite length_map. symmetry. by eapply Forall2_length.
  - apply Forall2_fmap_l. apply Forall2_In_l in Hrun.
    eapply Forall2_impl; [exact Hrun|].
    intros f blk [Hf (block & Hblock & ->)].
    apply filter_In in Hf as [Hf Hinc].
    exists f, block. by repeat split.
Qed.

Lemma collector_headers_match_blocks_witness :
  exists collector rs blocks,
    buildPodCollector Examples.externals Examples.configured.2 = Ok (collector, rs)
    /\ generateMetricsFunc (Store collector)
         (Store.ObjPodDisruptionBudget (Some Examples.pdb)) = Ok blocks
    /\ headers (Store collector)
       = ["kube_poddisruptionbudget_created Unix creation timestamp"]
    /\ length blocks = 1.
Proof.
  destruct (buildPodCollector Examples.externals Examples.configured.2)
    as [[collector rs]|p] eqn:Hctor; [|by vm_compute in Hctor].
  destruct (generateMetricsFunc (Store collector)
              (Store.ObjPodDisruptionBudget (Some Examples.pdb)))
    as [blocks|p] eqn:Hrun;
    [|vm_compute in Hctor; injection Hctor as <- _; by vm_compute in Hrun].
  destruct (collector_headers_match_blocks Examples.externals
              Examples.configured.2 Examples.createdOnly "pods"
              (buildPodCollector Examples.externals) collector rs
              (Store.ObjPodDisruptionBudget (Some Examples.pdb)) blocks)
    as [Hlen _]; [reflexivity|reflexivity|exact Hctor|exact Hrun|].
  exists collector, rs, blocks. split; [reflexivity|]. split; [exact Hrun|].
  vm_compute in Hctor. injection Hctor as <- _.
  split; [reflexivity|]. exact Hlen.
Defined.

(** ** [builder.go]: when the composed function returns *)

Section ComposedOutcome.
Context {Obj Fam : Type}.
Local Abbreviation FamilyGenerator := (Metrics.FamilyGenerator result Obj Fam).

Lemma composeMetricGenFuncs_ok (families : list FamilyGenerator) (obj : Obj)
    (blocks : list (option Fam)) :
  Forall2 (fun f b => exists block, GenerateFunc f obj = Ok block /\ b = Some block)
    families blocks ->
  composeMetricGenFuncs families obj = Ok blocks.
Proof.
  intros HF. unfold composeMetricGenFuncs. rewrite (funcs_eq families []). simpl.
  apply (compose_loop_ok obj (map GenerateFunc families) _ []).
  by apply Forall2_fmap_l.
Qed.

Lemma composeMetricGenFuncs_first_panic (pre post : list FamilyGenerator)
    (f : FamilyGenerator) (obj : Obj) (p : panic) :
  (forall g, In g pre -> exists block, GenerateFunc g obj = Ok block) ->
  GenerateFunc f obj = Panic p ->
  composeMetricGenFuncs (pre ++ f :: post) obj = Panic p.
Proof.
  intros Hpre Hf. unfold composeMetricGenFuncs.
  rewrite (funcs_eq _ []). simpl. rewrite map_app. simpl.
  apply (compose_loop_panic obj _ _ _ p []); [|done].
  apply List.Forall_forall. intros g Hg.
  apply in_map_iff in Hg as (g' & <- & Hg'). by apply Hpre.
Qed.

(** Either every generator returns on [obj], or there is a first one that
    panics. *)
Lemma generators_return_or_panic (families : list FamilyGenerator) (obj : Obj) :
  (exists blocks,
     Forall2 (fun f b => exists block, GenerateFunc f obj = Ok block /\ b = Some block)
       families blocks)
  \/ (exists pre f post p,
        families = pre ++ f :: post
        /\ (forall g, In g pre -> exists block, GenerateFunc g obj = Ok block)
        /\ GenerateFunc f obj = Panic p).
Proof.
  induction families as [|f families IH].
  - left. exists []. constructor.
  - destruct (GenerateFunc f obj) as [block|p] eqn:Hf.
    + destruct IH as [[blocks HF]|(pre & g & post & p & -> & Hpre & Hg)].
      * left. exists (Some block :: blocks). constructor; eauto.
      * right. exists (f :: pre), g, post, p. split; [done|]. split; [|done].
        intros g' [<-|Hg']; eauto.
    + right. exists [], f, families, p. split; [done|]. split; [|done].
      intros g [].
Qed.

Lemma generators_return (families : list FamilyGenerator) (obj : Obj) :
  (forall f, In f families -> exists block, GenerateFunc f obj = Ok block) ->
  exists blocks,
    Forall2 (fun f b => exists block, GenerateFunc f obj = Ok block /\ b = Some block)
      families blocks.
Proof.
  intros Hall.
  destruct (generators_return_or_panic families obj)
    as [H|(pre & f & post & p & -> & _ & Hf)]; [done|].
  destruct (Hall f) as [block Hblock]; [apply in_elt|]. congruence.
Qed.
End ComposedOutcome.

(** X4: the composed function returns exactly when every generator of the
    list returns on the object, and then with one block per generator, in
    order; otherwise it panics with the panic of the first generator, in
    list order, that panics.  It never returns a shorter list of blocks. *)
Theorem composeMetricGenFuncs_returns_iff_all_return {Obj Fam : Type}
    (families : list (FamilyGenerator result Obj Fam)) (obj : Obj) :
  (forall blocks,
     composeMetricGenFuncs families obj = Ok blocks
     <-> Forall2 (fun f b => exists block,
                    GenerateFunc f obj = Ok block /\ b = Some block)
           families blocks)
  /\ (forall p,
        composeMetricGenFuncs families obj = Panic p
        <-> exists pre f post,
              families = pre ++ f :: post
              /\ (forall g, In g pre -> exists block, GenerateFunc g obj = Ok block)
              /\ GenerateFunc f obj = Panic p)
  /\ (forall blocks,
        composeMetricGenFuncs families obj = Ok blocks ->
        length blocks = length families).
Proof.
  split; [|split].
  - intros blocks. split; [apply composeMetricGenFuncs_inv|apply composeMetricGenFuncs_ok].
  - intros p. split.
    + intros Hp.
      destruct (generators_return_or_panic families obj)
        as [[blocks HF]|(pre & f & post & p' & Heq & Hpre & Hf)].
      * apply composeMetricGenFuncs_ok in HF. congruence.
      * exists pre, f, post. split; [done|]. split; [done|].
        subst families.
        rewrite (composeMetricGenFuncs_first_panic pre post f obj p' Hpre Hf) in Hp.
        congruence.
    + intros (pre & f & post & -> & Hpre & Hf).
      by apply composeMetricGenFuncs_first_panic.
  - intros blocks Hrun. apply composeMetricGenFuncs_inv in Hrun.
    symmetry. by eapply Forall2_length.
Qed.

(** X5: a family that the policy does not include is never run.  The render
    function of a collector returns on an object as soon as the generators
    of the included families of its table return on it, whatever the other
    generators of the table would do; and under a policy that includes no
    family of the table the store has no header and the render function
    returns the empty list on every object, while one reflector per
    namespace is started all the same. *)
Theorem excluded_families_are_not_run
    {Obj Fam clientset context Options ListWatch : Type}
    (ext : @Externals result Obj Fam clientset ListWatch)
    (b : @Builder clientset context Options) (l : whiteBlackLister)
    (c : string) ctor (collector : Collector) (rs : list Reflector) :
  whiteBlackList b = Some l ->
  availableCollectors (context := context) (Options := Options) ext !! c
  = Some ctor ->
  ctor b = Ok (collector, rs) ->
  (forall obj,
     (forall f, In f (table_of ext c) -> IsIncluded l (Name f) = true ->
                exists block, GenerateFunc f obj = Ok block) ->
     exists blocks, generateMetricsFunc (Store collector) obj = Ok blocks)
  /\ ((forall f, In f (table_of ext c) -> IsIncluded l (Name f) = false) ->
      headers (Store collector) = []
      /\ (forall obj, generateMetricsFunc (Store collector) obj = Ok [])
      /\ length rs = length (namespaces b)).
Proof.
  intros Hl Hc Hctor.
  rewrite (constructor_outcome ext b l c ctor Hl Hc) in Hctor.
  injection Hctor as <- <-. simpl. split.
  - intros obj Hall.
    destruct (generators_return (included l (table_of ext c)) obj) as [blocks HF].
    { intros f Hf. apply filter_In in Hf as [Hf Hinc]. by apply Hall. }
    exists blocks. by apply composeMetricGenFuncs_ok.
  - intros Hnone.
    assert (included l (table_of ext c) = []) as ->.
    { unfold included.
      induction (table_of ext c) as [|f fs IH]; simpl; [done|].
      rewrite (Hnone f) by (by left). apply IH. intros g Hg. apply Hnone. by right. }
    split; [done|]. split; [done|]. apply reflectors_of_length.
Qed.

Lemma excluded_families_are_not_run_witness :
  exists collector rs,
    buildDaemonSetCollector Examples.externals
      (WithWhiteBlackList
         (Some (Examples.allowOnly
                  ["kube_poddisruptionbudget_status_current_healthy"]))
         Examples.newBuilder) = Ok (collector, rs)
    /\ (exists blocks,
          generateMetricsFunc (Store collector)
            (Store.ObjPodDisruptionBudget (Some Examples.pdb)) = Ok blocks)
    /\ In Examples.broken (table_of Examples.externals "daemonsets")
    /\ GenerateFunc Examples.broken
         (Store.ObjPodDisruptionBudget (Some Examples.pdb)) = Panic NilDereference.
Proof.
  destruct (buildDaemonSetCollector Examples.externals
      (WithWhiteBlackList
         (Some (Examples.allowOnly
                  ["kube_poddisruptionbudget_status_current_healthy"]))
         Examples.newBuilder)) as [[collector rs]|p] eqn:Hctor;
    [|by vm_compute in Hctor].
  destruct (excluded_families_are_not_run Examples.externals
              (WithWhiteBlackList
                 (Some (Examples.allowOnly
                          ["kube_poddisruptionbudget_status_current_healthy"]))
                 Examples.newBuilder)
              (Examples.allowOnly
                 ["kube_poddisruptionbudget_status_current_healthy"])
              "daemonsets" (buildDaemonSetCollector Examples.externals)
              collector rs) as [Hruns _]; [reflexivity|reflexivity|exact Hctor|].
  exists collector, rs. split; [reflexivity|]. split.
  - apply Hruns. intros f Hf Hinc. simpl in Hf.
    destruct Hf as [<-|[<-|[<-|[]]]]; [eexists; reflexivity|done|done].
  - split; [right; left; reflexivity|reflexivity].
Defined.

(** ** [builder.go]: the order of the enabled names *)

Section SortIsCanonical.

Lemma string_le_antisym s t : string_le s t -> string_le t s -> s = t.
Proof.
  unfold string_le, String.leb. intros Hst Hts.
  destruct (String.compare s t) eqn:Hc; [by apply String.compare_eq_iff| |done].
  rewrite (String.compare_antisym t s), Hc in Hts. done.
Qed.

Lemma leb_false_le x y : String.leb x y = false -> string_le y x.
Proof.
  intros H. destruct (string_le_total x y) as [Hxy|Hyx]; [|done].
  unfold string_le in Hxy. congruence.
Qed.

Lemma insert_sorted_two x y :
  (if String.leb x y then [x; y] else [y; x])
  = (if String.leb y x then [y; x] else [x; y]).
Proof.
  destruct (String.leb x y) eqn:Hxy, (String.leb y x) eqn:Hyx; try done.
  - by rewrite (string_le_antisym x y Hxy Hyx).
  - apply leb_false_le in Hxy. unfold string_le in Hxy. congruence.
Qed.

Lemma insert_sorted_comm x y l :
  insert_sorted x (insert_sorted y l) = insert_sorted y (insert_sorted x l).
Proof.
  induction l as [|z l IH]; simpl.
  - apply insert_sorted_two.
  - destruct (String.leb y z) eqn:Hyz, (String.leb x z) eqn:Hxz; simpl;
      rewrite ?Hyz, ?Hxz.
    + destruct (String.leb x y) eqn:Hxy, (String.leb y x) eqn:Hyx; try done.
      * by rewrite (string_le_antisym x y Hxy Hyx).
      * apply leb_false_le in Hxy. unfold string_le in Hxy. congruence.
    + destruct (String.leb x y) eqn:Hxy; [|done].
      pose proof (string_le_trans x y z Hxy Hyz) as Hc.
      unfold string_le in Hc. congruence.
    + destruct (String.leb y x) eqn:Hyx; [|done].
      pose proof (string_le_trans y x z Hyx Hxz) as Hc.
      unfold string_le in Hc. congruence.
    + by rewrite IH.
Qed.

(** Sorting forgets the order of its input. *)
Lemma sorted_strings_Permutation l1 l2 :
  Permutation l1 l2 -> sorted_strings l1 = sorted_strings l2.
Proof.
  induction 1 as [|x l1 l2 _ IH|x y l|l1 l2 l3 _ IH1 _ IH2]; simpl.
  - done.
  - by rewrite IH.
  - apply insert_sorted_comm.
  - by etrans.
Qed.
End SortIsCanonical.

(** X6: the order in which the caller lists the names is forgotten.  Two
    slices holding the same names with the same multiplicities, in any
    order, leave the same names in the Builder, and [Build] then has the
    same outcome: the same collectors in the same order, the same
    reflectors, the same log line. *)
Theorem Build_forgets_the_order_of_names `{!MRet M, !MBind M, !MPanic M}
    {Obj Fam clientset context Options ListWatch : Type}
    (ext : @Externals M Obj Fam clientset ListWatch)
    (c1 c2 : slice) (h : heap) (b : @Builder clientset context Options) :
  slice_wf h c1 -> slice_wf h c2 ->
  Permutation (elems h c1) (elems h c2) ->
  exists h1 b1 h2 b2,
    WithEnabledCollectors ext c1 (h, b) = (h1, b1)
    /\ WithEnabledCollectors ext c2 (h, b) = (h2, b2)
    /\ elems h1 (enabledCollectors b1) = elems h2 (enabledCollectors b2)
    /\ Build ext h1 b1 = Build ext h2 b2.
Proof.
  intros Hc1 Hc2 Hperm.
  destruct (WithEnabledCollectors_spec ext c1 h b Hc1)
    as (h1 & copy1 & Heq1 & Hel1 & _).
  destruct (WithEnabledCollectors_spec ext c2 h b Hc2)
    as (h2 & copy2 & Heq2 & Hel2 & _).
  assert (elems h1 copy1 = elems h2 copy2) as Hsame.
  { rewrite Hel1, Hel2. by apply sorted_strings_Permutation. }
  eexists h1, _, h2, _. split; [exact Heq1|]. split; [exact Heq2|].
  split; [exact Hsame|].
  destruct (whiteBlackList b) as [l|] eqn:Hl.
  - rewrite (Build_outcome ext h1 _ l), (Build_outcome ext h2 _ l) by done.
    simpl. rewrite Hsame. reflexivity.
  - reflexivity.
Qed.

Lemma Build_forgets_the_order_of_names_witness :
  exists h1 b1 h2 b2 out,
    WithEnabledCollectors Examples.externals (Slice 0 0 3 3)
      ([["pods"; "daemonsets"; "pods"]; ["pods"; "pods"; "daemonsets"]],
       WithWhiteBlackList (Some Examples.createdOnly) Examples.newBuilder)
      = (h1, b1)
    /\ WithEnabledCollectors Examples.externals (Slice 1 0 3 3)
      ([["pods"; "daemonsets"; "pods"]; ["pods"; "pods"; "daemonsets"]],
       WithWhiteBlackList (Some Examples.createdOnly) Examples.newBuilder)
      = (h2, b2)
    /\ Build Examples.externals h1 b1 = Ok out
    /\ Build Examples.externals h2 b2 = Ok out
    /\ activeCollectorNames out = ["daemonsets"; "pods"; "pods"].
Proof.
  destruct (Build_forgets_the_order_of_names Examples.externals
              (Slice 0 0 3 3) (Slice 1 0 3 3)
              [["pods"; "daemonsets"; "pods"]; ["pods"; "pods"; "daemonsets"]]
              (WithWhiteBlackList (Some Examples.createdOnly) Examples.newBuilder))
    as (h1 & b1 & h2 & b2 & Heq1 & Heq2 & _ & Hsame).
  - exists ["pods"; "daemonsets"; "pods"]. repeat split; simpl; lia.
  - exists ["pods"; "pods"; "daemonsets"]. repeat split; simpl; lia.
  - simpl. apply perm_skip. apply perm_swap.
  - destruct (Build Examples.externals h2 b2) as [out|p] eqn:Hout.
    + exists h1, b1, h2, b2, out. split; [exact Heq1|]. split; [exact Heq2|].
      split; [exact Hsame|]. split; [exact Hout|].
      vm_compute in Heq2. injection Heq2 as <- <-.
      vm_compute in Hout. injection Hout as <-. reflexivity.
    + vm_compute in Heq2. injection Heq2 as <- <-. by vm_compute in Hout.
Defined.

(** ** [poddisruptionbudget.go]: every outcome of [wrapPodDisruptionBudgetFunc] *)

Section WrapLoop.
Import Store.
Variable pdb : option PodDisruptionBudget.
Variable body : nat -> option nat -> list Metric -> result (list Metric).

(** What one turn of the loop does: it returns exactly on a non-nil entry,
    for a non-nil object, and then has put the labels of the object in
    front of the metric behind the entry. *)
Hypothesis body_Ok : forall i m objs objs1,
  body i m objs = Ok objs1
  <-> exists a m0 p,
        m = Some a /\ objs !! a = Some m0 /\ pdb = Some p
        /\ objs1 = <[a := labelled p m0]> objs.
Hypothesis body_Panic : forall i m objs q,
  body i m objs = Panic q -> q = NilDereference.

Lemma loop_returns (entries : list (option nat)) :
  forall i objs objs',
    for_range body i entries objs = Ok objs' ->
    (entries = [] \/ is_Some pdb)
    /\ Forall (fun m => exists a, m = Some a /\ a < length objs) entries
    /\ length objs' = length objs
    /\ map Value objs' = map Value objs.
Proof.
  induction entries as [|m entries IH]; intros i objs objs'; simpl.
  - intros [= <-]. repeat split; auto.
  - destruct (body i m objs) as [objs1|q] eqn:Hb; simpl; [|done].
    apply body_Ok in Hb as (a & m0 & p & -> & Hm0 & -> & ->).
    intros Hrun. apply IH in Hrun as (_ & Hvalid & Hlen & Hval).
    rewrite length_insert in Hlen, Hvalid.
    split; [right; eauto|]. split; [|split; [done|]].
    + constructor; [|done]. exists a. split; [done|]. by eapply lookup_lt_Some.
    + rewrite Hval. rewrite list_fmap_insert. simpl.
      apply list_insert_id. by rewrite list_lookup_fmap, Hm0.
Qed.

Lemma loop_panics (entries : list (option nat)) :
  forall i objs q, for_range body i entries objs = Panic q -> q = NilDereference.
Proof.
  induction entries as [|m entries IH]; intros i objs q; simpl; [done|].
  destruct (body i m objs) as [objs1|q'] eqn:Hb; simpl.
  - apply IH.
  - intros [= <-]. by eapply body_Panic.
Qed.

Lemma loop_ok (p : PodDisruptionBudget) (entries : list (option nat)) :
  pdb = Some p ->
  forall i objs,
    Forall (fun m => exists a, m = Some a /\ a < length objs) entries ->
    exists objs', for_range body i entries objs = Ok objs'.
Proof.
  intros Hp. induction entries as [|m entries IH]; intros i objs Hvalid; simpl.
  - eauto.
  - apply Forall_cons in Hvalid as [(a & -> & Ha) Hvalid].
    destruct (lookup_lt_is_Some_2 objs a Ha) as [m0 Hm0].
    assert (body i (Some a) objs = Ok (<[a := labelled p m0]> objs)) as ->.
    { apply body_Ok. exists a, m0, p. done. }
    simpl. apply IH. by rewrite length_insert.
Qed.

(** Each metric object is labelled once per entry that points to it. *)
Lemma loop_counts (p : PodDisruptionBudget) (addrs : list nat) :
  pdb = Some p ->
  forall i objs objs',
    for_range body i (map Some addrs) objs = Ok objs' ->
    forall a m, objs !! a = Some m ->
      objs' !! a
      = Some (Nat.iter (count_occ Nat.eq_dec addrs a) (labelled p) m).
Proof.
  intros Hp. induction addrs as [|a0 addrs IH]; intros i objs objs'; simpl.
  - intros [= <-]. done.
  - destruct (body i (Some a0) objs) as [objs1|q] eqn:Hb; simpl; [|done].
    apply body_Ok in Hb as (a' & m0 & p' & [= <-] & Hm0 & Hp' & ->).
    assert (p' = p) as -> by congruence.
    intros Hrun a m Hm. destruct (Nat.eq_dec a0 a) as [->|Hne].
    + rewrite (IH _ _ _ Hrun a (labelled p m0)).
      * assert (m0 = m) as -> by congruence. by rewrite Nat.iter_succ_r.
      * apply list_lookup_insert_eq. by eapply lookup_lt_Some.
    + apply (IH _ _ _ Hrun). by rewrite list_lookup_insert_ne.
Qed.
End WrapLoop.

Section WrapOutcome.
Import Store.

Local Abbreviation wrap_body pdb :=
  (fun (_ : nat) (m : option nat) (objects : list Metric) =>
     a ← deref m;
     m0 ← load objects a;
     let objects :=
       <[a := {| LabelKeys := descPodDisruptionBudgetLabelsDefaultLabels
                                ++ LabelKeys m0;
                 LabelValues := LabelValues m0;
                 Value := Value m0 |}]> objects in
     p ← deref pdb;
     m1 ← load objects a;
     mret (M := result)
       (<[a := {| LabelKeys := LabelKeys m1;
                  LabelValues := [Namespace (Meta p); Name (Meta p)]
                                   ++ LabelValues m1;
                  Value := Value m1 |}]> objects)).

Lemma wrap_body_Ok pdb (i : nat) m objs objs1 :
  wrap_body pdb i m objs = Ok objs1
  <-> exists a m0 p,
        m = Some a /\ objs !! a = Some m0 /\ pdb = Some p
        /\ objs1 = <[a := labelled p m0]> objs.
Proof.
  split.
  - destruct m as [a|]; simpl; [|done]. unfold load.
    destruct (objs !! a) as [m0|] eqn:Hm0; simpl; [|done].
    destruct pdb as [p|]; simpl; [|done].
    rewrite list_lookup_insert_eq by (by eapply lookup_lt_Some). simpl.
    rewrite list_insert_insert_eq. intros [= <-]. by exists a, m0, p.
  - intros (a & m0 & p & -> & Hm0 & -> & ->). simpl. unfold load.
    rewrite Hm0. simpl.
    rewrite list_lookup_insert_eq by (by eapply lookup_lt_Some). simpl.
    by rewrite list_insert_insert_eq.
Qed.

Lemma wrap_body_Panic pdb (i : nat) m objs q :
  wrap_body pdb i m objs = Panic q -> q = NilDereference.
Proof.
  destruct m as [a|]; simpl; [|by intros [= <-]]. unfold load.
  destruct (objs !! a) as [m0|] eqn:Hm0; simpl; [|by intros [= <-]].
  destruct pdb as [p|]; simpl; [|by intros [= <-]].
  by rewrite list_lookup_insert_eq by (by eapply lookup_lt_Some).
Qed.

(** [wrapPodDisruptionBudgetFunc], step by step. *)
Lemma wrapPodDisruptionBudgetFunc_unfold
    (f : option PodDisruptionBudget -> result (option Family)) (obj : object) :
  wrapPodDisruptionBudgetFunc f obj
  = match obj with
    | ObjPodDisruptionBudget p =>
        match f p with
        | Ok (Some family) =>
            match for_range (wrap_body p) 0 (Metrics family) (objects family) with
            | Ok objs => Ok (Some {| Metrics := Metrics family; objects := objs |})
            | Panic q => Panic q
            end
        | Ok None => Panic NilDereference
        | Panic q => Panic q
        end
    | _ => Panic InterfaceConversion
    end.
Proof.
  destruct obj as [p| |]; try reflexivity.
  unfold wrapPodDisruptionBudgetFunc. simpl.
  destruct (f p) as [[family|]|q]; reflexivity.
Qed.

Lemma iter_labelled (p : PodDisruptionBudget) (m : Metric) (k : nat) :
  LabelKeys (Nat.iter k (labelled p) m)
  = concat (replicate k ["namespace"; "poddisruptionbudget"]) ++ LabelKeys m
  /\ LabelValues (Nat.iter k (labelled p) m)
     = concat (replicate k [Namespace (Meta p); Name (Meta p)]) ++ LabelValues m
  /\ Value (Nat.iter k (labelled p) m) = Value m.
Proof.
  induction k as [|k (Hk & Hv & Hval)]; simpl; [done|].
  by rewrite Hk, Hv, Hval.
Qed.
End WrapOutcome.

(** X7: every outcome of a wrapped function.  It returns exactly when the
    object is a pointer to a PodDisruptionBudget, the inner function returns
    a non-nil family for it, and either the family lists no metric or the
    pointer and every listed metric are non-nil; so for a typed nil pointer
    it returns when the inner function hands back an empty family.  When it
    returns, the family has the entries of the inner function's family, as
    many metric objects, and their values unchanged.  When it does not, the
    panic is a failed type assertion (any other object, the inner function
    not being called), a nil dereference, or the panic of the inner
    function. *)
Theorem wrapPodDisruptionBudgetFunc_outcomes
    (f : option Store.PodDisruptionBudget -> result (option Family))
    (obj : Store.object) :
  ((exists r, Store.wrapPodDisruptionBudgetFunc f obj = Ok r)
   <-> exists p family,
         obj = Store.ObjPodDisruptionBudget p
         /\ f p = Ok (Some family)
         /\ (Metrics family = []
             \/ (is_Some p
                 /\ Forall (fun m => exists a, m = Some a
                                               /\ a < length (objects family))
                      (Metrics family))))
  /\ (forall r, Store.wrapPodDisruptionBudgetFunc f obj = Ok r ->
        exists p family objects',
          obj = Store.ObjPodDisruptionBudget p
          /\ f p = Ok (Some family)
          /\ r = Some {| Metrics := Metrics family; objects := objects' |}
          /\ length objects' = length (objects family)
          /\ map Value objects' = map Value (objects family))
  /\ (forall q, Store.wrapPodDisruptionBudgetFunc f obj = Panic q ->
        match obj with
        | Store.ObjPodDisruptionBudget p => q = NilDereference \/ f p = Panic q
        | _ => q = InterfaceConversion
        end).
Proof.
  rewrite wrapPodDisruptionBudgetFunc_unfold.
  destruct obj as [p|t|].
  - destruct (f p) as [[family|]|q0] eqn:Hf.
    + destruct (for_range _ 0 (Metrics family) (objects family))
        as [objs|q0] eqn:Hloop.
      * apply (loop_returns p _ (wrap_body_Ok p)) in Hloop
          as (Hsome & Hvalid & Hlen & Hval).
        split; [|split].
        -- split; [|eauto]. intros _. exists p, family.
           split; [done|]. split; [done|].
           destruct Hsome as [Hnil|Hsome]; [by left|by right].
        -- intros r [= <-]. exists p, family, objs. by repeat split.
        -- done.
      * split; [|split]; try done.
        -- split; [by intros [r Hr]|].
           intros (p' & family' & [= <-] & Hf' & Hcase).
           assert (family' = family) as -> by congruence.
           destruct Hcase as [Hnil|[[p0 ->] Hvalid]].
           ++ rewrite Hnil in Hloop. done.
           ++ destruct (loop_ok (Some p0) _ (wrap_body_Ok (Some p0)) p0 _ eq_refl
                          0 (objects family) Hvalid) as [objs' Hok].
              congruence.
        -- intros q [= <-]. left.
           by apply (loop_panics _ (wrap_body_Panic p)) in Hloop.
    + split; [|split]; try done.
      * split; [by intros [r Hr]|].
        intros (p' & family' & [= <-] & Hf' & _). congruence.
      * intros q [= <-]. by left.
    + split; [|split]; try done.
      * split; [by intros [r Hr]|].
        intros (p' & family' & [= <-] & Hf' & _). congruence.
      * intros q [= <-]. by right.
  - split; [|split]; try done.
    + split; [by intros [r Hr]|]. by intros (p' & family' & [=] & _).
    + by intros q [= <-].
  - split; [|split]; try done.
    + split; [by intros [r Hr]|]. by intros (p' & family' & [=] & _).
    + by intros q [= <-].
Qed.

(** X8: the labels are added once per pointer.  For a PodDisruptionBudget
    and an inner function whose family points to existing metric objects,
    a metric object that the family lists [k] times comes back with the key
    pair namespace, poddisruptionbudget [k] times in front of its keys, the
    namespace and name of the object [k] times in front of its values, and
    its value unchanged; an object that is listed nowhere is untouched. *)
Theorem each_pointer_is_labelled_once_per_entry
    (f : option Store.PodDisruptionBudget -> result (option Family))
    (p : Store.PodDisruptionBudget) (family : Family) (addrs : list nat) :
  f (Some p) = Ok (Some family) ->
  Metrics family = map Some addrs ->
  (forall a, In a addrs -> a < length (objects family)) ->
  exists objects',
    Store.wrapPodDisruptionBudgetFunc f (Store.ObjPodDisruptionBudget (Some p))
      = Ok (Some {| Metrics := Metrics family; objects := objects' |})
    /\ length objects' = length (objects family)
    /\ forall a m, objects family !! a = Some m ->
         exists m',
           objects' !! a = Some m'
           /\ LabelKeys m'
              = concat (replicate (count_occ Nat.eq_dec addrs a)
                          ["namespace"; "poddisruptionbudget"])
                ++ LabelKeys m
           /\ LabelValues m'
              = concat (replicate (count_occ Nat.eq_dec addrs a)
                          [Store.Namespace (Store.Meta p);
                           Store.Name (Store.Meta p)])
                ++ LabelValues m
           /\ Value m' = Value m
           /\ (~ In a addrs -> m' = m).
Proof.
  intros Hf Hms Hvalid.
  rewrite wrapPodDisruptionBudgetFunc_unfold, Hf, Hms.
  destruct (loop_ok (Some p) _ (wrap_body_Ok (Some p)) p (map Some addrs) eq_refl
              0 (objects family)) as [objs' Hok].
  { apply List.Forall_forall. intros m Hm.
    apply in_map_iff in Hm as (a & <- & Ha). exists a. split; [done|].
    by apply Hvalid. }
  rewrite Hok. exists objs'. split; [done|].
  pose proof (loop_returns (Some p) _ (wrap_body_Ok (Some p)) _ _ _ _ Hok)
    as (_ & _ & Hlen & _).
  split; [exact Hlen|]. intros a m Hm.
  pose proof (loop_counts (Some p) _ (wrap_body_Ok (Some p)) p addrs eq_refl
                _ _ _ Hok a m Hm) as Hcount.
  eexists. split; [exact Hcount|].
  destruct (iter_labelled p m (count_occ Nat.eq_dec addrs a)) as (Hk & Hv & Hval).
  split; [exact Hk|]. split; [exact Hv|]. split; [exact Hval|].
  intros Hnot. apply (count_occ_not_In Nat.eq_dec) in Hnot. by rewrite Hnot.
Qed.

Lemma each_pointer_is_labelled_once_per_entry_witness :
  exists objects',
    Store.wrapPodDisruptionBudgetFunc
      (fun _ => Ok (Some
         {| Metrics := [Some 0; Some 0];
            objects := [
              {| LabelKeys := ["label_app"]; LabelValues := ["web"]; Value := 1 |};
              {| LabelKeys := []; LabelValues := []; Value := 2 |}] |}))
      (Store.ObjPodDisruptionBudget (Some Examples.pdb))
      = Ok (Some {| Metrics := [Some 0; Some 0]; objects := objects' |})
    /\ objects'
       = [ {| LabelKeys := ["namespace"; "poddisruptionbudget";
                            "namespace"; "poddisruptionbudget"; "label_app"];
              LabelValues := ["prod"; "web"; "prod"; "web"; "web"];
              Value := 1 |};
           {| LabelKeys := []; LabelValues := []; Value := 2 |} ].
Proof.
  destruct (each_pointer_is_labelled_once_per_entry
              (fun _ => Ok (Some
                 {| Metrics := [Some 0; Some 0];
                    objects := [
                      {| LabelKeys := ["label_app"]; LabelValues := ["web"];
                         Value := 1 |};
                      {| LabelKeys := []; LabelValues := []; Value := 2 |}] |}))
              Examples.pdb
              {| Metrics := [Some 0; Some 0];
                 objects := [
                   {| LabelKeys := ["label_app"]; LabelValues := ["web"];
                      Value := 1 |};
                   {| LabelKeys := []; LabelValues := []; Value := 2 |}] |}
              [0; 0])
    as (objects' & Hrun & _).
  - reflexivity.
  - reflexivity.
  - intros a Ha. simpl in *. lia.
  - exists objects'. split; [exact Hrun|].
    vm_compute in Hrun. by injection Hrun as <-.
Defined.

(** ** [poddisruptionbudget.go]: what the eight families render *)

(** X9: which field feeds which family.  On a PodDisruptionBudget each of
    the eight generators returns a family, under these names and in this
    order: the creation time in Unix seconds, and no metric at all when the
    creation time is zero; the five status counters; and for annotations
    and labels one metric of value 1 whose keys and values are those
    converted from the object's annotations (under the prefix annotation
    and the annotation allow list) and labels (prefix label, label allow
    list).  Every metric carries namespace and poddisruptionbudget in front
    of its keys, and the namespace and name of the object in front of its
    values. *)
Theorem podDisruptionBudgetMetricFamilies_render
    (createPrometheusLabelKeysValues :
       string -> gmap string string -> list string -> list string * list string)
    (descPersistentVolumeAnnotationsHelp : string)
    (allowAnnotationsList allowLabelsList : list string)
    (p : Store.PodDisruptionBudget) :
  map (fun f => (Name f, GenerateFunc f (Store.ObjPodDisruptionBudget (Some p))))
    (Store.podDisruptionBudgetMetricFamilies (M := result)
       createPrometheusLabelKeysValues descPersistentVolumeAnnotationsHelp
       allowAnnotationsList allowLabelsList)
  = [ ("kube_poddisruptionbudget_created",
       Ok (Some match Store.CreationTimestamp (Store.Meta p) with
                | Some unix => gauge p [] [] unix
                | None => no_metric
                end));
      ("kube_poddisruptionbudget_status_current_healthy",
       Ok (Some (gauge p [] [] (Store.CurrentHealthy (Store.Status p)))));
      ("kube_poddisruptionbudget_status_desired_healthy",
       Ok (Some (gauge p [] [] (Store.DesiredHealthy (Store.Status p)))));
      ("kube_poddisruptionbudget_status_pod_disruptions_allowed",
       Ok (Some (gauge p [] [] (Store.DisruptionsAllowed (Store.Status p)))));
      ("kube_poddisruptionbudget_status_expected_pods",
       Ok (Some (gauge p [] [] (Store.ExpectedPods (Store.Status p)))));
      ("kube_poddisruptionbudget_status_observed_generation",
       Ok (Some (gauge p [] [] (Store.ObservedGeneration (Store.Status p)))));
      ("kube_poddisruptionbudget_annotations",
       Ok (Some (gauge p
                   (createPrometheusLabelKeysValues "annotation"
                      (Store.Annotations (Store.Meta p)) allowAnnotationsList).1
                   (createPrometheusLabelKeysValues "annotation"
                      (Store.Annotations (Store.Meta p)) allowAnnotationsList).2
                   1)));
      ("kube_poddisruptionbudget_labels",
       Ok (Some (gauge p
                   (createPrometheusLabelKeysValues "label"
                      (Store.Labels (Store.Meta p)) allowLabelsList).1
                   (createPrometheusLabelKeysValues "label"
                      (Store.Labels (Store.Meta p)) allowLabelsList).2
                   1))) ].
Proof.
  destruct p as [[name ns created annotations labels] status]. vm_compute.
  destruct (createPrometheusLabelKeysValues "annotation" annotations
              allowAnnotationsList) as [ak av].
  destruct (createPrometheusLabelKeysValues "label" labels allowLabelsList)
    as [lk lv].
  destruct created as [unix|]; vm_compute; reflexivity.
Qed.

Lemma podDisruptionBudgetMetricFamilies_render_all
    (createPrometheusLabelKeysValues :
       string -> gmap string string -> list string -> list string * list string)
    (descPersistentVolumeAnnotationsHelp : string)
    (allowAnnotationsList allowLabelsList : list string)
    (p : Store.PodDisruptionBudget) :
  Forall (fun f => exists block,
            GenerateFunc f (Store.ObjPodDisruptionBudget (Some p)) = Ok block)
    (Store.podDisruptionBudgetMetricFamilies (M := result)
       createPrometheusLabelKeysValues descPersistentVolumeAnnotationsHelp
       allowAnnotationsList allowLabelsList).
Proof.
  destruct p as [[name ns created annotations labels] status].
  repeat apply Forall_cons_2; try apply Forall_nil_2; vm_compute.
  - destruct created; eexists; reflexivity.
  - eexists; reflexivity.
  - eexists; reflexivity.
  - eexists; reflexivity.
  - eexists; reflexivity.
  - eexists; reflexivity.
  - destruct (createPrometheusLabelKeysValues "annotation" annotations
                allowAnnotationsList); eexists; reflexivity.
  - destruct (createPrometheusLabelKeysValues "label" labels allowLabelsList);
      eexists; reflexivity.
Qed.

Lemma Forall2_In_exists {A B} (P : A -> B -> Prop) (l : list A) (k : list B)
    (a : A) :
  Forall2 P l k -> In a l -> exists b, P a b.
Proof. induction 1 as [|x y l k HP _ IH]; [intros []|intros [<-|Ha]; eauto]. Qed.

(** X10: the eight generators need a PodDisruptionBudget.  Each of them
    returns on an object exactly when the object is a non-nil pointer to a
    PodDisruptionBudget; on a value of any other type and on a nil
    interface the type assertion panics, on a typed nil pointer the first
    field access does.  Hence the function composed of any of them returns
    on no other object. *)
Theorem podDisruptionBudget_generators_need_the_object
    (createPrometheusLabelKeysValues :
       string -> gmap string string -> list string -> list string * list string)
    (descPersistentVolumeAnnotationsHelp : string)
    (allowAnnotationsList allowLabelsList : list string)
    (f : FamilyGenerator result Store.object (option Family))
    (obj : Store.object) :
  In f (Store.podDisruptionBudgetMetricFamilies
          createPrometheusLabelKeysValues descPersistentVolumeAnnotationsHelp
          allowAnnotationsList allowLabelsList) ->
  GenerateFunc f obj
  = match obj with
    | Store.ObjPodDisruptionBudget (Some p) =>
        GenerateFunc f (Store.ObjPodDisruptionBudget (Some p))
    | Store.ObjPodDisruptionBudget None => Panic NilDereference
    | _ => Panic InterfaceConversion
    end
  /\ ((exists block, GenerateFunc f obj = Ok block)
      <-> exists p, obj = Store.ObjPodDisruptionBudget (Some p))
  /\ (forall families blocks,
        In f families ->
        composeMetricGenFuncs families obj = Ok blocks ->
        exists p, obj = Store.ObjPodDisruptionBudget (Some p)).
Proof.
  intros Hf.
  assert ((exists block, GenerateFunc f obj = Ok block)
          <-> exists p, obj = Store.ObjPodDisruptionBudget (Some p)) as Hiff.
  { split.
    - intros [block Hblock]. destruct obj as [[p|]| |]; [eauto| | |];
        exfalso; simpl in Hf;
        repeat (destruct Hf as [<-|Hf]; [discriminate Hblock|]); destruct Hf.
    - intros [p ->].
      pose proof (podDisruptionBudgetMetricFamilies_render_all
                    createPrometheusLabelKeysValues
                    descPersistentVolumeAnnotationsHelp
                    allowAnnotationsList allowLabelsList p) as Hall.
      rewrite List.Forall_forall in Hall. by apply Hall. }
  split; [|split; [exact Hiff|]].
  - destruct obj as [[p|]| |]; [done| | |]; simpl in Hf;
      repeat (destruct Hf as [<-|Hf]; [reflexivity|]); destruct Hf.
  - intros families blocks Hin Hrun. apply Hiff.
    apply composeMetricGenFuncs_inv in Hrun.
    destruct (Forall2_In_exists _ _ _ f Hrun Hin) as (b & block & Hblock & _).
    eauto.
Qed.

Lemma podDisruptionBudget_generators_need_the_object_witness :
  exists f : FamilyGenerator result Store.object (option Family),
    Name f = "kube_poddisruptionbudget_created"
    /\ GenerateFunc f (Store.ObjOther "*v1.Pod") = Panic InterfaceConversion.
Proof.
  exists (List.hd Examples.broken Examples.pdbFamilies).
  split; [reflexivity|].
  destruct (podDisruptionBudget_generators_need_the_object
              (fun _ _ _ => ([], [])) Store.descPodDisruptionBudgetAnnotationsHelp
              [] [] (List.hd Examples.broken Examples.pdbFamilies)
              (Store.ObjOther "*v1.Pod")) as [Hpanic _].
  - left. reflexivity.
  - exact Hpanic.
Defined.

(** ** [main.go]: the collectors flag *)

Section CollectorsFlag.
Import Main.

Local Abbreviation zero := {| Group := ""; Version := ""; Resource := "" |}.
Local Abbreviation does_not_exist col :=
  (Fatal ("Collector " +:+ quote +:+ col +:+ quote +:+ " does not exist")).
Local Abbreviation set_body :=
  (fun (_ : nat) (col : string) (s : collectorSet) =>
     if decide (col ∈ availableCollectors)
     then mret (M := result) (<[col := zero]> s)
     else mpanic (does_not_exist col)).

Lemma strings_Split_nonempty s sep : strings_Split s sep <> [].
Proof.
  destruct s as [|ch s]; simpl; [done|].
  destruct (Ascii.eqb ch sep); [done|]. by destruct (strings_Split s sep).
Qed.

Lemma Set_loop_ok (cols : list string) :
  Forall (fun col => col ∈ availableCollectors) cols ->
  forall i c,
    for_range set_body i cols c
    = Ok (fold_left (fun s col => <[col := zero]> s) cols c).
Proof.
  induction 1 as [|col cols Hcol _ IH]; intros i c; simpl; [done|].
  rewrite decide_True by done. simpl. apply IH.
Qed.

Lemma Set_loop_fatal (pre post : list string) (col : string) :
  Forall (fun col => col ∈ availableCollectors) pre ->
  col ∉ availableCollectors ->
  forall i c, for_range set_body i (pre ++ col :: post) c = Panic (does_not_exist col).
Proof.
  intros Hpre Hcol. induction Hpre as [|x pre Hx _ IH]; intros i c; simpl.
  - by rewrite decide_False by done.
  - rewrite decide_True by done. simpl. apply IH.
Qed.

(** Either every piece is available, or there is a first one that is not. *)
Lemma available_or_first_unknown (cols : list string) :
  Forall (fun col => col ∈ availableCollectors) cols
  \/ exists pre col post,
       cols = pre ++ col :: post
       /\ Forall (fun col => col ∈ availableCollectors) pre
       /\ col ∉ availableCollectors.
Proof.
  induction cols as [|x cols IH]; [by left|].
  destruct (decide (x ∈ availableCollectors)) as [Hx|Hx].
  - destruct IH as [Hall|(pre & col & post & -> & Hpre & Hcol)].
    + left. by constructor.
    + right. exists (x :: pre), col, post. split; [done|]. split; [|done].
      by constructor.
  - right. exists [], x, cols. by repeat split.
Qed.

Lemma set_fold_lookup (cols : list string) :
  forall (c : collectorSet) k,
    fold_left (fun s col => <[col := zero]> s) cols c !! k
    = if decide (k ∈ cols) then Some zero else c !! k.
Proof.
  unfold collectorSet.
  induction cols as [|col cols IH]; intros c k; simpl; [done|].
  rewrite IH. destruct (decide (k ∈ cols)) as [Hin|Hout].
  - rewrite decide_True; [done|by right].
  - destruct (decide (col = k)) as [->|Hne].
    + rewrite lookup_insert_eq. rewrite decide_True; [done|by left].
    + rewrite lookup_insert_ne by done. rewrite decide_False; [done|].
      intros [?|?]%elem_of_cons; done.
Qed.
End CollectorsFlag.

(** X11: what the collectors flag accepts.  [Set] returns exactly when every
    comma-separated piece of the value is the name of an available
    collector.  It then has added each piece as a key with the zero
    resource, overwriting what was stored under it, has left the other keys
    alone, and the set is not empty.  Otherwise the process ends with a
    message naming the first piece that is not available; the empty value,
    whose only piece is the empty name, always ends it. *)
Theorem Set_accepts_available_names (value : string) (c : Main.collectorSet) :
  ((exists s, Main.Set_ value c = Ok s)
   <-> Forall (fun col => col ∈ Main.availableCollectors)
         (strings_Split value (ascii_of_nat 44)))
  /\ (forall s, Main.Set_ value c = Ok s ->
        (forall k, In k (strings_Split value (ascii_of_nat 44)) ->
           s !! k = Some {| Main.Group := ""; Main.Version := ""; Main.Resource := "" |})
        /\ (forall k, ~ In k (strings_Split value (ascii_of_nat 44)) ->
              s !! k = c !! k)
        /\ s <> ∅)
  /\ (forall p, Main.Set_ value c = Panic p ->
        exists pre col post,
          strings_Split value (ascii_of_nat 44) = pre ++ col :: post
          /\ Forall (fun col => col ∈ Main.availableCollectors) pre
          /\ (col ∉ Main.availableCollectors)
          /\ p = Fatal ("Collector " +:+ Main.quote +:+ col +:+ Main.quote
                          +:+ " does not exist"))
  /\ Main.Set_ "" c
     = Panic (Fatal ("Collector " +:+ Main.quote +:+ "" +:+ Main.quote
                       +:+ " does not exist")).
Proof.
  unfold Main.Set_.
  destruct (available_or_first_unknown (strings_Split value (ascii_of_nat 44)))
    as [Hall|(pre & col & post & Heq & Hpre & Hcol)].
  - rewrite (Set_loop_ok _ Hall 0 c). split; [|split; [|split]].
    + split; [done|eauto].
    + intros s [= <-]. split; [|split].
      * intros k Hk. rewrite set_fold_lookup.
        rewrite decide_True; [done|by apply list_elem_of_In].
      * intros k Hk. rewrite set_fold_lookup.
        rewrite decide_False; [done|by rewrite list_elem_of_In].
      * destruct (strings_Split value (ascii_of_nat 44)) as [|k cols] eqn:Hs.
        { by apply strings_Split_nonempty in Hs. }
        intros Hempty.
        pose proof (set_fold_lookup (k :: cols) c k) as Hk.
        rewrite decide_True in Hk by (by left).
        rewrite Hempty in Hk. exact (lookup_empty_Some _ _ Hk).
    + done.
    + reflexivity.
  - rewrite Heq, (Set_loop_fatal pre post col Hpre Hcol 0 c).
    split; [|split; [|split]].
    + split; [by intros [s Hs]|].
      intros Hall. apply Forall_app in Hall as [_ Hall].
      apply Forall_cons in Hall as [Hin _]. destruct (Hcol Hin).
    + done.
    + intros p [= <-]. exists pre, col, post. rewrite <- Heq. by repeat split.
    + reflexivity.
Qed.

Section SplitJoin.

Lemma append_empty_r (s : string) : s +:+ "" = s.
Proof.
  induction s as [|ch s IH]; [done|].
  change (String ch (s +:+ "") = String ch s). by rewrite IH.
Qed.

Lemma strings_Split_app (s t : string) :
  no_comma s = true ->
  strings_Split (s +:+ t) (ascii_of_nat 44)
  = match strings_Split t (ascii_of_nat 44) with
    | [] => []
    | p :: ps => (s +:+ p) :: ps
    end.
Proof.
  induction s as [|ch s IH].
  - intros _. change ("" +:+ t) with t.
    by destruct (strings_Split t (ascii_of_nat 44)).
  - simpl. intros [Hch Hs]%andb_prop. apply negb_true_iff in Hch.
    change (String ch s +:+ t) with (String ch (s +:+ t)). simpl.
    change (ascii_of_nat 44) with ","%char in *. rewrite Hch, (IH Hs).
    destruct (strings_Split t ","%char) as [|p ps] eqn:Ht; [|done].
    by apply strings_Split_nonempty in Ht.
Qed.

Lemma strings_Split_Join (l : list string) :
  l <> [] ->
  Forall (fun s => no_comma s = true) l ->
  strings_Split (strings_Join l ",") (ascii_of_nat 44) = l.
Proof.
  induction l as [|s l IH]; [done|]. intros _ Hall.
  apply Forall_cons in Hall as [Hs Hall].
  destruct l as [|s' l].
  - simpl. transitivity (strings_Split (s +:+ "") (ascii_of_nat 44)).
    { by rewrite append_empty_r. }
    rewrite (strings_Split_app s "" Hs). simpl. by rewrite append_empty_r.
  - change (strings_Join (s :: s' :: l) ",")
      with (s +:+ String ","%char (strings_Join (s' :: l) ",")).
    rewrite (strings_Split_app _ _ Hs).
    change (strings_Split (String ","%char (strings_Join (s' :: l) ","))
              (ascii_of_nat 44))
      with ("" :: strings_Split (strings_Join (s' :: l) ",") (ascii_of_nat 44)).
    rewrite IH by done. by rewrite append_empty_r.
Qed.

Lemma available_names_have_no_comma (k : string) :
  k ∈ Main.availableCollectors -> no_comma k = true.
Proof.
  unfold Main.availableCollectors. rewrite elem_of_list_to_set. intros Hk.
  repeat (apply elem_of_cons in Hk as [->|Hk]; [reflexivity|]).
  by apply elem_of_nil in Hk.
Qed.

Lemma fold_append {A} (l acc : list A) :
  fold_left (fun cols col => cols ++ [col]) l acc = acc ++ l.
Proof.
  revert acc. induction l as [|x l IH]; intros acc; simpl.
  - by rewrite app_nil_r.
  - rewrite IH. by rewrite <- app_assoc.
Qed.
End SplitJoin.

(** X12: printing a collector set and parsing it back.  Whatever the order
    in which the keys are visited, a set of available names that is not
    empty prints as a value that [Set] accepts, and parsing that value into
    an empty set gives the keys of the set back, each with the zero
    resource: the resources stored in the set are lost on the way.  The
    empty set prints as the empty value, which [Set] does not accept; and
    [isEmpty] holds of the empty set alone. *)
Theorem String_then_Set (range_keys : Main.collectorSet -> list string)
    (c : Main.collectorSet) :
  range_keys c ≡ₚ elements (dom c) ->
  dom c ⊆ Main.availableCollectors ->
  (c <> ∅ ->
   Main.Set_ (Main.String_ range_keys c) ∅
   = Ok ((fun _ => {| Main.Group := ""; Main.Version := ""; Main.Resource := "" |})
           <$> c))
  /\ (c = ∅ ->
      Main.String_ range_keys c = ""
      /\ Main.Set_ (Main.String_ range_keys c) ∅
         = Panic (Fatal ("Collector " +:+ Main.quote +:+ "" +:+ Main.quote
                           +:+ " does not exist")))
  /\ (Main.isEmpty range_keys c = true <-> c = ∅).
Proof.
  intros Hrange Havail.
  assert (Main.asSlice range_keys c = range_keys c) as Hslice.
  { unfold Main.asSlice. by rewrite fold_append. }
  assert (forall k, k ∈ range_keys c <-> is_Some (c !! k)) as Hkeys.
  { intros k. rewrite Hrange, elem_of_elements. apply elem_of_dom. }
  assert (range_keys c = [] <-> c = ∅) as Hnil.
  { unfold Main.collectorSet in *. split.
    - intros Hnone. apply map_empty. intros k.
      apply eq_None_not_Some. rewrite <- Hkeys, Hnone. apply not_elem_of_nil.
    - intros ->. apply Permutation_nil. symmetry.
      by rewrite Hrange, dom_empty_L, elements_empty. }
  split; [|split].
  - intros Hne. unfold Main.Set_, Main.String_. rewrite Hslice.
    rewrite strings_Split_Join.
    + rewrite Set_loop_ok.
      * f_equal. apply map_eq. intros k. rewrite set_fold_lookup.
        unfold Main.collectorSet in *. rewrite lookup_fmap.
        destruct (decide (k ∈ range_keys c)) as [Hk|Hk].
        -- apply Hkeys in Hk as [gvr ->]. done.
        -- rewrite Hkeys, <- eq_None_not_Some in Hk. by rewrite Hk.
      * apply Forall_forall. intros k Hk. apply Havail.
        apply elem_of_dom. by apply Hkeys.
    + by rewrite Hnil.
    + apply Forall_forall. intros k Hk. apply available_names_have_no_comma.
      apply Havail. apply elem_of_dom. by apply Hkeys.
  - intros Hc. apply Hnil in Hc. unfold Main.String_. rewrite Hslice, Hc.
    split; reflexivity.
  - unfold Main.isEmpty. rewrite Hslice, bool_decide_eq_true, <- Hnil.
    by destruct (range_keys c).
Qed.

Lemma String_then_Set_witness :
  Main.Set_
    (Main.String_ (fun c => elements (dom c))
       (<["services" := {| Main.Group := ""; Main.Version := "v1";
                           Main.Resource := "services" |}]>
          (<["pods" := {| Main.Group := ""; Main.Version := "v1";
                          Main.Resource := "pods" |}]> ∅)))
    ∅
  = Ok (<["services" := {| Main.Group := ""; Main.Version := ""; Main.Resource := "" |}]>
          (<["pods" := {| Main.Group := ""; Main.Version := ""; Main.Resource := "" |}]>
             ∅)).
Proof.
  destruct (String_then_Set (fun c => elements (dom c))
              (<["services" := {| Main.Group := ""; Main.Version := "v1";
                                  Main.Resource := "services" |}]>
                 (<["pods" := {| Main.Group := ""; Main.Version := "v1";
                                 Main.Resource := "pods" |}]> ∅)))
    as [Hset _].
  - reflexivity.
  - unfold Main.collectorSet. rewrite !dom_insert_L, dom_empty_L.
    unfold Main.availableCollectors. intros k Hk.
    apply elem_of_list_to_set.
    apply elem_of_union in Hk as [Hk|Hk];
      [|apply elem_of_union in Hk as [Hk|Hk]; [|by apply elem_of_empty in Hk]];
      apply elem_of_singleton in Hk as ->; repeat constructor.
  - rewrite Hset.
    + vm_compute. reflexivity.
    + intros Hempty. apply (f_equal (fun m => m !! "pods")) in Hempty.
      vm_compute in Hempty. discriminate Hempty.
Defined.

(** ** [main.go]: the resources the server supports *)

Section SupportedResources.
Import Main.
Context {Registerer schema_GroupVersion : Type}.
Variable ParseGroupVersion : string -> schema_GroupVersion + error.
Variable WithResource : schema_GroupVersion -> string -> GroupVersionResource.

Local Abbreviation Event := (@Event Registerer).
Local Abbreviation parses := (parses ParseGroupVersion).
Local Abbreviation served_by lists :=
  (fun k : GroupVersionResource =>
     exists l version r,
       In (Some l) lists
       /\ ParseGroupVersion (GroupVersion l) = inl version
       /\ In r (APIResources l)
       /\ k = WithResource version (Name r)).

Lemma resources_loop version (rs : list APIResource) :
  forall allResources : gmap GroupVersionResource bool,
    let m := fold_left (fun allResources apiResource =>
                 <[WithResource version (Name apiResource) := true]> allResources)
               rs allResources in
    (forall k v, m !! k = Some v -> v = true \/ allResources !! k = Some v)
    /\ (forall k, is_Some (m !! k)
                  <-> is_Some (allResources !! k)
                      \/ exists r, In r rs /\ k = WithResource version (Name r)).
Proof.
  induction rs as [|r rs IH]; intros allResources; simpl.
  - split; [auto|]. intros k. split; [auto|]. by intros [?|(r & [] & _)].
  - destruct (IH (<[WithResource version (Name r) := true]> allResources))
      as [Htrue Hkeys].
    split.
    + intros k v Hk. destruct (Htrue k v Hk) as [?|Hk']; [by left|].
      destruct (decide (WithResource version (Name r) = k)) as [<-|Hne].
      * rewrite lookup_insert_eq in Hk'. left. congruence.
      * rewrite lookup_insert_ne in Hk' by done. by right.
    + intros k. rewrite Hkeys.
      destruct (decide (WithResource version (Name r) = k)) as [<-|Hne].
      * rewrite lookup_insert_eq. split; [|eauto]. intros _. right. eauto.
      * rewrite lookup_insert_ne by done. split.
        -- intros [?|(r' & Hr' & ->)]; [by left|]. right. eauto.
        -- intros [?|(r' & [<-|Hr'] & ->)]; [by left|done|]. right. eauto.
Qed.

Lemma collectResources_ok (lists : list (option APIResourceList)) :
  Forall parses lists ->
  forall (allResources : gmap GroupVersionResource bool) (events : list Event),
    exists m,
      collectResources ParseGroupVersion WithResource lists allResources events
      = (Ok (Some m, None), events)
      /\ (forall k v, m !! k = Some v -> v = true \/ allResources !! k = Some v)
      /\ (forall k, is_Some (m !! k)
                    <-> is_Some (allResources !! k) \/ served_by lists k).
Proof.
  induction 1 as [|l lists (l' & version & -> & Hparse) _ IH];
    intros allResources events.
  - exists allResources. split; [done|]. split; [auto|].
    intros k. split; [auto|]. by intros [?|(l & version & r & [] & _)].
  - destruct (resources_loop version (APIResources l') allResources)
      as [Htrue1 Hkeys1].
    destruct (IH (fold_left (fun allResources apiResource =>
                      <[WithResource version (Name apiResource) := true]> allResources)
                    (APIResources l') allResources) events)
      as (m & Hrun & Htrue & Hkeys).
    exists m. split; [|split].
    + simpl. unfold mbind, Exec_bind. simpl. rewrite Hparse. exact Hrun.
    + intros k v Hk. destruct (Htrue k v Hk) as [?|Hk']; [by left|].
      by apply Htrue1.
    + intros k. rewrite Hkeys, Hkeys1. split.
      * intros [[?|(r & Hr & ->)]|(l & gv & r & Hl & Hgv & Hr & ->)].
        -- by left.
        -- right. exists l', version, r. split; [by left|done].
        -- right. exists l, gv, r. split; [by right|done].
      * intros [?|(l & gv & r & [[= ->]|Hl] & Hgv & Hr & ->)].
        -- left. by left.
        -- left. right. exists r. split; [done|]. congruence.
        -- right. exists l, gv, r. done.
Qed.

Lemma collectResources_error (pre post : list (option APIResourceList))
    (l : APIResourceList) (err : error) :
  Forall parses pre ->
  ParseGroupVersion (GroupVersion l) = inr err ->
  forall (allResources : gmap GroupVersionResource bool) (events : list Event),
    collectResources ParseGroupVersion WithResource (pre ++ Some l :: post)
      allResources events
    = (Ok (None, Some err), events).
Proof.
  intros Hpre Herr.
  induction Hpre as [|x pre (l' & version & -> & Hparse) _ IH];
    intros allResources events; simpl; unfold mbind, Exec_bind; simpl.
  - by rewrite Herr.
  - rewrite Hparse. apply IH.
Qed.

Lemma collectResources_nil (pre post : list (option APIResourceList)) :
  Forall parses pre ->
  forall (allResources : gmap GroupVersionResource bool) (events : list Event),
    collectResources ParseGroupVersion WithResource (pre ++ None :: post)
      allResources events
    = (Panic NilDereference, events).
Proof.
  intros Hpre.
  induction Hpre as [|x pre (l' & version & -> & Hparse) _ IH];
    intros allResources events; simpl; unfold mbind, Exec_bind; simpl.
  - done.
  - rewrite Hparse. apply IH.
Qed.

(** [getSupportedResources] on a client, up to its loop. *)
Lemma getSupportedResources_unfold (client : Client) (events : list Event) :
  getSupportedResources ParseGroupVersion WithResource (Some client) events
  = if decide (length (ServerResources client).1 = 0)
    then (Ok (None, Some "unable to get any supported resources from server"),
          events ++ handled client)
    else collectResources ParseGroupVersion WithResource
           (ServerResources client).1 ∅ (events ++ handled client).
Proof.
  unfold getSupportedResources, handled. simpl. unfold mbind, Exec_bind. simpl.
  destruct (ServerResources client) as [[|l lists] [e|]]; simpl;
    unfold emit; simpl; rewrite ?app_nil_r; reflexivity.
Qed.
End SupportedResources.

(** X13: the map of supported resources.  With no resource list from the
    server the function returns an error and no map.  When every list is
    there and its group version parses, it returns a map and no error, even
    if discovery itself reported an error, which is only handed to the error
    handlers; the map holds no entry that is false, and its keys are exactly
    the resources of the lists, each under the parsed group version of its
    list.  The first group version that does not parse ends the function
    with the parser's error and no map.  A nil client and a nil list
    panic. *)
Theorem getSupportedResources_outcomes {Registerer schema_GroupVersion : Type}
    (ParseGroupVersion : string -> schema_GroupVersion + Main.error)
    (WithResource : schema_GroupVersion -> string -> Main.GroupVersionResource)
    (client : Main.Client) (events : list (@Main.Event Registerer)) :
  ((Main.ServerResources client).1 = [] ->
   Main.getSupportedResources ParseGroupVersion WithResource (Some client) events
   = (Ok (None, Some "unable to get any supported resources from server"),
      events ++ handled client))
  /\ ((Main.ServerResources client).1 <> [] ->
      Forall (parses ParseGroupVersion) (Main.ServerResources client).1 ->
      exists m,
        Main.getSupportedResources ParseGroupVersion WithResource (Some client) events
        = (Ok (Some m, None), events ++ handled client)
        /\ (forall k v, m !! k = Some v -> v = true)
        /\ (forall k, is_Some (m !! k)
              <-> served ParseGroupVersion WithResource client k))
  /\ (forall pre l post err,
        (Main.ServerResources client).1 = pre ++ Some l :: post ->
        Forall (parses ParseGroupVersion) pre ->
        ParseGroupVersion (Main.GroupVersion l) = inr err ->
        Main.getSupportedResources ParseGroupVersion WithResource (Some client) events
        = (Ok (None, Some err), events ++ handled client))
  /\ (forall pre post,
        (Main.ServerResources client).1 = pre ++ None :: post ->
        Forall (parses ParseGroupVersion) pre ->
        Main.getSupportedResources ParseGroupVersion WithResource (Some client) events
        = (Panic NilDereference, events ++ handled client))
  /\ Main.getSupportedResources ParseGroupVersion WithResource None events
     = (Panic NilDereference, events).
Proof.
  rewrite getSupportedResources_unfold.
  split; [|split; [|split; [|split]]].
  - by intros ->.
  - intros Hne Hall.
    rewrite decide_False by (by destruct (Main.ServerResources client).1).
    destruct (collectResources_ok ParseGroupVersion WithResource _ Hall ∅
                (events ++ handled client)) as (m & Hrun & Htrue & Hkeys).
    exists m. split; [exact Hrun|]. split.
    + intros k v Hk. destruct (Htrue k v Hk) as [?|Hk']; [done|].
      by rewrite lookup_empty in Hk'.
    + intros k. rewrite Hkeys. split; [|by right].
      intros [Hk|?]; [|done]. rewrite lookup_empty in Hk. by destruct Hk.
  - intros pre l post err Heq Hpre Herr.
    rewrite decide_False by (rewrite Heq, length_app; simpl; lia).
    rewrite Heq. by apply collectResources_error.
  - intros pre post Heq Hpre.
    rewrite decide_False by (rewrite Heq, length_app; simpl; lia).
    rewrite Heq. by apply collectResources_nil.
  - reflexivity.
Qed.

(** ** [main.go]: which collectors are registered *)

Section ExecLoop.
Context {W A B : Type}.
Variable body : nat -> A -> list B -> Exec (list W) (list B).
Variable out : A -> list B.
Variable trace : A -> list W.
Hypothesis body_step : forall i x acc events,
  body i x acc events = (Ok (acc ++ out x), events ++ trace x).

(** A loop whose turns only append, to its result and to the events. *)
Lemma appending_loop (xs : list A) :
  forall i acc events,
    for_range body i xs acc events
    = (Ok (acc ++ flat_map out xs), events ++ flat_map trace xs).
Proof.
  induction xs as [|x xs IH]; intros i acc events; simpl.
  - by rewrite !app_nil_r.
  - unfold mbind, Exec_bind. rewrite body_step, IH. by rewrite <- !app_assoc.
Qed.
End ExecLoop.

Section Register.
Import Main.
Context {Registerer schema_GroupVersion : Type}.
Variable ParseGroupVersion : string -> schema_GroupVersion + error.
Variable WithResource : schema_GroupVersion -> string -> GroupVersionResource.
Variable range_keys : collectorSet -> list string.
Variable collectors : Resources.
Variable registry : Registerer.
Variable kubeClient : option Client.
Variable namespace : string.
Variable resourceMap : option (gmap GroupVersionResource bool).

Local Abbreviation Event := (@Event Registerer).

(** The registration function called for an enabled name, if any. *)
Local Abbreviation registered c :=
  (match defaultCollectors collectors !! c with
   | Some gvr => if (index2 resourceMap gvr).1
                 then availableCollectorFuncs !! c else None
   | None => None
   end).

Local Abbreviation register_body :=
  (fun (_ : nat) (c : string) (activeCollectors : list string) =>
     _ ← emit (Info ("enabledCollectors is " +:+ c));
     let f := availableCollectorFuncs !! c in
     if defaultCollectors collectors !! c is Some gvr then
       let '(result, sure) := index2 resourceMap gvr in
       if negb result || negb sure then mret activeCollectors
       else
         match f with
         | Some f' =>
             if result then
               _ ← emit (Call f' registry kubeClient namespace);
               mret (activeCollectors ++ [c])
             else mret activeCollectors
         | None => mret activeCollectors
         end
     else mret (M := Exec (list Event)) activeCollectors).

Lemma index2_sure gvr :
  (index2 resourceMap gvr).1 = true -> (index2 resourceMap gvr).2 = true.
Proof.
  unfold index2. destruct resourceMap as [m|]; [|done].
  by destruct (m !! gvr).
Qed.

Lemma register_step (i : nat) (c : string) (active : list string)
    (events : list Event) :
  register_body i c active events
  = (Ok (active ++ match registered c with Some _ => [c] | None => [] end),
     events ++ Info ("enabledCollectors is " +:+ c)
            :: match registered c with
               | Some f => [Call f registry kubeClient namespace]
               | None => []
               end).
Proof.
  unfold mbind, Exec_bind, emit.
  destruct (defaultCollectors collectors !! c) as [gvr|];
    [|unfold mret, Exec_ret; by rewrite app_nil_r].
  pose proof (index2_sure gvr) as Hsure.
  destruct (availableCollectorFuncs !! c) as [f|];
    destruct (index2 resourceMap gvr) as [[|] sure]; cbn [fst snd] in *;
    try rewrite Hsure by done; cbn [negb orb];
    unfold mret, Exec_ret; rewrite <- ?app_assoc, ?app_nil_r; reflexivity.
Qed.

Lemma register_loop (keys : list string) :
  forall (i : nat) (active : list string) (events : list Event),
    for_range register_body i keys active events
    = (Ok (active ++ flat_map (fun c => match registered c with
                                        | Some _ => [c]
                                        | None => []
                                        end) keys),
       events ++ flat_map (fun c =>
                   Info ("enabledCollectors is " +:+ c)
                   :: match registered c with
                      | Some f => [Call f registry kubeClient namespace]
                      | None => []
                      end) keys).
Proof.
  apply (appending_loop register_body _ _ register_step).
Qed.

(** [registerCollectors] after the call of [getSupportedResources]. *)
Lemma registerCollectors_unfold (enabledCollectors : collectorSet)
    (events events1 : list Event) (err : option error) :
  getSupportedResources ParseGroupVersion WithResource kubeClient events
  = (Ok (resourceMap, err), events1) ->
  registerCollectors ParseGroupVersion WithResource range_keys collectors
    registry kubeClient enabledCollectors namespace events
  = let active := flat_map (fun c => match registered c with
                                     | Some _ => [c]
                                     | None => []
                                     end) (range_keys enabledCollectors) in
    (Ok tt,
     events1
     ++ match err with Some e => [Error e] | None => [] end
     ++ flat_map (fun c =>
          Info ("enabledCollectors is " +:+ c)
          :: match registered c with
             | Some f => [Call f registry kubeClient namespace]
             | None => []
             end) (range_keys enabledCollectors)
     ++ [Info ("Active collectors: " +:+ strings_Join active ",")]).
Proof.
  intros Hget. unfold registerCollectors.
  unfold mbind at 1. unfold Exec_bind at 1. rewrite Hget. cbv beta iota.
  destruct err as [e|].
  - unfold mbind at 1. unfold Exec_bind at 1. unfold emit at 1. cbv beta iota.
    unfold mbind at 1. unfold Exec_bind at 1.
    pose proof (register_loop (range_keys enabledCollectors) 0 []
                  (events1 ++ [Error e])) as Hloop.
    cbv zeta in Hloop. rewrite Hloop. cbv beta iota zeta. unfold emit.
    cbn [app]. by rewrite <- !app_assoc.
  - unfold mbind at 1. unfold Exec_bind at 1. unfold mret at 1.
    unfold Exec_ret at 1. cbv beta iota.
    unfold mbind at 1. unfold Exec_bind at 1.
    pose proof (register_loop (range_keys enabledCollectors) 0 [] events1)
      as Hloop.
    cbv zeta in Hloop. rewrite Hloop. cbv beta iota zeta. unfold emit.
    cbn [app]. by rewrite <- !app_assoc.
Qed.

Lemma default_names_are_available c gvr :
  defaultCollectors collectors !! c = Some gvr ->
  is_Some (availableCollectorFuncs !! c).
Proof.
  unfold defaultCollectors. simpl. intros H.
  repeat (apply lookup_insert_Some in H as [[<- _]|[_ H]];
          [vm_compute; eauto|]).
  destruct (lookup_empty_Some _ _ H).
Qed.

Lemma registered_Some c f :
  registered c = Some f
  <-> availableCollectorFuncs !! c = Some f
      /\ exists gvr m,
           defaultCollectors collectors !! c = Some gvr
           /\ resourceMap = Some m /\ m !! gvr = Some true.
Proof.
  unfold index2. split.
  - destruct (defaultCollectors collectors !! c) as [gvr|]; [|done].
    destruct resourceMap as [m|]; [|done].
    destruct (m !! gvr) as [[|]|] eqn:Hm; try done.
    simpl. intros Hf. split; [done|]. by exists gvr, m.
  - intros (Hf & gvr & m & -> & -> & ->). done.
Qed.

Lemma in_calls (keys : list string) f reg kc n :
  In (Call f reg kc n)
    (flat_map (fun c =>
       Info ("enabledCollectors is " +:+ c)
       :: match registered c with
          | Some f => [Call f registry kubeClient namespace]
          | None => []
          end) keys)
  <-> reg = registry /\ kc = kubeClient /\ n = namespace
      /\ exists c, In c keys /\ registered c = Some f.
Proof.
  rewrite in_flat_map. split.
  - intros (c & Hc & [Hinfo|Hcall]); [done|].
    destruct (registered c) as [f'|] eqn:Hf; [|done].
    destruct Hcall as [[= <- <- <- <-]|[]]. eauto 10.
  - intros (-> & -> & -> & c & Hc & Hf). exists c. split; [done|].
    right. rewrite Hf. by left.
Qed.

Lemma in_active (keys : list string) c :
  In c (flat_map (fun c => match registered c with
                           | Some _ => [c]
                           | None => []
                           end) keys)
  <-> In c keys /\ is_Some (registered c).
Proof.
  rewrite in_flat_map. split.
  - intros (c' & Hc' & Hin). destruct (registered c') as [f|] eqn:Hf; [|done].
    destruct Hin as [<-|[]]. rewrite Hf. eauto.
  - intros [Hc [f Hf]]. exists c. split; [done|]. rewrite Hf. by left.
Qed.

Lemma active_NoDup (keys : list string) :
  NoDup keys ->
  NoDup (flat_map (fun c => match registered c with
                            | Some _ => [c]
                            | None => []
                            end) keys).
Proof.
  induction 1 as [|c keys Hc _ IH]; cbn [flat_map]; [constructor|].
  destruct (registered c) as [f|] eqn:Hf; [|done]. cbn [app].
  constructor; [|done]. rewrite list_elem_of_In, in_active.
  intros [Hin _]. by apply Hc, list_elem_of_In.
Qed.
End Register.

Section RegisterOutcome.
Import Main.
Context {Registerer schema_GroupVersion : Type}.
Variable ParseGroupVersion : string -> schema_GroupVersion + error.
Variable WithResource : schema_GroupVersion -> string -> GroupVersionResource.

Local Abbreviation Event := (@Event Registerer).

Lemma getSupportedResources_ok (client : Client) (events : list Event) :
  (ServerResources client).1 <> [] ->
  Forall (parses ParseGroupVersion) (ServerResources client).1 ->
  exists m,
    getSupportedResources ParseGroupVersion WithResource (Some client) events
    = (Ok (Some m, None), events ++ handled client)
    /\ forall k, m !! k = Some true
                 <-> served ParseGroupVersion WithResource client k.
Proof.
  intros Hne Hall. rewrite getSupportedResources_unfold.
  rewrite decide_False by (by destruct (ServerResources client).1).
  destruct (collectResources_ok ParseGroupVersion WithResource _ Hall ∅
              (events ++ handled client)) as (m & Hrun & Htrue & Hkeys).
  exists m. split; [exact Hrun|]. intros k. split.
  - intros Hk. assert (is_Some (m !! k)) as Hsome by (by rewrite Hk).
    apply Hkeys in Hsome as [Hk0|Hs]; [|exact Hs].
    rewrite lookup_empty in Hk0. by destruct Hk0.
  - intros Hk. assert (is_Some (m !! k)) as [v Hv] by (apply Hkeys; by right).
    destruct (Htrue k v Hv) as [->|Hv']; [done|].
    by rewrite lookup_empty in Hv'.
Qed.

Lemma getSupportedResources_fails (client : Client) (events : list Event)
    (e : error) :
  ((ServerResources client).1 = []
   /\ e = "unable to get any supported resources from server")
  \/ (exists pre l post,
        (ServerResources client).1 = pre ++ Some l :: post
        /\ Forall (parses ParseGroupVersion) pre
        /\ ParseGroupVersion (GroupVersion l) = inr e) ->
  getSupportedResources ParseGroupVersion WithResource (Some client) events
  = (Ok (None, Some e), events ++ handled client).
Proof.
  rewrite getSupportedResources_unfold.
  intros [[Hnil ->]|(pre & l & post & Heq & Hpre & Herr)].
  - by rewrite Hnil.
  - rewrite decide_False by (rewrite Heq, length_app; simpl; lia).
    rewrite Heq. by apply collectResources_error.
Qed.
End RegisterOutcome.

(** X14: which collectors are registered.  When the server's resource lists
    are there and parse, [registerCollectors] returns, and it calls the
    registration function of a name, with the registry, client and
    namespace it was given, exactly when the name is enabled, is one of the
    default collectors, and the default resource of the name is served,
    whatever resource the enabled set stores under the name; the names so
    registered are logged at the end, each once. *)
Theorem registerCollectors_registers_served_defaults
    {Registerer schema_GroupVersion : Type}
    (ParseGroupVersion : string -> schema_GroupVersion + Main.error)
    (WithResource : schema_GroupVersion -> string -> Main.GroupVersionResource)
    (range_keys : Main.collectorSet -> list string)
    (collectors : Main.Resources) (registry : Registerer)
    (client : Main.Client) (enabledCollectors : Main.collectorSet)
    (namespace : string) (events : list (@Main.Event Registerer)) :
  range_keys enabledCollectors ≡ₚ elements (dom enabledCollectors) ->
  (Main.ServerResources client).1 <> [] ->
  Forall (parses ParseGroupVersion) (Main.ServerResources client).1 ->
  exists new active,
    Main.registerCollectors ParseGroupVersion WithResource range_keys collectors
      registry (Some client) enabledCollectors namespace events
    = (Ok tt, events ++ new)
    /\ (forall f reg kc n,
          In (Main.Call f reg kc n) new
          <-> reg = registry /\ kc = Some client /\ n = namespace
              /\ exists c gvr,
                   is_Some (enabledCollectors !! c)
                   /\ Main.availableCollectorFuncs !! c = Some f
                   /\ Main.defaultCollectors collectors !! c = Some gvr
                   /\ served ParseGroupVersion WithResource client gvr)
    /\ (forall c,
          In c active
          <-> is_Some (enabledCollectors !! c)
              /\ exists gvr,
                   Main.defaultCollectors collectors !! c = Some gvr
                   /\ served ParseGroupVersion WithResource client gvr)
    /\ NoDup active
    /\ last new
       = Some (Main.Info ("Active collectors: " +:+ strings_Join active ",")).
Proof.
  intros Hrange Hne Hall.
  destruct (getSupportedResources_ok ParseGroupVersion WithResource client events
              Hne Hall) as (m & Hget & Hserved).
  assert (forall c, In c (range_keys enabledCollectors)
                    <-> is_Some (enabledCollectors !! c)) as Hkeys.
  { intros c. rewrite <- list_elem_of_In, Hrange, elem_of_elements.
    apply elem_of_dom. }
  assert (NoDup (range_keys enabledCollectors)) as Hnodup.
  { rewrite Hrange. apply NoDup_elements. }
  rewrite (registerCollectors_unfold ParseGroupVersion WithResource range_keys
             collectors registry (Some client) namespace (Some m)
             enabledCollectors events _ None Hget).
  cbv zeta. cbn [app].
  eexists (handled client ++ _ ++ [_]), _.
  split; [by rewrite <- app_assoc|]. split; [|split; [|split]].
  - intros f reg kc n.
    rewrite !in_app_iff, (in_calls collectors registry (Some client) namespace (Some m)).
    split.
    + intros [Hh|[Hc|Hi]].
      * unfold handled in Hh.
        destruct (Main.ServerResources client).2; [|destruct Hh].
        destruct Hh as [?|[]]. done.
      * destruct Hc as (-> & -> & -> & c & Hc & Hf).
        apply registered_Some in Hf as (Hf & gvr & m' & Hd & Hrm & Hm).
        injection Hrm as Hmm. subst m'.
        split; [done|]. split; [done|]. split; [done|]. exists c, gvr.
        split; [by apply Hkeys|]. split; [done|]. split; [done|].
        by apply Hserved.
      * destruct Hi as [?|[]]. done.
    + intros (-> & -> & -> & c & gvr & Hc & Hf & Hd & Hs). right. left.
      split; [done|]. split; [done|]. split; [done|]. exists c.
      split; [by apply Hkeys|]. apply registered_Some. split; [done|].
      exists gvr, m. split; [done|]. split; [done|]. by apply Hserved.
  - intros c. rewrite (in_active collectors (Some m)), Hkeys. split.
    + intros [Hc [f Hf]]. split; [done|].
      apply registered_Some in Hf as (_ & gvr & m' & Hd & Hrm & Hm).
      injection Hrm as Hmm. subst m'.
      exists gvr. split; [done|]. by apply Hserved.
    + intros [Hc (gvr & Hd & Hs)]. split; [done|].
      destruct (default_names_are_available collectors c gvr Hd) as [f Hf].
      exists f. apply registered_Some. split; [done|].
      exists gvr, m. split; [done|]. split; [done|]. by apply Hserved.
  - by apply active_NoDup.
  - rewrite app_assoc. apply last_snoc.
Qed.

Lemma registerCollectors_registers_served_defaults_witness :
  Main.registerCollectors Examples.parseGroupVersion Examples.withResource
    Examples.sortedKeys Examples.resources tt (Some Examples.client)
    Examples.enabled "kube-system" []
  = (Ok tt,
     [ Main.HandleError
         "unable to get all supported resources from server: metrics.k8s.io/v1beta1: the server is currently unable to handle the request";
       Main.Info "enabledCollectors is daemonsets";
       Main.Info "enabledCollectors is jobs";
       Main.Call Main.RegisterJobCollector tt (Some Examples.client) "kube-system";
       Main.Info "enabledCollectors is pods";
       Main.Call Main.RegisterPodCollector tt (Some Examples.client) "kube-system";
       Main.Info "Active collectors: jobs,pods" ]).
Proof.
  destruct (registerCollectors_registers_served_defaults
              Examples.parseGroupVersion Examples.withResource
              Examples.sortedKeys Examples.resources tt Examples.client
              Examples.enabled "kube-system" [])
    as (new & active & Hrun & _).
  - symmetry. apply sorted_strings_perm.
  - discriminate.
  - repeat constructor; eexists _, _; split; reflexivity.
  - rewrite Hrun. vm_compute in Hrun. injection Hrun as <-. reflexivity.
Defined.

(** X15: without a resource map nothing is registered.  When the server
    returns no resource list, or a group version does not parse, the error
    is logged, every enabled name is logged, no registration function is
    called, and [registerCollectors] returns all the same, with an empty
    list of active collectors in its last line. *)
Theorem registerCollectors_without_resources
    {Registerer schema_GroupVersion : Type}
    (ParseGroupVersion : string -> schema_GroupVersion + Main.error)
    (WithResource : schema_GroupVersion -> string -> Main.GroupVersionResource)
    (range_keys : Main.collectorSet -> list string)
    (collectors : Main.Resources) (registry : Registerer)
    (client : Main.Client) (enabledCollectors : Main.collectorSet)
    (namespace : string) (events : list (@Main.Event Registerer))
    (e : Main.error) :
  ((Main.ServerResources client).1 = []
   /\ e = "unable to get any supported resources from server")
  \/ (exists pre l post,
        (Main.ServerResources client).1 = pre ++ Some l :: post
        /\ Forall (parses ParseGroupVersion) pre
        /\ ParseGroupVersion (Main.GroupVersion l) = inr e) ->
  Main.registerCollectors ParseGroupVersion WithResource range_keys collectors
    registry (Some client) enabledCollectors namespace events
  = (Ok tt,
     events ++ handled client
     ++ Main.Error e
        :: map (fun c => Main.Info ("enabledCollectors is " +:+ c))
             (range_keys enabledCollectors)
     ++ [Main.Info "Active collectors: "]).
Proof.
  intros Hfail.
  pose proof (getSupportedResources_fails ParseGroupVersion WithResource client
                events e Hfail) as Hget.
  rewrite (registerCollectors_unfold ParseGroupVersion WithResource range_keys
             collectors registry (Some client) namespace None
             enabledCollectors events _ (Some e) Hget).
  cbv zeta.
  assert (forall c, match Main.defaultCollectors collectors !! c with
                    | Some gvr => if (Main.index2 None gvr).1
                                  then Main.availableCollectorFuncs !! c else None
                    | None => None
                    end = None) as Hnone.
  { intros c. by destruct (Main.defaultCollectors collectors !! c). }
  assert (forall keys : list string,
            flat_map (fun c =>
              match match Main.defaultCollectors collectors !! c with
                    | Some gvr => if (Main.index2 None gvr).1
                                  then Main.availableCollectorFuncs !! c else None
                    | None => None
                    end with
              | Some _ => [c]
              | None => []
              end) keys = []) as ->.
  { induction keys as [|c keys IH]; cbn [flat_map]; [done|].
    by rewrite Hnone, IH. }
  assert (forall keys : list string,
            flat_map (fun c =>
              Main.Info ("enabledCollectors is " +:+ c)
              :: match match Main.defaultCollectors collectors !! c with
                       | Some gvr => if (Main.index2 None gvr).1
                                     then Main.availableCollectorFuncs !! c
                                     else None
                       | None => None
                       end with
                 | Some f => [Main.Call f registry (Some client) namespace]
                 | None => []
                 end) keys
            = map (fun c => Main.Info (Registerer := Registerer)
                              ("enabledCollectors is " +:+ c)) keys) as ->.
  { induction keys as [|c keys IH]; cbn [flat_map map]; [done|].
    by rewrite Hnone, IH. }
  by rewrite <- !app_assoc.
Qed.

Lemma registerCollectors_without_resources_witness :
  Main.registerCollectors Examples.parseGroupVersion Examples.withResource
    Examples.sortedKeys Examples.resources tt (Some Examples.badClient)
    Examples.enabled "" []
  = (Ok tt,
     [ Main.Error "unexpected GroupVersion string: v 1";
       Main.Info "enabledCollectors is daemonsets";
       Main.Info "enabledCollectors is jobs";
       Main.Info "enabledCollectors is pods";
       Main.Info "Active collectors: " ]).
Proof.
  rewrite (registerCollectors_without_resources
             Examples.parseGroupVersion Examples.withResource
             Examples.sortedKeys Examples.resources tt Examples.badClient
             Examples.enabled "" [] "unexpected GroupVersion string: v 1").
  - vm_compute. reflexivity.
  - right. eexists [_], _, _. split; [reflexivity|]. split; [|reflexivity].
    repeat constructor. eexists _, _. split; reflexivity.
Defined.

(** ** [builder.go]: the composed function and its memory *)

Section MemArrays.
Context {A : Type}.

Lemma mem_elems_length (h : list (list A)) s :
  Mem.slice_wf h s -> length (Mem.elems h s) = len s.
Proof.
  intros (a & Ha & Hcap & Hlen). unfold Mem.elems. rewrite Ha. simpl.
  rewrite length_take, length_drop. lia.
Qed.

Lemma mem_elems_agree (h h' : list (list A)) s :
  h' !! arr s = h !! arr s -> Mem.elems h' s = Mem.elems h s.
Proof. unfold Mem.elems. by intros ->. Qed.

(** A read inside the slice gives the element there. *)
Lemma mem_index (h : list (list A)) s i x :
  Mem.elems h s !! i = Some x -> Mem.index h s i = Ok x.
Proof.
  unfold Mem.elems, Mem.index. intros Hx.
  apply lookup_take_Some in Hx as [Hx Hi]. rewrite lookup_drop in Hx.
  rewrite decide_True by done. by rewrite Hx.
Qed.

(** [Mem.append]: the new slice holds the old elements and then [x], in
    the array of the old slice or in a new one; no other array changes. *)
Lemma mem_append_spec (zero : A) grow (h : list (list A)) s x h' s' :
  Mem.slice_wf h s ->
  Mem.append zero grow h s x = (h', s') ->
  Mem.elems h' s' = Mem.elems h s ++ [x]
  /\ Mem.slice_wf h' s'
  /\ length h <= length h'
  /\ (arr s' = arr s \/ arr s' = length h)
  /\ (forall j, j <> arr s -> j < length h -> h' !! j = h !! j).
Proof.
  intros Hwf. pose proof (mem_elems_length h s Hwf) as Hlen.
  destruct Hwf as (a & Ha & Hcap & Hle).
  pose proof (lookup_lt_Some _ _ _ Ha) as Harr.
  unfold Mem.append. case_decide as Hspare; intros [= <- <-]; simpl.
  - rewrite Ha. simpl. split; [|split; [|split; [|split]]].
    + unfold Mem.elems. simpl. rewrite list_lookup_insert_eq by done.
      rewrite Ha. simpl. rewrite drop_insert_ge by lia.
      replace (off s + len s - off s) with (len s) by lia.
      erewrite take_S_r.
      * by rewrite take_insert_ge by lia.
      * apply list_lookup_insert_eq. rewrite length_drop. lia.
    + exists (<[off s + len s := x]> a). simpl.
      rewrite list_lookup_insert_eq by done. rewrite length_insert.
      split; [done|]. lia.
    + by rewrite length_insert.
    + by left.
    + intros j Hj _. by rewrite list_lookup_insert_ne.
  - split; [|split; [|split; [|split]]].
    + unfold Mem.elems at 1. simpl.
      rewrite lookup_app_r, Nat.sub_diag by lia. simpl.
      rewrite cons_middle, app_assoc, drop_0.
      rewrite take_app_le by (rewrite length_app; simpl; lia).
      apply take_ge. rewrite length_app. simpl. lia.
    + eexists. simpl. rewrite lookup_app_r, Nat.sub_diag by lia. simpl.
      split; [done|]. rewrite length_app. simpl. rewrite length_replicate. lia.
    + rewrite length_app. simpl. lia.
    + by right.
    + intros j _ Hj. by rewrite lookup_app_l.
Qed.
End MemArrays.

Section MemCompose.
Context {W Obj Fam : Type}.
Variable growslice : nat -> nat -> nat.
Local Abbreviation FamilyGenerator := (Metrics.FamilyGenerator (Exec W) Obj Fam).
Local Abbreviation func := (Obj -> Exec W Fam).

(** The appending loop of [composeMetricGenFuncs]: it writes only to arrays
    newer than the store [base] it started from. *)
Lemma funcs_loop (base : list (list (option func)))
    (families : list FamilyGenerator) :
  forall h s h' s',
    Mem.slice_wf h s ->
    length base <= arr s ->
    length base <= length h ->
    (forall j, j < length base -> h !! j = base !! j) ->
    fold_left (fun '(h, funcs) f =>
                 Mem.append None growslice h funcs (Some (GenerateFunc f)))
      families (h, s) = (h', s') ->
    Mem.slice_wf h' s'
    /\ Mem.elems h' s'
       = Mem.elems h s ++ map (fun f => Some (GenerateFunc f)) families
    /\ (forall j, j < length base -> h' !! j = base !! j).
Proof.
  induction families as [|f families IH]; intros h s h' s' Hwf Hnew Hgrow Hold.
  - simpl. intros [= <- <-]. by rewrite app_nil_r.
  - simpl.
    destruct (Mem.append None growslice h s (Some (GenerateFunc f)))
      as [h1 s1] eqn:Happ.
    destruct (mem_append_spec _ _ _ _ _ _ _ Hwf Happ)
      as (Hel1 & Hwf1 & Hgrow1 & Hat & Hkeep).
    intros Hloop.
    destruct (IH h1 s1 h' s' Hwf1) as (Hwf' & Hel' & Hold'); try done.
    + destruct Hat as [->| ->]; lia.
    + lia.
    + intros j Hj. rewrite Hkeep by lia. by apply Hold.
    + split; [done|]. split; [|done].
      rewrite Hel', Hel1. by rewrite <- app_assoc.
Qed.

(** [composeMetricGenFuncs]: the slice it leaves to the returned function
    holds the render functions of the generators, in order; nothing that
    was in memory before has changed. *)
Lemma compose_spec (families : list FamilyGenerator) (w : Mem.World) :
  exists funcs F,
    Mem.composeMetricGenFuncs growslice families w
    = (Ok funcs, {| Mem.ambient := Mem.ambient w; Mem.funcArrays := F;
                    Mem.blockArrays := Mem.blockArrays w |})
    /\ Mem.slice_wf F funcs
    /\ Mem.elems F funcs = map (fun f => Some (GenerateFunc f)) families
    /\ (forall j, j < length (Mem.funcArrays w) ->
          F !! j = Mem.funcArrays w !! j).
Proof.
  unfold Mem.composeMetricGenFuncs, Mem.empty_slice.
  destruct (fold_left _ families _) as [F funcs] eqn:Hloop.
  destruct (funcs_loop (Mem.funcArrays w) families
              (Mem.funcArrays w ++ [[]])
              (Slice (length (Mem.funcArrays w)) 0 0 0) F funcs)
    as (Hwf & Hel & Hold).
  - exists []. simpl. rewrite lookup_app_r, Nat.sub_diag by lia. simpl.
    repeat split; lia.
  - simpl. lia.
  - rewrite length_app. simpl. lia.
  - intros j Hj. by rewrite lookup_app_l.
  - exact Hloop.
  - exists funcs, F. split; [done|]. split; [done|]. split; [|done].
    rewrite Hel. reflexivity.
Qed.
End MemCompose.

Lemma insert_middle {A} (prev : list A) (x y : A) (rest : list A) (k : nat) :
  k = length prev -> <[k := y]> (prev ++ x :: rest) = (prev ++ [y]) ++ rest.
Proof.
  intros ->. rewrite insert_app_r_alt by lia. rewrite Nat.sub_diag. simpl.
  by rewrite <- app_assoc.
Qed.

Section MemLoop.
Context {W Obj Fam : Type}.
Local Abbreviation FamilyGenerator := (Metrics.FamilyGenerator (Exec W) Obj Fam).
Local Abbreviation func := (Obj -> Exec W Fam).
Variable pure : FamilyGenerator -> Obj -> result Fam.
Variable families : list FamilyGenerator.
Variable obj : Obj.
Variable a : W.
Variable F : list (list (option func)).
Variable B : list (list (option Fam)).

(** The world while the loop of the returned function runs: the array of
    the call, [cur], is the newest one. *)
Local Abbreviation world cur :=
  {| Mem.ambient := a; Mem.funcArrays := F; Mem.blockArrays := B ++ [cur] |}.
Local Abbreviation returns :=
  (fun (f : FamilyGenerator) (b : option Fam) =>
     exists block, pure f obj = Ok block /\ b = Some block).

Variable body : nat -> nat -> unit -> Exec (@Mem.World W Obj Fam) unit.
Hypothesis body_step : forall j i f cur,
  families !! i = Some f ->
  length cur = length families ->
  body j i tt (world cur)
  = match pure f obj with
    | Ok block => (Ok tt, world (<[i := Some block]> cur))
    | Panic p => (Panic p, world cur)
    end.

Lemma mem_loop_ok (fs : list FamilyGenerator) (rest : list (option Fam)) :
  Forall2 returns fs rest ->
  forall prev_fs prev j,
    families = prev_fs ++ fs ->
    length prev = length prev_fs ->
    for_range body j (seq (length prev_fs) (length fs)) tt
      (world (prev ++ replicate (length fs) None))
    = (Ok tt, world (prev ++ rest)).
Proof.
  induction 1 as [|f b fs rest (block & Hf & ->) _ IH];
    intros prev_fs prev j Hfam Hlen.
  - done.
  - cbn [length seq replicate for_range]. unfold mbind, Exec_bind.
    rewrite (body_step j (length prev_fs) f).
    + rewrite Hf. rewrite insert_middle by done.
      specialize (IH (prev_fs ++ [f]) (prev ++ [Some block]) (S j)).
      rewrite !length_app in IH. cbn [length] in IH.
      replace (S (length prev_fs)) with (length prev_fs + 1) by lia.
      etrans; [apply IH|by rewrite <- app_assoc].
      * by rewrite Hfam, <- app_assoc.
      * by rewrite Hlen.
    + rewrite Hfam. by apply list_lookup_middle.
    + rewrite Hfam, !length_app, Hlen. cbn [length].
      rewrite length_replicate, ?length_app. cbn [length]. lia.
Qed.

Lemma mem_loop_panic (pre post : list FamilyGenerator) (f : FamilyGenerator)
    (p : panic) :
  Forall (fun g => exists block, pure g obj = Ok block) pre ->
  pure f obj = Panic p ->
  forall prev_fs prev j,
    families = prev_fs ++ pre ++ f :: post ->
    length prev = length prev_fs ->
    exists cur,
      for_range body j (seq (length prev_fs) (length (pre ++ f :: post))) tt
        (world (prev ++ replicate (length (pre ++ f :: post)) None))
      = (Panic p, world cur).
Proof.
  intros Hpre Hf. induction Hpre as [|g pre (block & Hg) _ IH];
    intros prev_fs prev j Hfam Hlen.
  - cbn [app length seq replicate for_range]. unfold mbind, Exec_bind.
    rewrite (body_step j (length prev_fs) f).
    + rewrite Hf. eauto.
    + rewrite Hfam. by apply list_lookup_middle.
    + rewrite Hfam, !length_app, Hlen. cbn [length].
      rewrite length_replicate, ?length_app. cbn [length]. lia.
  - change ((g :: pre) ++ f :: post) with (g :: (pre ++ f :: post)) in *.
    cbn [length seq replicate for_range]. unfold mbind, Exec_bind.
    rewrite (body_step j (length prev_fs) g).
    + rewrite Hg. rewrite insert_middle by done.
      specialize (IH (prev_fs ++ [g]) (prev ++ [Some block]) (S j)).
      replace (length (prev_fs ++ [g])) with (S (length prev_fs)) in IH
        by (rewrite length_app; simpl; lia).
      apply IH.
      * by rewrite Hfam, <- app_assoc.
      * rewrite !length_app. simpl. lia.
    + rewrite Hfam. by apply list_lookup_middle.
    + rewrite Hfam, !length_app, Hlen. cbn [length].
      rewrite length_replicate, ?length_app. cbn [length]. lia.
Qed.
End MemLoop.

Section MemCall.
Context {W Obj Fam : Type}.
Local Abbreviation FamilyGenerator := (Metrics.FamilyGenerator (Exec W) Obj Fam).
Local Abbreviation func := (Obj -> Exec W Fam).
Variable pure : FamilyGenerator -> Obj -> result Fam.
Variable families : list FamilyGenerator.
Variable funcs : slice.
Variable F : list (list (option func)).
Hypothesis funcs_wf : Mem.slice_wf F funcs.
Hypothesis funcs_elems :
  Mem.elems F funcs = map (fun f => Some (GenerateFunc f)) families.
Hypothesis generators_pure : forall f, In f families -> pure_as pure f.

Local Abbreviation world a B :=
  {| Mem.ambient := a; Mem.funcArrays := F; Mem.blockArrays := B |}.
Local Abbreviation mem_body families_slice obj :=
  (fun (_ : nat) (i : nat) (_ : unit) =>
     f ← Mem.read_func funcs i;
     block ← Mem.call f obj;
     Mem.write_block (W := W) (Obj := Obj) families_slice i (Some block)).

Lemma funcs_len : len funcs = length families.
Proof.
  rewrite <- (mem_elems_length F funcs funcs_wf), funcs_elems.
  by rewrite length_map.
Qed.

Lemma mem_body_step (obj : Obj) (a : W) (B : list (list (option Fam)))
    (j i : nat) (f : FamilyGenerator) (cur : list (option Fam)) :
  families !! i = Some f ->
  length cur = length families ->
  mem_body (Slice (length B) 0 (len funcs) (len funcs)) obj j i tt
    (world a (B ++ [cur]))
  = match pure f obj with
    | Ok block => (Ok tt, world a (B ++ [<[i := Some block]> cur]))
    | Panic p => (Panic p, world a (B ++ [cur]))
    end.
Proof.
  intros Hf Hcur. pose proof (lookup_lt_Some _ _ _ Hf) as Hi.
  unfold mbind, Exec_bind, Mem.read_func. cbn [Mem.funcArrays].
  rewrite (mem_index F funcs i (Some (GenerateFunc f)))
    by (by rewrite funcs_elems, list_lookup_fmap, Hf).
  unfold Mem.call. cbn [Mem.ambient Mem.funcArrays Mem.blockArrays].
  rewrite (generators_pure f)
    by (by apply list_elem_of_In, (list_elem_of_lookup_2 _ i)).
  destruct (pure f obj) as [block|p]; [|done].
  unfold Mem.write_block, Mem.set.
  cbn [Mem.ambient Mem.funcArrays Mem.blockArrays len arr off].
  rewrite decide_True by (rewrite funcs_len; lia).
  rewrite lookup_app_r, Nat.sub_diag by lia. cbn [lookup list_lookup default].
  rewrite insert_app_r_alt, Nat.sub_diag by lia. done.
Qed.

(** Either every pure function returns on [obj], or there is a first one
    that panics. *)
Lemma pure_return_or_panic (fs : list FamilyGenerator) (obj : Obj) :
  (exists blocks,
     Forall2 (fun f b => exists block, pure f obj = Ok block /\ b = Some block)
       fs blocks)
  \/ (exists pre f post p,
        fs = pre ++ f :: post
        /\ Forall (fun g => exists block, pure g obj = Ok block) pre
        /\ pure f obj = Panic p).
Proof.
  induction fs as [|f fs IH].
  - left. exists []. constructor.
  - destruct (pure f obj) as [block|p] eqn:Hf.
    + destruct IH as [[blocks HF]|(pre & g & post & p & -> & Hpre & Hg)].
      * left. exists (Some block :: blocks). constructor; eauto.
      * right. exists (f :: pre), g, post, p. split; [done|]. split; [|done].
        constructor; eauto.
    + right. exists [], f, fs, p. split; [done|]. split; [constructor|done].
Qed.

(** One call of the returned function: it adds one array to the block
    arrays and changes nothing else; its outcome, read in the world it
    leaves, is that of the composition of the pure functions. *)
Lemma composed_call (obj : Obj) (a : W) (B : list (list (option Fam))) :
  exists o new,
    Mem.composed funcs obj (world a B) = (o, world a (B ++ [new]))
    /\ blocks_in (world a (B ++ [new])) o
       = composeMetricGenFuncs (map (purified pure) families) obj
    /\ (forall r, o = Ok r -> arr r = length B).
Proof.
  assert (
    Mem.composed funcs obj (world a B)
    = match for_range (mem_body (Slice (length B) 0 (len funcs) (len funcs)) obj)
              0 (seq 0 (len funcs)) tt
              (world a (B ++ [replicate (len funcs) None])) with
      | (Ok _, w') => (Ok (Slice (length B) 0 (len funcs) (len funcs)), w')
      | (Panic p, w') => (Panic p, w')
      end) as Hunfold.
  { unfold Mem.composed, Mem.make_blocks, Mem.make.
    unfold mbind at 1. unfold Exec_bind at 1.
    cbn [Mem.ambient Mem.funcArrays Mem.blockArrays].
    unfold mbind at 1. unfold Exec_bind at 1.
    reflexivity. }
  rewrite Hunfold. clear Hunfold.
  destruct (pure_return_or_panic families obj)
    as [[blocks HF]|(pre & f & post & p & Heq & Hpre & Hf)].
  - rewrite (composeMetricGenFuncs_ok (map (purified pure) families) obj blocks)
      by (by apply Forall2_fmap_l).
    pose proof (mem_loop_ok pure families obj a F B _
                  (fun j i f cur => mem_body_step obj a B j i f cur)
                  families blocks HF [] [] 0 eq_refl eq_refl) as Hloop.
    rewrite <- funcs_len in Hloop. cbn [app length] in Hloop. rewrite Hloop.
    exists (Ok (Slice (length B) 0 (len funcs) (len funcs))), blocks.
    split; [done|]. split; [|by intros r [= <-]].
    unfold blocks_in, Mem.elems. cbn [Mem.blockArrays arr off len].
    rewrite lookup_app_r, Nat.sub_diag by lia. cbn [lookup list_lookup default].
    rewrite drop_0. f_equal. apply take_ge.
    apply Forall2_length in HF. rewrite funcs_len. lia.
  - destruct (mem_loop_panic pure families obj a F B _
                (fun j i f cur => mem_body_step obj a B j i f cur)
                pre post f p Hpre Hf [] [] 0 Heq eq_refl) as [cur Hloop].
    rewrite <- Heq, <- funcs_len in Hloop. cbn [app length] in Hloop.
    rewrite Hloop. exists (Panic p), cur. split; [done|]. split; [|done].
    rewrite Heq, map_app. cbn [map blocks_in]. symmetry.
    apply composeMetricGenFuncs_first_panic; [|done].
    intros g Hg. apply in_map_iff in Hg as (g' & <- & Hg').
    rewrite List.Forall_forall in Hpre. by apply Hpre.
Qed.
(** Successive calls: each adds its own array; what an earlier call
    returned is still there, unchanged, after the later ones. *)
Lemma calls_spec (objs : list Obj) :
  forall (a : W) (B : list (list (option Fam))),
    exists outs news,
      calls (Mem.composed funcs) objs (world a B) = (outs, world a (B ++ news))
      /\ length news = length objs
      /\ map (blocks_in (world a (B ++ news))) outs
         = map (composeMetricGenFuncs (map (purified pure) families)) objs
      /\ (forall i r, outs !! i = Some (Ok r) -> arr r = length B + i).
Proof.
  induction objs as [|obj objs IH]; intros a B.
  - exists [], []. rewrite app_nil_r. by repeat split.
  - destruct (composed_call obj a B) as (o & new & Hrun & Hblocks & Harr).
    destruct (IH a (B ++ [new])) as (outs & news & Hruns & Hlen & Hmap & Harrs).
    exists (o :: outs), (new :: news).
    replace (B ++ new :: news) with ((B ++ [new]) ++ news)
      by (by rewrite <- app_assoc).
    split; [|split; [|split]].
    + cbn [calls]. by rewrite Hrun, Hruns.
    + simpl. by rewrite Hlen.
    + cbn [map]. rewrite Hmap, <- Hblocks. f_equal.
      destruct o as [r|p]; [|done]. unfold blocks_in. f_equal.
      apply mem_elems_agree. cbn [Mem.blockArrays].
      rewrite (Harr r eq_refl). apply lookup_app_l.
      rewrite length_app. simpl. lia.
    + intros [|i] r Hr.
      * injection Hr as ->. rewrite (Harr r eq_refl). lia.
      * rewrite (Harrs i r Hr), length_app. simpl. lia.
Qed.
End MemCall.

(** C7: with generators that are pure and deterministic, the function
    returned by [composeMetricGenFuncs] is deterministic and shares no
    mutable state across its calls.  Whatever is in memory before, and
    whatever objects it is then called on, in whatever order: every call
    returns a slice over an array of its own, allocated by that call; the
    block list that each call returned, read after all the calls are made,
    is the list of the blocks of the generators on the object of that call,
    in order, or the call has panicked with the panic of the first
    generator that panics; so two calls on the same object yield equal
    block lists.  The slice of functions that the calls share is never
    written, nor is any array that was there before, nor the state of the
    generators. *)
Theorem composed_calls_share_no_state {W Obj Fam : Type}
    (growslice : nat -> nat -> nat)
    (pure : FamilyGenerator (Exec W) Obj Fam -> Obj -> result Fam)
    (families : list (FamilyGenerator (Exec W) Obj Fam))
    (w0 : Mem.World) (objs : list Obj) :
  (forall f, In f families -> pure_as pure f) ->
  exists funcs w1 outs w,
    Mem.composeMetricGenFuncs growslice families w0 = (Ok funcs, w1)
    /\ calls (Mem.composed funcs) objs w1 = (outs, w)
    /\ map (blocks_in w) outs
       = map (composeMetricGenFuncs (map (purified pure) families)) objs
    /\ (forall i j obj,
          objs !! i = Some obj -> objs !! j = Some obj ->
          exists o1 o2,
            outs !! i = Some o1 /\ outs !! j = Some o2
            /\ blocks_in w o1 = blocks_in w o2)
    /\ (forall i r, outs !! i = Some (Ok r) ->
          arr r = length (Mem.blockArrays w0) + i)
    /\ length (Mem.blockArrays w)
       = length (Mem.blockArrays w0) + length objs
    /\ (forall j, j < length (Mem.blockArrays w0) ->
          Mem.blockArrays w !! j = Mem.blockArrays w0 !! j)
    /\ Mem.ambient w = Mem.ambient w0
    /\ Mem.funcArrays w = Mem.funcArrays w1
    /\ (forall j, j < length (Mem.funcArrays w0) ->
          Mem.funcArrays w1 !! j = Mem.funcArrays w0 !! j).
Proof.
  intros Hpure.
  destruct (compose_spec growslice families w0)
    as (funcs & F & Hcompose & Hwf & Hel & Hold).
  destruct (calls_spec pure families funcs F Hwf Hel Hpure objs
              (Mem.ambient w0) (Mem.blockArrays w0))
    as (outs & news & Hcalls & Hlen & Hmap & Harr).
  eexists funcs, _, outs, _. split; [exact Hcompose|].
  split; [exact Hcalls|]. split; [exact Hmap|].
  split; [|split; [exact Harr|split; [|split; [|done]]]].
  - intros i j obj Hi Hj.
    assert (forall k, objs !! k = Some obj ->
              exists o, outs !! k = Some o
                /\ blocks_in {| Mem.ambient := Mem.ambient w0;
                                Mem.funcArrays := F;
                                Mem.blockArrays := Mem.blockArrays w0 ++ news |} o
                   = composeMetricGenFuncs (map (purified pure) families) obj)
      as Hat.
    { intros k Hk. apply (f_equal (fun l => l !! k)) in Hmap.
      rewrite !list_lookup_fmap, Hk in Hmap.
      destruct (outs !! k) as [o|]; [|done]. injection Hmap as Hmap. eauto. }
    destruct (Hat i Hi) as (o1 & Ho1 & Hb1).
    destruct (Hat j Hj) as (o2 & Ho2 & Hb2).
    exists o1, o2. split; [done|]. split; [done|]. by rewrite Hb1, Hb2.
  - cbn [Mem.blockArrays]. rewrite length_app. lia.
  - intros j Hj. cbn [Mem.blockArrays]. by apply lookup_app_l.
Qed.

Lemma composed_calls_share_no_state_witness :
  exists funcs w1 outs w blocks,
    Mem.composeMetricGenFuncs (fun oldcap _ => 2 * oldcap)
      Examples.pdbFamiliesCounted
      {| Mem.ambient := 7; Mem.funcArrays := []; Mem.blockArrays := [[None]] |}
    = (Ok funcs, w1)
    /\ calls (Mem.composed funcs)
         [ Store.ObjPodDisruptionBudget (Some Examples.pdb);
           Store.ObjNil;
           Store.ObjPodDisruptionBudget (Some Examples.pdb) ] w1
       = (outs, w)
    /\ map (blocks_in w) outs
       = [Ok blocks; Panic InterfaceConversion; Ok blocks]
    /\ length blocks = 8
    /\ map (fun o => match o with Ok r => Some (arr r) | Panic _ => None end)
         outs = [Some 1; None; Some 3].
Proof.
  destruct (composed_calls_share_no_state (fun oldcap _ => 2 * oldcap)
              (fun f obj => (GenerateFunc f obj 0).1)
              Examples.pdbFamiliesCounted
              {| Mem.ambient := 7; Mem.funcArrays := [];
                 Mem.blockArrays := [[None]] |}
              [ Store.ObjPodDisruptionBudget (Some Examples.pdb);
                Store.ObjNil;
                Store.ObjPodDisruptionBudget (Some Examples.pdb) ])
    as (funcs & w1 & outs & w & Hcompose & Hcalls & Hmap & _ & Harr & _).
  - intros f Hf. simpl in Hf.
    repeat (destruct Hf as [<-|Hf];
            [intros [[[[? ? [?|] ? ?] ?]|]| |] a; reflexivity|]).
    destruct Hf.
  - exists funcs, w1, outs, w. eexists.
    split; [exact Hcompose|]. split; [exact Hcalls|].
    vm_compute in Hmap. split; [exact Hmap|]. split; [reflexivity|].
    destruct outs as [|[r0|p0] [|[r1|p1] [|[r2|p2] [|o outs]]]];
      try discriminate Hmap.
    cbn [map]. rewrite (Harr 0 r0 eq_refl), (Harr 2 r2 eq_refl). reflexivity.
Defined.
